(** * Berlin-App: scoring and aggregation pipeline

    A shallow embedding of the Python package [berlin_labels] (name
    canonicalisation, scoring primitives, theme builders, district
    aggregation, the merge step of the pipeline) and of the composite
    score of [app.py], with the properties of the specification stated
    and proved over it.

    Modelling conventions.
    - A Python [str] is a sequence of code points.  The strings of this
      development are sequences of 8-bit characters read as the code
      points U+0000..U+00FF (Latin-1), which contains ASCII and the seven
      keys of [UMLAUT_MAP].  [str.isspace], [str.isalnum] and [str.lower]
      are tabulated on that range as CPython defines them.
    - A float is a rational number ([Q]); NaN (the pandas null of a
      numeric column) is [None].  Infinities do not occur in the model.
    - A pandas table is a list of rows; a column of numbers is a
      [list (option Q)].  The cells of a table have the type of their
      column: a cell of a numeric column is a number or null.
    - Some statements carry hypotheses that keep them within these
      bounds: a margin around a float comparison, key columns of numeric
      dtype for [merge], areas other than 0 where Python would answer
      infinity. *)

From Stdlib Require Import QArith Qround Qminmax Qabs Lqa Lia ZArith List Sorted Ascii String.
From stdpp Require Import base decidable option list strings gmap.

Open Scope string_scope.

(** ** Python strings *)

Module pystr.

Definition chars := list ascii.

Definition between (lo hi n : N) : bool := ((lo <=? n) && (n <=? hi))%N.

(** [str.isspace] on U+0000..U+00FF: TAB..CR, FS..US, SPACE, NEL, NBSP. *)
Definition isspace (c : ascii) : bool :=
  let n := N_of_ascii c in
  between 9 13 n || between 28 32 n || (n =? 133)%N || (n =? 160)%N.

(** ASCII letters and digits. *)
Definition is_ascii_alnum (c : ascii) : bool :=
  let n := N_of_ascii c in
  between 48 57 n || between 65 90 n || between 97 122 n.

(** [str.isalnum] on U+0000..U+00FF: the ASCII letters and digits, the
    ordinal indicators, superscript digits, micro sign, vulgar fractions
    and every Latin-1 letter (all of U+00C0..U+00FF but the
    multiplication and division signs). *)
Definition isalnum (c : ascii) : bool :=
  let n := N_of_ascii c in
  is_ascii_alnum c
  || (n =? 170)%N || between 178 179 n || (n =? 181)%N
  || between 185 186 n || between 188 190 n
  || between 192 214 n || between 216 246 n || between 248 255 n.

(** [str.lower] on one code point of U+0000..U+00FF. *)
Definition lower_char (c : ascii) : ascii :=
  let n := N_of_ascii c in
  if between 65 90 n || between 192 214 n || between 216 222 n
  then ascii_of_N (n + 32) else c.

Definition lower (s : chars) : chars := map lower_char s.

Fixpoint lstrip (s : chars) : chars :=
  match s with
  | [] => []
  | c :: s' => if isspace c then lstrip s' else s
  end.

Fixpoint rstrip (s : chars) : chars :=
  match s with
  | [] => []
  | c :: s' =>
      match rstrip s' with
      | [] => if isspace c then [] else [c]
      | r => c :: r
      end
  end.

(** [s.strip()] *)
Definition strip (s : chars) : chars := rstrip (lstrip s).

(** [s.replace(old, new)] for a one-character [old]. *)
Definition replace (old : ascii) (new : chars) (s : chars) : chars :=
  flat_map (fun c => if Ascii.eqb c old then new else [c]) s.

(** [s.split(sep)] for a one-character separator: never empty. *)
Fixpoint split (sep : ascii) (s : chars) : list chars :=
  match s with
  | [] => [[]]
  | c :: s' =>
      if Ascii.eqb c sep then [] :: split sep s'
      else match split sep s' with
           | p :: ps => (c :: p) :: ps
           | [] => [[c]]
           end
  end.

(** The join of [ch for ch in s if ch.isalnum()] on the empty separator. *)
Definition keep_alnum (s : chars) : chars := List.filter isalnum s.

Definition of_string : string -> chars := list_ascii_of_string.
Definition to_string : chars -> string := string_of_list_ascii.

(** [s.startswith(p)] *)
Fixpoint starts_with (p s : chars) : bool :=
  match p, s with
  | [], _ => true
  | _ :: _, [] => false
  | a :: p', b :: s' => Ascii.eqb a b && starts_with p' s'
  end.

(** [needle in hay] *)
Fixpoint contains (needle hay : chars) : bool :=
  starts_with needle hay
  || match hay with
     | [] => false
     | _ :: hay' => contains needle hay'
     end.

(** Whether the text [msg] holds the name [c]. *)
Definition mentions (msg c : string) : bool :=
  contains (list_ascii_of_string c) (list_ascii_of_string msg).

(** [sep.join(l)] *)
Fixpoint join (sep : string) (l : list string) : string :=
  match l with
  | [] => EmptyString
  | [x] => x
  | x :: l' => x ++ sep ++ join sep l'
  end.

(** [repr] of a [str] without quotes in it, and of a set of such. *)
Definition repr_str (s : string) : string := "'" ++ s ++ "'".

Definition repr_set (s : gset string) : string :=
  "{" ++ join ", " (map repr_str (elements s)) ++ "}".

End pystr.

(** ** berlin_labels/text.py *)

Module text.
Import pystr.

(** The code points of the table's keys. *)
Definition a_uml : ascii := "228"%char.
Definition o_uml : ascii := "246"%char.
Definition u_uml : ascii := "252"%char.
Definition A_uml : ascii := "196"%char.
Definition O_uml : ascii := "214"%char.
Definition U_uml : ascii := "220"%char.
Definition eszett : ascii := "223"%char.

Definition UMLAUT_MAP : list (ascii * chars) :=
  [ (a_uml, of_string "ae"); (o_uml, of_string "oe"); (u_uml, of_string "ue");
    (A_uml, of_string "ae"); (O_uml, of_string "oe"); (U_uml, of_string "ue");
    (eszett, of_string "ss") ].

(** The loop [for k, v in UMLAUT_MAP.items(): s = s.replace(k, v)]. *)
Definition _fold_umlauts (s : chars) : chars :=
  fold_left (fun acc kv => replace (fst kv) (snd kv) acc) UMLAUT_MAP s.

(** What [canon_nh] can be called on: [None], a [str], or another object
    (a float NaN of a pandas column, a number) given by its [str()]. *)
Inductive pyobj :=
| PyNone
| PyStr (s : string)
| PyOther (repr : string).

Definition py_str (o : pyobj) : string :=
  match o with
  | PyNone => "None"
  | PyStr s => s
  | PyOther r => r
  end.

Definition canon_chars (s : chars) : chars :=
  keep_alnum (_fold_umlauts (lower (strip s))).

Definition canon_nh (name : pyobj) : string :=
  match name with
  | PyNone => EmptyString
  | _ => to_string (canon_chars (of_string (py_str name)))
  end.

Definition national_cuisine_vocab : gset string :=
  list_to_set
    [ "italian"; "french"; "spanish"; "portuguese"; "greek"; "turkish";
      "german"; "polish"; "russian"; "ukrainian"; "balkan"; "hungarian";
      "romanian"; "bulgarian"; "georgian";
      "mexican"; "argentinian"; "peruvian"; "brazilian"; "colombian";
      "venezuelan"; "caribbean"; "american"; "texmex";
      "lebanese"; "israeli"; "palestinian"; "syrian"; "iraqi"; "iranian";
      "afghan"; "moroccan"; "tunisian"; "algerian"; "ethiopian";
      "eritrean"; "egyptian"; "southafrican"; "nigerian";
      "indian"; "pakistani"; "bangladeshi"; "srilankan"; "nepali";
      "chinese"; "japanese"; "korean"; "thai"; "vietnamese"; "laotian";
      "cambodian"; "indonesian"; "malaysian"; "singaporean"; "filipino" ].

Definition _EXCLUDE_TOKENS : gset string :=
  list_to_set
    [ "pizza"; "pasta"; "sushi"; "ramen"; "doner";
      String "d" (String o_uml "ner");
      "kebab"; "burger"; "bbq"; "grill"; "steak"; "noodles"; "dumpling";
      "dumplings"; "sandwich"; "bakery"; "cafe"; "coffee"; "bubbletea";
      "boba"; "falafel" ].

Definition _normalize_token (tok : string) : string :=
  to_string (keep_alnum (_fold_umlauts (lower (strip (of_string tok))))).

(** The argument of [tokenize_cuisines]: [None], a float, a [str], an
    iterable of objects, or an object that cannot be iterated. *)
Inductive cuisines_arg :=
| CNone
| CFloat (is_nan : bool)
| CStr (s : string)
| CIter (items : list pyobj)
| CNotIterable.

(** The loop over [parts]. *)
Fixpoint collect_tokens (parts : list string) : list string :=
  match parts with
  | [] => []
  | p :: rest =>
      let t := _normalize_token p in
      if bool_decide (t = EmptyString) || bool_decide (t ∈ _EXCLUDE_TOKENS)
      then collect_tokens rest
      else if bool_decide (t ∈ national_cuisine_vocab)
           then t :: collect_tokens rest
           else collect_tokens rest
  end.

Definition tokenize_cuisines (cuisines : cuisines_arg) : list string :=
  match cuisines with
  | CNone => []
  | CFloat _ => []
  | CStr s => collect_tokens (map to_string (split ";" (of_string s)))
  | CIter items => collect_tokens (map py_str items)
  | CNotIterable => []
  end.

Definition nationals_set (cuisines : cuisines_arg) : gset string :=
  list_to_set (tokenize_cuisines cuisines).

End text.

(** ** The canonicaliser as the specification words it *)

Module reference.
Import pystr text.

(** The regional table read as one substitution per character. *)
Definition fold_table (s : chars) : chars :=
  flat_map
    (fun c =>
       match List.find (fun kv => Ascii.eqb c (fst kv)) UMLAUT_MAP with
       | Some kv => snd kv
       | None => [c]
       end)
    s.

(** Trim, replace by the table, lowercase, then remove every character
    that is not an ASCII letter or digit; the empty string for null. *)
Definition canon_reference (name : pyobj) : string :=
  match name with
  | PyNone => EmptyString
  | _ =>
      to_string
        (List.filter is_ascii_alnum
           (lower (fold_table (strip (of_string (py_str name))))))
  end.

(** A character that canonicalisation leaves alone: alphanumeric, not a
    space, lowercase and no key of the table. *)
Definition stable (c : ascii) : bool :=
  isalnum c && negb (isspace c) && Ascii.eqb (lower_char c) c
  && bool_decide (_fold_umlauts [c] = [c]).

(** The steps of [canon_nh] after the trimming: lowercase, fold, keep the
    alphanumeric characters. *)
Definition steps (s : chars) : chars := keep_alnum (_fold_umlauts (lower s)).

(** A character that is either not alphanumeric for [str.isalnum], or an
    ASCII letter or digit, or a key of the table. *)
Definition plain (c : ascii) : bool :=
  negb (isalnum c) || is_ascii_alnum c
  || existsb (fun kv => Ascii.eqb c (fst kv)) UMLAUT_MAP.

End reference.

(** ** Floats, numeric columns and numpy's percentile *)

Module numeric.

Open Scope Q_scope.

(** A column of floats; [None] is NaN. *)
Abbreviation Series := (list (option Q)).

(** Arithmetic on floats: NaN propagates. *)
Definition fneg (a : option Q) : option Q :=
  match a with Some x => Some (- x) | None => None end.

Definition fbin (op : Q -> Q -> Q) (a b : option Q) : option Q :=
  match a, b with
  | Some x, Some y => Some (op x y)
  | _, _ => None
  end.

Definition fadd := fbin Qplus.
Definition fsub := fbin Qminus.
Definition fmul := fbin Qmult.

(** Division.  A zero divisor gives an infinity or NaN in floating point;
    the model has no infinities and answers NaN, which is what the
    builders make of an infinity ([replace([inf, -inf], nan)]).  Every
    theorem below that divides shows or assumes the divisor non-zero. *)
Definition fdiv (a b : option Q) : option Q :=
  match a, b with
  | Some x, Some y => if Qeq_bool y 0 then None else Some (x / y)
  | _, _ => None
  end.

(** Comparisons with NaN are false. *)
Definition fle (a b : option Q) : bool :=
  match a, b with
  | Some x, Some y => Qle_bool x y
  | _, _ => false
  end.

Definition fge (a b : option Q) : bool := fle b a.
Definition flt (a b : option Q) : bool :=
  match a, b with
  | Some x, Some y => negb (Qle_bool y x)
  | _, _ => false
  end.
Definition fgt (a b : option Q) : bool := flt b a.

(** Python's built-in [max(a, b)]: [b] if [b > a], else [a]. *)
Definition py_max (a b : option Q) : option Q := if fgt b a then b else a.

(** [min(max(x, lo), hi)], the clip of numpy and pandas on a number. *)
Definition clip (x lo hi : Q) : Q := Qmin (Qmax x lo) hi.

(** [Series.clip(lo, hi)] on one entry: NaN stays NaN. *)
Definition fclip (a : option Q) (lo hi : Q) : option Q :=
  match a with Some x => Some (clip x lo hi) | None => None end.

(** The entries that are not NaN, in order. *)
Definition nonnull (s : Series) : list Q := omap id s.

Fixpoint insert_sorted (x : Q) (l : list Q) : list Q :=
  match l with
  | [] => [x]
  | y :: l' => if Qle_bool x y then x :: l else y :: insert_sorted x l'
  end.

Definition sort (l : list Q) : list Q := fold_right insert_sorted [] l.

(** [np.nanpercentile(a, q)] with numpy's default linear interpolation:
    NaN entries are dropped; of an empty rest the result is NaN;
    otherwise, with the rest sorted as [a_0 <= ... <= a_(n-1)], the
    value at the virtual index [(n-1) * q / 100] interpolated between
    its two neighbours. *)
Definition nanpercentile (a : Series) (q : Q) : option Q :=
  match sort (nonnull a) with
  | [] => None
  | (a0 :: _) as sorted =>
      let n := length sorted in
      let pos := inject_Z (Z.of_nat n - 1) * q / 100 in
      let lo := Z.to_nat (Qfloor pos) in
      let hi := Nat.min (S lo) (n - 1) in
      let gamma := pos - inject_Z (Qfloor pos) in
      let a_lo := nth lo sorted a0 in
      let a_hi := nth hi sorted a0 in
      Some (a_lo + (a_hi - a_lo) * gamma)
  end.

(** [1e-9] *)
Definition epsilon : Q := 0.000000001.

(** [Series.sum()], or the sum of a group: NaN entries are skipped. *)
Definition nansum (s : Series) : Q := fold_right Qplus 0 (nonnull s).

(** [Series.clip(lower=lo)] on one entry. *)
Definition fclip_lower (a : option Q) (lo : Q) : option Q :=
  match a with Some x => Some (Qmax x lo) | None => None end.

(** [Series.fillna(b)] on one entry. *)
Definition fillna (a : option Q) (b : Q) : option Q :=
  match a with Some x => Some x | None => Some b end.

(** [np.nanmedian(a)]: NaN entries are dropped; of an empty rest the
    result is NaN; otherwise, with the rest sorted, its middle entry, or
    the mean of its two middle entries when their number is even. *)
Definition nanmedian (a : Series) : option Q :=
  match sort (nonnull a) with
  | [] => None
  | (a0 :: _) as sorted =>
      let n := length sorted in
      let index := (n / 2)%nat in
      if Nat.even n
      then Some ((nth (index - 1) sorted a0 + nth index sorted a0) / 2)
      else Some (nth index sorted a0)
  end.

End numeric.

(** ** The median band

    The labelling that [label_green_share], [label_playgrounds_density]
    and the two district aggregations each spell out: [lab] with
    [lower = med - w] and [upper = med + w]. *)

Module bands.
Import numeric.

Definition band_label (med : option Q) (w : Q) (v : option Q) : string :=
  match v with
  | None => "average"
  | Some _ =>
      if flt v (fsub med (Some w)) then "below average"
      else if fgt v (fadd med (Some w)) then "above average"
      else "average"
  end.

End bands.

(** ** pandas tables *)

Module pandas.
Import numeric.

(** A cell of a key column: null, an integer or a string. *)
Inductive ident :=
| IdNaN
| IdInt (z : Z)
| IdStr (s : string).

#[global] Instance ident_eq_dec : EqDecision ident.
Proof. solve_decision. Defined.

(** A key cell that is a number or null.  A key column of such cells has
    a numeric dtype; [merge] joins two such columns, and raises a
    [ValueError] for a column of strings against a column of numbers. *)
Definition is_number (k : ident) : bool :=
  match k with
  | IdStr _ => false
  | _ => true
  end.

#[global] Instance pyobj_eq_dec : EqDecision text.pyobj.
Proof. solve_decision. Defined.

Inductive exn :=
| ValueError (msg : string)
| KeyError (msg : string).

Definition message (e : exn) : string :=
  match e with
  | ValueError m => m
  | KeyError m => m
  end.

(** A call either raises or returns. *)
Definition result (A : Type) : Type := exn + A.
Definition raise {A : Type} (e : exn) : result A := inl e.
Definition ret {A : Type} (a : A) : result A := inr a.

Notation "'try' x '<-' e 'in' k" :=
  (match e with inl err => inl err | inr x => k end)
  (at level 10, x name, e at level 200, k at level 200).

(** A table: the names of its columns and its rows.  The row type [R] is a
    record of the cells a function reads; the field of a column that is
    not among [columns] is never read. *)
Record Frame (R : Type) := mkFrame { columns : list string; rows : list R }.
Arguments mkFrame {R} _ _.
Arguments columns {R} _.
Arguments rows {R} _.

Definition has_column {R : Type} (df : Frame R) (c : string) : bool :=
  bool_decide (c ∈ columns df).

(** [set(req).issubset(cols)] *)
Definition issubset (req cols : list string) : bool :=
  forallb (fun c => bool_decide (c ∈ cols)) req.

(** [left.merge(right, on=key, how="left")]: the rows of [left] in order,
    each paired with every row of [right] of the same key, or with nulls
    when there is none.  The two key columns are of one dtype here: for
    a column of strings against a column of numbers pandas raises a
    [ValueError] instead (see [is_number]). *)
Definition merge_left {L R K : Type} `{EqDecision K}
    (keyL : L -> K) (keyR : R -> K) (left : list L) (right : list R)
  : list (L * option R) :=
  flat_map
    (fun l =>
       match List.filter (fun r => bool_decide (keyL l = keyR r)) right with
       | [] => [(l, None)]
       | ms => map (fun r => (l, Some r)) ms
       end)
    left.

(** The first row of [right] with the key [k], if any. *)
Definition match_of {R K : Type} `{EqDecision K} (keyR : R -> K)
    (right : list R) (k : K) : option R :=
  List.find (fun r => bool_decide (k = keyR r)) right.

(** [rows.groupby(key, dropna=False)]: one group per distinct key, null
    keys included.  pandas orders the groups by key; here they come in
    order of first appearance, and the statements about grouped tables
    say which rows there are, not in which order. *)
Definition groupby {R K : Type} `{EqDecision K} (key : R -> K) (rs : list R)
  : list (K * list R) :=
  map (fun k => (k, List.filter (fun r => bool_decide (key r = k)) rs))
      (remove_dups (map key rs)).

End pandas.

(** ** berlin_labels/geo.py *)

Module geo.
Import numeric pandas.
Open Scope Q_scope.

(** What geopandas and shapely provide: geometries, points, the area of a
    geometry in km² after projection to EPSG:25833, and the [within]
    predicate of the spatial join. *)
Class GeoLib := {
  Geometry : Type;
  Point : Type;
  planar_area_km2 : Geometry -> Q;
  within : Point -> Geometry -> bool
}.

(** [c.lower()] of a column name. *)
Definition lower_name (c : string) : string :=
  pystr.to_string (pystr.lower (pystr.of_string c)).

Definition lat_names : list string := ["lat"; "latitude"; "y"].
Definition lon_names : list string := ["lon"; "lng"; "long"; "longitude"; "x"].

(** [_infer_lat_lon_columns] on the column names of [df]. *)
Definition _infer_lat_lon_columns (columns : list string) : option (string * string) :=
  let cand_lats := List.filter (fun c => bool_decide (lower_name c ∈ lat_names)) columns in
  let cand_lons := List.filter (fun c => bool_decide (lower_name c ∈ lon_names)) columns in
  match cand_lats, cand_lons with
  | lat :: _, lon :: _ => Some (lat, lon)
  | _, _ => None
  end.

(** The columns of the polygons that the theme tables are merged with:
    the two key cells and the two areas. *)
Record NeiArea := mkNeiArea {
  na_district_id : ident;
  na_neighborhood_canon : string;
  na_area_km2 : option Q;
  na_area_eff_km2 : option Q
}.

Section with_geolib.
Context `{GeoLib}.

(** A row of the neighbourhood polygons [gdf_nei]. *)
Record NeiRow := mkNeiRow {
  district_id : ident;
  district : ident;
  neighborhood_id : ident;
  neighborhood : text.pyobj;
  neighborhood_canon : string;
  area_km2 : option Q;
  area_eff_km2 : option Q;
  geometry : Geometry
}.

Definition set_area_km2 (r : NeiRow) (a : option Q) : NeiRow :=
  mkNeiRow (district_id r) (district r) (neighborhood_id r) (neighborhood r)
           (neighborhood_canon r) a (area_eff_km2 r) (geometry r).

Definition set_area_eff_km2 (r : NeiRow) (a : option Q) : NeiRow :=
  mkNeiRow (district_id r) (district r) (neighborhood_id r) (neighborhood r)
           (neighborhood_canon r) (area_km2 r) a (geometry r).

Definition set_neighborhood_canon (r : NeiRow) (c : string) : NeiRow :=
  mkNeiRow (district_id r) (district r) (neighborhood_id r) (neighborhood r)
           c (area_km2 r) (area_eff_km2 r) (geometry r).

(** Adding a column that may exist already. *)
Definition add_column (cols : list string) (c : string) : list string :=
  if bool_decide (c ∈ cols) then cols else (cols ++ [c])%list.

(** Reprojection changes coordinates, not the table. *)
Definition ensure_wgs84 (gdf : Frame NeiRow) : Frame NeiRow := gdf.

Definition compute_area_km2 (gdf : Frame NeiRow) : Frame NeiRow :=
  let has := has_column gdf "area_km2" in
  let g :=
    if negb has || existsb (fun r => bool_decide (area_km2 r = None)) (rows gdf)
    then
      let areas (r : NeiRow) := planar_area_km2 (geometry r) in
      if has
      then mkFrame (columns gdf)
                   (map (fun r => set_area_km2 r (fillna (area_km2 r) (areas r))) (rows gdf))
      else mkFrame (add_column (columns gdf) "area_km2")
                   (map (fun r => set_area_km2 r (Some (areas r))) (rows gdf))
    else gdf in
  mkFrame (add_column (columns g) "area_eff_km2")
          (map (fun r => set_area_eff_km2 r (fclip_lower (area_km2 r) 0.20)) (rows g)).

(** A table of points: whether a geometry column or a pair of latitude and
    longitude columns was found, and the points built from them. *)
Record PointTable := mkPointTable { located : bool; points : list Point }.

Definition to_points_gdf (df : PointTable) : result (list Point) :=
  if located df then ret (points df)
  else raise (ValueError "Cannot infer lat/lon columns; expected 'lat'/'lon' or geometry column").

(** [gpd.sjoin(pts, polys, how="inner", predicate="within")]: every point
    with the index of each polygon it lies within. *)
Definition points_within (polygons : list (nat * Geometry)) (pts : list Point)
  : list (Point * nat) :=
  flat_map
    (fun p => map (fun ig => (p, fst ig))
                  (List.filter (fun ig => within p (snd ig)) polygons))
    pts.

(** [gdf[["district_id", "neighborhood_canon", "area_km2"]]] and the same
    selection with [area_eff_km2], row by row. *)
Definition area_keys (r : NeiRow) : NeiArea :=
  mkNeiArea (district_id r) (neighborhood_canon r) (area_km2 r) (area_eff_km2 r).

End with_geolib.
End geo.

(** ** berlin_labels/labels_mobility.py *)

Module labels_mobility.
Import numeric pandas geo.
Open Scope Q_scope.

Definition lo_default : Q := 10.
Definition hi_default : Q := 90.

Definition percentile_score (series : Series) (lo hi : Q) : Series :=
  let s := series in
  let p_lo := nanpercentile s lo in
  let p_hi := nanpercentile s hi in
  let rng := py_max (fsub p_hi p_lo) (Some epsilon) in
  let scaled := map (fun v => fdiv (fsub v p_lo) rng) s in
  map (fun x => fmul (fclip x 0 1) (Some 100)) scaled.

(** [labels] is the triple [(labels[0], labels[1], labels[2])]. *)
Definition tercile_labels (values : Series) (labels : string * string * string)
  : list string :=
  let '(l0, l1, l2) := labels in
  let q1 := nanpercentile values 33.333 in
  let q2 := nanpercentile values 66.666 in
  let lab (v : option Q) : string :=
    match v with
    | None => l1
    | Some _ =>
        if fle v q1 then l2
        else if fge v q2 then l0
        else l1
    end in
  map lab values.

Definition mobility_labels : string * string * string :=
  ("well-connected", "moderate", "remote").

(** A row of the table [compute_mobility_labels] returns. *)
Record MobilityRow := mkMobilityRow {
  m_district_id : ident;
  m_neighborhood_id : ident;
  m_neighborhood : text.pyobj;
  m_neighborhood_canon : string;
  ubahn_stations : Z;
  bus_tram_stops : Z;
  total_stops : Z;
  connectivity_density : option Q;
  mobility_score : option Q;
  mobility_label : string
}.

Section with_geolib.
Context `{GeoLib}.

(** [pts.groupby(col).size()]: the polygon indices that occur among the
    joined points, each with its number of points. *)
Definition count_by_polygon (pts : list (Point * nat)) : list (nat * nat) :=
  map (fun kg => (fst kg, length (snd kg))) (groupby snd pts).

(** [fillna(0).astype(int)] on a count that a left merge may have left
    null. *)
Definition fillna0_int (c : option (nat * nat)) : Z :=
  match c with
  | Some (_, n) => Z.of_nat n
  | None => 0%Z
  end.

(** The polygons as the join sees them, each with its index. *)
Definition indexed_polygons (rs : list NeiRow) : list (nat * Geometry) :=
  map (fun ir => (fst ir, geometry (snd ir))) (imap (fun i r => (i, r)) rs).

(** The table [out] before the score and the label are added: for each
    polygon its row, the two counts and the weighted density. *)
Definition mobility_counts (gdf_nei : Frame NeiRow) (g_ubahn g_bus : list Point)
  : list (NeiRow * Z * Z * option Q) :=
  let base_polys := imap (fun i r => (i, r)) (rows gdf_nei) in
  let polys := map (fun ir => (fst ir, geometry (snd ir))) base_polys in
  let pts_ubahn := points_within polys g_ubahn in
  let pts_bus := points_within polys g_bus in
  let cnt_ubahn := count_by_polygon pts_ubahn in
  let cnt_bus := count_by_polygon pts_bus in
  let base :=
    merge_left (fun x => fst (fst x)) fst
      (merge_left fst fst base_polys cnt_ubahn) cnt_bus in
  map (fun x =>
         let '((_, r), cu, cb) := x in
         let u := fillna0_int cu in
         let b := fillna0_int cb in
         (r, u, b,
          fdiv (Some (0.7 * inject_Z u + 0.3 * inject_Z b)) (area_eff_km2 r)))
      base.

Definition compute_mobility_labels
    (gdf_nei : Frame NeiRow) (df_ubahn df_bus_tram : PointTable)
  : result (list MobilityRow) :=
  if negb (issubset ["district_id"; "neighborhood_id"; "neighborhood"]
                    (columns gdf_nei))
  then raise (ValueError "gdf_nei must include district_id, neighborhood_id, neighborhood")
  else
    let gdf_nei := ensure_wgs84 gdf_nei in
    let gdf_nei := compute_area_km2 gdf_nei in
    try g_ubahn <- to_points_gdf df_ubahn in
    try g_bus <- to_points_gdf df_bus_tram in
    let out := mobility_counts gdf_nei g_ubahn g_bus in
    let density := map snd out in
    let score := percentile_score density lo_default hi_default in
    let label := tercile_labels score mobility_labels in
    ret (zip_with
           (fun x sl =>
              let '(r, u, b, d) := x in
              mkMobilityRow (district_id r) (neighborhood_id r) (neighborhood r)
                            (text.canon_nh (neighborhood r))
                            u b (u + b)%Z d (fst sl) (snd sl))
           out (zip score label)).

End with_geolib.
End labels_mobility.

(** ** berlin_labels/labels_parks.py *)

Module labels_parks.
Import numeric pandas.
Open Scope Q_scope.

(** The cells of [df_parks] that the builder reads. *)
Record ParkRow := mkParkRow {
  p_district_id : ident;
  p_neighborhood : text.pyobj;
  size_sqm : option Q
}.

Record ParksAgg := mkParksAgg {
  pa_district_id : ident;
  pa_neighborhood_canon : string;
  green_area_km2 : Q
}.

Definition required : gset string := {[ "district_id"; "neighborhood"; "size_sqm" ]}.

Definition compute_parks_labels (df_parks : Frame ParkRow) : result (list ParksAgg) :=
  let missing := required ∖ list_to_set (columns df_parks) in
  if negb (bool_decide (missing = ∅))
  then raise (ValueError ("df_parks missing columns: " ++ pystr.repr_set missing))
  else
    let parks :=
      map (fun r => (p_district_id r, text.canon_nh (p_neighborhood r),
                     fdiv (size_sqm r) (Some 1000000)))
          (rows df_parks) in
    ret (map (fun kg => mkParksAgg (fst (fst kg)) (snd (fst kg))
                                   (nansum (map snd (snd kg))))
             (groupby fst parks)).

(** The cells of [df_with_area]: the keys, and the two columns that
    [label_green_share] reads. *)
Record GreenRow := mkGreenRow {
  gr_district_id : ident;
  gr_neighborhood_canon : string;
  gr_green_area_km2 : option Q;
  gr_area_km2 : option Q
}.

(** A row of the result: the row of [df_with_area] and the two new
    columns. *)
Record GreenShareRow := mkGreenShareRow {
  gs_row : GreenRow;
  green_share : option Q;
  green_share_label : string
}.

Definition label_green_share (df_with_area : Frame GreenRow)
  : result (list GreenShareRow) :=
  if negb (has_column df_with_area "green_area_km2")
     || negb (has_column df_with_area "area_km2")
  then raise (ValueError "df_with_area must include green_area_km2 and area_km2")
  else
    let df := rows df_with_area in
    let share := map (fun r => fdiv (gr_green_area_km2 r) (gr_area_km2 r)) df in
    let med := match df with [] => None | _ => nanmedian share end in
    let lower := fsub med (Some 0.03) in
    let upper := fadd med (Some 0.03) in
    let lab (v : option Q) : string :=
      match v with
      | None => "average"
      | Some _ =>
          if flt v lower then "below average"
          else if fgt v upper then "above average"
          else "average"
      end in
    ret (zip_with (fun r v => mkGreenShareRow r v (lab v)) df share).

End labels_parks.

(** ** berlin_labels/labels_playgrounds.py *)

Module labels_playgrounds.
Import numeric pandas.

Record PlaygroundRow := mkPlaygroundRow {
  g_district_id : ident;
  g_neighborhood : text.pyobj;
  green_area_type : text.pyobj
}.

Record PlaygroundsAgg := mkPlaygroundsAgg {
  ga_district_id : ident;
  ga_neighborhood_canon : string;
  n_playgrounds : nat
}.

Definition required : gset string :=
  {[ "district_id"; "neighborhood"; "green_area_type" ]}.

(** [astype(str).str.lower().str.contains("spielplatz", na=False)] *)
Definition is_playground (v : text.pyobj) : bool :=
  pystr.contains (pystr.of_string "spielplatz")
                 (pystr.lower (pystr.of_string (text.py_str v))).

Definition compute_playgrounds_labels (df_playgrounds : Frame PlaygroundRow)
  : result (list PlaygroundsAgg) :=
  let missing := required ∖ list_to_set (columns df_playgrounds) in
  if negb (bool_decide (missing = ∅))
  then raise (ValueError ("df_playgrounds missing columns: " ++ pystr.repr_set missing))
  else
    let df :=
      map (fun r => (g_district_id r, text.canon_nh (g_neighborhood r),
                     green_area_type r))
          (rows df_playgrounds) in
    let play := List.filter (fun x => is_playground (snd x)) df in
    (* groupby without dropna=False: rows with a null key are dropped *)
    let keyed := List.filter (fun x => negb (bool_decide (fst (fst x) = IdNaN))) play in
    ret (map (fun kg => mkPlaygroundsAgg (fst (fst kg)) (snd (fst kg))
                                         (length (snd kg)))
             (groupby fst keyed)).

(** The cells of [df_with_area]: the keys, and the two columns that
    [label_playgrounds_density] reads. *)
Record PlayRow := mkPlayRow {
  pr_district_id : ident;
  pr_neighborhood_canon : string;
  pr_n_playgrounds : option Q;
  pr_area_eff_km2 : option Q
}.

Record PlayDensityRow := mkPlayDensityRow {
  pd_row : PlayRow;
  playgrounds_per_km2 : option Q;
  playgrounds_density_label : string
}.

Definition label_playgrounds_density (df_with_area : Frame PlayRow)
  : result (list PlayDensityRow) :=
  if negb (has_column df_with_area "n_playgrounds")
     || negb (has_column df_with_area "area_eff_km2")
  then raise (ValueError "df_with_area must include n_playgrounds and area_eff_km2")
  else
    let df := rows df_with_area in
    let per_km2 := map (fun r => fdiv (pr_n_playgrounds r) (pr_area_eff_km2 r)) df in
    let med := match df with [] => None | _ => nanmedian per_km2 end in
    let lower := fsub med (Some 0.30%Q) in
    let upper := fadd med (Some 0.30%Q) in
    let lab (v : option Q) : string :=
      match v with
      | None => "average"
      | Some _ =>
          if flt v lower then "below average"
          else if fgt v upper then "above average"
          else "average"
      end in
    ret (zip_with (fun r v => mkPlayDensityRow r v (lab v)) df per_km2).

End labels_playgrounds.

(** ** berlin_labels/labels_venues.py *)

Module labels_venues.
Import numeric pandas.
Open Scope Q_scope.

Definition percentile_score (series : Series) (lo hi : Q) : Series :=
  let s := series in
  let p_lo := nanpercentile s lo in
  let p_hi := nanpercentile s hi in
  let rng := py_max (fsub p_hi p_lo) (Some epsilon) in
  let scaled := map (fun v => fdiv (fsub v p_lo) rng) s in
  map (fun x => fmul (fclip x 0 1) (Some 100)) scaled.

Definition tercile_labels (values : Series) (labels : string * string * string)
  : list string :=
  let '(l0, l1, l2) := labels in
  let q1 := nanpercentile values 33.333 in
  let q2 := nanpercentile values 66.666 in
  let lab (v : option Q) : string :=
    match v with
    | None => l1
    | Some _ =>
        if fle v q1 then l2
        else if fge v q2 then l0
        else l1
    end in
  map lab values.

Record VenueRow := mkVenueRow {
  v_district_id : ident;
  v_neighborhood : text.pyobj;
  cuisine : text.cuisines_arg
}.

Record VenuesFeatures := mkVenuesFeatures {
  vf_district_id : ident;
  vf_neighborhood_canon : string;
  n_venues : nat;
  n_cuisine_types : nat
}.

Definition required : gset string := {[ "district_id"; "neighborhood"; "cuisine" ]}.

Definition compute_venues_features (df_venues : Frame VenueRow)
  : result (list VenuesFeatures) :=
  let missing := required ∖ list_to_set (columns df_venues) in
  if negb (bool_decide (missing = ∅))
  then raise (ValueError ("df_venues missing columns: " ++ pystr.repr_set missing))
  else
    let df :=
      map (fun r => (v_district_id r, text.canon_nh (v_neighborhood r),
                     text.nationals_set (cuisine r)))
          (rows df_venues) in
    ret (map (fun kg =>
                mkVenuesFeatures (fst (fst kg)) (snd (fst kg))
                                 (length (snd kg))
                                 (size (⋃ (map snd (snd kg)))))
             (groupby fst df)).

(** A row of the table [compute_vibrancy_scores] returns: the row of
    [df_features], the row of [df_nei_area] that the left merge found for
    it, if any, and the new columns. *)
Record VibrancyRow := mkVibrancyRow {
  vb_features : VenuesFeatures;
  vb_area : option geo.NeiArea;
  venues_per_km2 : option Q;
  V_score : option Q;
  C_score : option Q;
  VV_index : option Q;
  vibrancy_eligible : bool;
  vibrancy_label : string
}.

Definition req1 : list string :=
  ["district_id"; "neighborhood_canon"; "n_venues"; "n_cuisine_types"].
Definition req2 : list string :=
  ["district_id"; "neighborhood_canon"; "area_eff_km2"].

Definition vibrancy_labels : string * string * string :=
  ("vibrant", "average", "sparse").

Definition features_key (f : VenuesFeatures) : ident * string :=
  (vf_district_id f, vf_neighborhood_canon f).

Definition area_key (a : geo.NeiArea) : ident * string :=
  (geo.na_district_id a, geo.na_neighborhood_canon a).

Definition compute_vibrancy_scores
    (df_features : Frame VenuesFeatures) (df_nei_area : Frame geo.NeiArea)
  : result (list VibrancyRow) :=
  if negb (issubset req1 (columns df_features))
  then raise (ValueError "df_features missing required columns")
  else if negb (issubset req2 (columns df_nei_area))
  then raise (ValueError "df_nei_area missing required columns")
  else
    let df := merge_left features_key area_key (rows df_features) (rows df_nei_area) in
    let per_km2 :=
      map (fun x => fdiv (Some (inject_Z (Z.of_nat (n_venues (fst x)))))
                         (snd x ≫= geo.na_area_eff_km2))
          df in
    let V := percentile_score per_km2 10 90 in
    let C :=
      percentile_score
        (map (fun x => Some (inject_Z (Z.of_nat (n_cuisine_types (fst x))))) df)
        10 90 in
    let VV := zip_with (fun v c => fadd (fmul (Some 0.65) v) (fmul (Some 0.35) c)) V C in
    let label := tercile_labels VV vibrancy_labels in
    ret (zip_with
           (fun xd sl =>
              let '(x, d) := xd in
              let '(v, c, vv, l) := sl in
              mkVibrancyRow (fst x) (snd x) d v c vv
                ((10 <=? n_venues (fst x))%nat && fge d (Some 2)) l)
           (zip df per_km2) (zip (zip (zip V C) VV) label)).

End labels_venues.

(** ** berlin_labels/aggregate.py *)

Module aggregate.
Import numeric pandas geo.
Open Scope Q_scope.

(** A row of the table [_sum_area] returns.  The two area cells are sums
    over a group, hence never null. *)
Record AreaRow := mkAreaRow {
  a_district_id : ident;
  a_district : ident;
  a_area_km2 : Q;
  a_area_eff_km2 : Q
}.

(** The cells of [nei_labels] that the aggregation reads. *)
Record NeiLabelRow := mkNeiLabelRow {
  l_district_id : ident;
  l_neighborhood_id : ident;
  l_ubahn_stations : option Q;
  l_bus_tram_stops : option Q;
  l_total_stops : option Q
}.

Record DistrictMobilityRow := mkDistrictMobilityRow {
  d_district_id : ident;
  d_ubahn_stations : Q;
  d_bus_tram_stops : Q;
  d_total_stops : Q;
  d_area : option AreaRow;
  d_connectivity_density : option Q;
  d_mobility_score : option Q;
  d_mobility_label : string
}.

Section with_geolib.
Context `{GeoLib}.

(** The polygons of a district, and the rows of [nei_labels] of a
    district. *)
Definition polygons_of (rs : list NeiRow) (k : ident) : list NeiRow :=
  List.filter (fun r => bool_decide (district_id r = k)) rs.


(** The district name is determined by the district id. *)
Definition district_by_id (gdf : Frame NeiRow) : Prop :=
  forall r r', r ∈ rows gdf -> r' ∈ rows gdf ->
               district_id r = district_id r' -> district r = district r'.

(** [[c for c in wanted if c in cols]] *)
Definition present (wanted cols : list string) : list string :=
  List.filter (fun c => bool_decide (c ∈ cols)) wanted.

Definition _sum_area (df_nei : Frame NeiRow) : result (Frame AreaRow) :=
  let cols := present ["district_id"; "district"; "area_km2"; "area_eff_km2"]
                      (columns df_nei) in
  let keys := present ["district_id"; "district"] cols in
  match keys with
  | [] => raise (ValueError "No group keys passed!")
  | _ =>
      let has c := bool_decide (c ∈ cols) in
      let key (r : NeiRow) :=
        (if has "district_id" then district_id r else IdNaN,
         if has "district" then district r else IdNaN) in
      let grp :=
        map (fun kg =>
               let g := snd kg in
               let sum_area := nansum (map area_km2 g) in
               mkAreaRow (fst (fst kg)) (snd (fst kg)) sum_area
                 (if has "area_eff_km2" then nansum (map area_eff_km2 g)
                  else Qmax sum_area 0.20))
            (groupby key (rows df_nei)) in
      let grp_cols := (keys ++ present ["area_km2"; "area_eff_km2"] cols)%list in
      let grp_cols :=
        if negb (bool_decide ("area_eff_km2" ∈ grp_cols))
           && bool_decide ("area_km2" ∈ grp_cols)
        then (grp_cols ++ ["area_eff_km2"])%list else grp_cols in
      ret (mkFrame grp_cols grp)
  end.

Definition req : list string :=
  ["district_id"; "neighborhood_id"; "ubahn_stations"; "bus_tram_stops"].

(** The table [out] before the score and the label are added.  The
    density is a plain float division: by an area of 0 it is infinite or
    NaN in Python, which the rationals of the model do not represent;
    the statements about this function are for summed areas other than
    0. *)
Definition district_counts (nei_labels : Frame NeiLabelRow) (area : Frame AreaRow)
  : list (ident * Q * Q * Q * option AreaRow * option Q) :=
  let counts :=
    map (fun kg =>
           let g := snd kg in
           (fst kg, nansum (map l_ubahn_stations g),
            nansum (map l_bus_tram_stops g), nansum (map l_total_stops g)))
        (groupby l_district_id (rows nei_labels)) in
  map (fun x =>
         let '((k, u, b, t), a) := x in
         (k, u, b, t, a,
          fdiv (Some (0.7 * u + 0.3 * b)) (option_map a_area_eff_km2 a)))
      (merge_left (fun c => fst (fst (fst c))) a_district_id counts (rows area)).

Definition aggregate_mobility_to_district
    (nei_labels : Frame NeiLabelRow) (gdf_nei : Frame NeiRow)
  : result (list DistrictMobilityRow) :=
  if negb (issubset req (columns nei_labels))
  then raise (ValueError "nei_labels missing required mobility columns")
  else if negb (has_column nei_labels "total_stops")
  then raise (KeyError "Columns not found: 'total_stops'")
  else
    try area <- _sum_area gdf_nei in
    if negb (has_column area "district_id")
    then raise (KeyError "'district_id'")
    else if negb (has_column area "area_eff_km2")
    then raise (KeyError "'area_eff_km2'")
    else
      let out := district_counts nei_labels area in
      let density := map snd out in
      let score :=
        labels_mobility.percentile_score density
          labels_mobility.lo_default labels_mobility.hi_default in
      let label := labels_mobility.tercile_labels score labels_mobility.mobility_labels in
      ret (zip_with
             (fun x sl =>
                let '(k, u, b, t, a, d) := x in
                mkDistrictMobilityRow k u b t a d (fst sl) (snd sl))
             out (zip score label)).

(** [df[wanted]]: the table with the wanted columns, or the [KeyError] of
    pandas (in the words of pandas 2) when one of them is missing. *)
Definition repr_list (l : list string) : string :=
  "[" ++ pystr.join ", " (map pystr.repr_str l) ++ "]".

Definition select_columns {R : Type} (df : Frame R) (wanted : list string)
  : result (Frame R) :=
  match List.filter (fun c => negb (has_column df c)) wanted with
  | [] => ret (mkFrame wanted (rows df))
  | missing =>
      if bool_decide (missing = wanted)
      then raise (KeyError ("None of [Index(" ++ repr_list wanted
                            ++ ", dtype='object')] are in the [columns]"))
      else raise (KeyError (repr_list missing ++ " not in index"))
  end.

(** The cells of [parks_nei] and of [play_nei] that the aggregations
    read. *)
Record ParksNeiRow := mkParksNeiRow {
  pn_district_id : ident;
  pn_green_area_km2 : option Q
}.

Record PlayNeiRow := mkPlayNeiRow {
  yn_district_id : ident;
  yn_n_playgrounds : option Q
}.

(** A row of the district tables: the key, the sum over the district, the
    area that the left merge found, the ratio and its label. *)
Record DistrictParksRow := mkDistrictParksRow {
  dp_district_id : ident;
  dp_green_area_km2 : Q;
  dp_area_km2 : option Q;
  dp_green_share : option Q;
  dp_green_share_label : string
}.

Record DistrictPlayRow := mkDistrictPlayRow {
  dy_district_id : ident;
  dy_n_playgrounds : Q;
  dy_area_eff_km2 : option Q;
  dy_playgrounds_per_km2 : option Q;
  dy_playgrounds_density_label : string
}.

Definition aggregate_parks_to_district
    (parks_nei : Frame ParksNeiRow) (gdf_nei : Frame NeiRow)
  : result (list DistrictParksRow) :=
  if negb (issubset ["district_id"; "green_area_km2"] (columns parks_nei))
  then raise (ValueError "parks_nei missing required columns")
  else
    let agg :=
      map (fun kg => (fst kg, nansum (map pn_green_area_km2 (snd kg))))
          (groupby pn_district_id (rows parks_nei)) in
    try grp <- _sum_area gdf_nei in
    try area <- select_columns grp ["district_id"; "area_km2"] in
    let out := merge_left fst a_district_id agg (rows area) in
    let share :=
      map (fun x => fdiv (Some (snd (fst x))) (option_map a_area_km2 (snd x))) out in
    let med := match out with [] => None | _ => nanmedian share end in
    let lower := fsub med (Some 0.03) in
    let upper := fadd med (Some 0.03) in
    let lab (v : option Q) : string :=
      match v with
      | None => "average"
      | Some _ =>
          if flt v lower then "below average"
          else if fgt v upper then "above average"
          else "average"
      end in
    ret (zip_with
           (fun x v =>
              mkDistrictParksRow (fst (fst x)) (snd (fst x))
                                 (option_map a_area_km2 (snd x)) v (lab v))
           out share).

Definition aggregate_playgrounds_to_district
    (play_nei : Frame PlayNeiRow) (gdf_nei : Frame NeiRow)
  : result (list DistrictPlayRow) :=
  if negb (issubset ["district_id"; "n_playgrounds"] (columns play_nei))
  then raise (ValueError "play_nei missing required columns")
  else
    let agg :=
      map (fun kg => (fst kg, nansum (map yn_n_playgrounds (snd kg))))
          (groupby yn_district_id (rows play_nei)) in
    try grp <- _sum_area gdf_nei in
    try area <- select_columns grp ["district_id"; "area_eff_km2"] in
    let out := merge_left fst a_district_id agg (rows area) in
    let per_km2 :=
      map (fun x => fdiv (Some (snd (fst x))) (option_map a_area_eff_km2 (snd x))) out in
    let med := match out with [] => None | _ => nanmedian per_km2 end in
    let lower := fsub med (Some 0.30) in
    let upper := fadd med (Some 0.30) in
    let lab (v : option Q) : string :=
      match v with
      | None => "average"
      | Some _ =>
          if flt v lower then "below average"
          else if fgt v upper then "above average"
          else "average"
      end in
    ret (zip_with
           (fun x v =>
              mkDistrictPlayRow (fst (fst x)) (snd (fst x))
                                (option_map a_area_eff_km2 (snd x)) v (lab v))
           out per_km2).




End with_geolib.
End aggregate.

(** ** berlin_labels/pipeline.py: the merge step of [run_all_preprocessing] *)

Module pipeline.
Import numeric pandas geo labels_mobility.
Open Scope Q_scope.

Record BaseRow := mkBaseRow {
  b_district_id : ident;
  b_district : ident;
  b_neighborhood_id : ident;
  b_neighborhood : text.pyobj;
  b_neighborhood_canon : string;
  b_area_km2 : option Q
}.

(** The rows of [parks], [plays], [venF] and [venV] as the merge selects
    them: the two key cells and the theme's columns. *)
Record ParksRow := mkParksRow {
  pk_district_id : ident;
  pk_neighborhood_canon : string;
  pk_green_area_km2 : option Q;
  pk_green_share : option Q;
  pk_green_share_label : string
}.

Record PlaysRow := mkPlaysRow {
  pl_district_id : ident;
  pl_neighborhood_canon : string;
  pl_n_playgrounds : option Q;
  pl_playgrounds_per_km2 : option Q;
  pl_playgrounds_density_label : string
}.

Record VenVRow := mkVenVRow {
  vv_district_id : ident;
  vv_neighborhood_canon : string;
  vv_venues_per_km2 : option Q;
  vv_n_cuisine_types : option Q;
  vv_V_score : option Q;
  vv_C_score : option Q;
  vv_VV_index : option Q;
  vv_vibrancy_label : string
}.

Definition key2 : Type := ident * string.
Definition key4 : Type := ident * ident * text.pyobj * string.

Section with_geolib.
Context `{GeoLib}.

(** [base]: six columns of the polygons, [district] standing in as
    [district_id] when the polygons have no such column. *)
Definition base_of (gdf_nei : Frame NeiRow) : list BaseRow :=
  map (fun r =>
         mkBaseRow (district_id r)
                   (if has_column gdf_nei "district" then district r else district_id r)
                   (neighborhood_id r) (neighborhood r) (neighborhood_canon r)
                   (area_km2 r))
      (rows gdf_nei).

End with_geolib.

Definition base_key2 (b : BaseRow) : key2 := (b_district_id b, b_neighborhood_canon b).
Definition base_key4 (b : BaseRow) : key4 :=
  (b_district_id b, b_neighborhood_id b, b_neighborhood b, b_neighborhood_canon b).
Definition mob_key4 (m : MobilityRow) : key4 :=
  (m_district_id m, m_neighborhood_id m, m_neighborhood m, m_neighborhood_canon m).
Definition parks_key2 (p : ParksRow) : key2 := (pk_district_id p, pk_neighborhood_canon p).
Definition plays_key2 (p : PlaysRow) : key2 := (pl_district_id p, pl_neighborhood_canon p).
Definition venF_key2 (v : labels_venues.VenuesFeatures) : key2 :=
  (labels_venues.vf_district_id v, labels_venues.vf_neighborhood_canon v).
Definition venV_key2 (v : VenVRow) : key2 := (vv_district_id v, vv_neighborhood_canon v).

(** A row of [minimal]: the base row and, per theme, its columns or nulls. *)
Definition MinimalRow : Type :=
  BaseRow * option MobilityRow * option ParksRow * option PlaysRow.

Definition MergedRow : Type :=
  MinimalRow * option labels_venues.VenuesFeatures * option VenVRow.

Definition minimal_base (r : MinimalRow) : BaseRow := fst (fst (fst r)).
Definition merged_base (r : MergedRow) : BaseRow := minimal_base (fst (fst r)).

Definition minimal (base : list BaseRow) (mob : list MobilityRow)
    (parks : list ParksRow) (plays : list PlaysRow) : list MinimalRow :=
  merge_left (fun r => base_key2 (fst (fst r))) plays_key2
    (merge_left (fun r => base_key2 (fst r)) parks_key2
       (merge_left base_key4 mob_key4 base mob)
       parks)
    plays.

Definition merged (base : list BaseRow) (mob : list MobilityRow)
    (parks : list ParksRow) (plays : list PlaysRow)
    (venF : list labels_venues.VenuesFeatures) (venV : list VenVRow)
  : list MergedRow :=
  merge_left (fun r => base_key2 (minimal_base (fst r))) venV_key2
    (merge_left (fun r => base_key2 (minimal_base r)) venF_key2
       (minimal base mob parks plays)
       venF)
    venV.

(** The selections of the merge step: the columns of [parks], [plays] and
    [venV] that the merged tables take. *)
Definition parks_columns (p : labels_parks.GreenShareRow) : ParksRow :=
  let r := labels_parks.gs_row p in
  mkParksRow (labels_parks.gr_district_id r) (labels_parks.gr_neighborhood_canon r)
             (labels_parks.gr_green_area_km2 r)
             (labels_parks.green_share p) (labels_parks.green_share_label p).

Definition plays_columns (p : labels_playgrounds.PlayDensityRow) : PlaysRow :=
  let r := labels_playgrounds.pd_row p in
  mkPlaysRow (labels_playgrounds.pr_district_id r)
             (labels_playgrounds.pr_neighborhood_canon r)
             (labels_playgrounds.pr_n_playgrounds r)
             (labels_playgrounds.playgrounds_per_km2 p)
             (labels_playgrounds.playgrounds_density_label p).

Definition venV_columns (v : labels_venues.VibrancyRow) : VenVRow :=
  let f := labels_venues.vb_features v in
  mkVenVRow (labels_venues.vf_district_id f) (labels_venues.vf_neighborhood_canon f)
            (labels_venues.venues_per_km2 v)
            (Some (inject_Z (Z.of_nat (labels_venues.n_cuisine_types f))))
            (labels_venues.V_score v) (labels_venues.C_score v)
            (labels_venues.VV_index v) (labels_venues.vibrancy_label v).

Section run_all.
Context `{GeoLib}.

(** [run_all_preprocessing] on the tables its loaders return; writing the
    intermediate files is left out.  Its selections of polygon columns
    cannot fail: [compute_mobility_labels] has accepted [district_id] by
    then, and the other columns have just been added.  The cells are
    typed, so the [ValueError] of [astype(float)] on a [size_sqm] that is
    no number has no counterpart here, nor has the one of [merge] for
    district ids that are strings in one table and numbers in the other:
    the statement about the run assumes ids that are numbers or null. *)
Definition run_all_preprocessing
    (neighborhoods : Frame NeiRow) (df_ubahn df_bus : PointTable)
    (parks_raw : Frame labels_parks.ParkRow)
    (plays_raw : Frame labels_playgrounds.PlaygroundRow)
    (venues_raw : Frame labels_venues.VenueRow)
  : result (list MinimalRow * list MergedRow * Frame NeiRow) :=
  let gdf_nei := ensure_wgs84 neighborhoods in
  let gdf_nei := compute_area_km2 gdf_nei in
  if negb (has_column gdf_nei "neighborhood")
  then raise (ValueError "Neighborhood polygons must include 'neighborhood'")
  else
    let gdf_nei :=
      mkFrame (add_column (columns gdf_nei) "neighborhood_canon")
              (map (fun r => set_neighborhood_canon r (text.canon_nh (neighborhood r)))
                   (rows gdf_nei)) in
    try mob <- compute_mobility_labels gdf_nei df_ubahn df_bus in
    let area := map area_keys (rows gdf_nei) in
    try parks_agg <- labels_parks.compute_parks_labels parks_raw in
    let parks :=
      mkFrame ["district_id"; "neighborhood_canon"; "green_area_km2"; "area_km2"]
        (map (fun x =>
                let a := fst x in
                labels_parks.mkGreenRow
                  (labels_parks.pa_district_id a) (labels_parks.pa_neighborhood_canon a)
                  (Some (labels_parks.green_area_km2 a)) (snd x ≫= na_area_km2))
             (merge_left
                (fun a => (labels_parks.pa_district_id a,
                           labels_parks.pa_neighborhood_canon a))
                labels_venues.area_key parks_agg area)) in
    try parks <- labels_parks.label_green_share parks in
    try plays_cnt <- labels_playgrounds.compute_playgrounds_labels plays_raw in
    let plays :=
      mkFrame ["district_id"; "neighborhood_canon"; "n_playgrounds"; "area_eff_km2"]
        (map (fun x =>
                let a := fst x in
                labels_playgrounds.mkPlayRow
                  (labels_playgrounds.ga_district_id a)
                  (labels_playgrounds.ga_neighborhood_canon a)
                  (Some (inject_Z (Z.of_nat (labels_playgrounds.n_playgrounds a))))
                  (snd x ≫= na_area_eff_km2))
             (merge_left
                (fun a => (labels_playgrounds.ga_district_id a,
                           labels_playgrounds.ga_neighborhood_canon a))
                labels_venues.area_key plays_cnt area)) in
    try plays <- labels_playgrounds.label_playgrounds_density plays in
    try venF <- labels_venues.compute_venues_features venues_raw in
    try venV <-
      labels_venues.compute_vibrancy_scores
        (mkFrame ["district_id"; "neighborhood_canon"; "n_venues"; "n_cuisine_types"] venF)
        (mkFrame ["district_id"; "neighborhood_canon"; "area_eff_km2"] area) in
    let base := base_of gdf_nei in
    let parks := map parks_columns parks in
    let plays := map plays_columns plays in
    let venV := map venV_columns venV in
    ret (minimal base mob parks plays,
         merged base mob parks plays venF venV,
         gdf_nei).

End run_all.

(** The readable column labels.  Labels are compared for equality only;
    the readable ones are written in UTF-8. *)
Definition READABLE_RENAMES : list (string * string) :=
  [ ("district_id", "District ID");
    ("district", "District");
    ("neighborhood_id", "Neighborhood ID");
    ("neighborhood", "Neighborhood");
    ("area_km2", "Area (km²)");
    ("ubahn_stations", "U-Bahn stations");
    ("bus_tram_stops", "Bus/Tram stops");
    ("total_stops", "Transit stops total");
    ("connectivity_density", "Transit density (/km²)");
    ("mobility_score", "Mobility score (0–100)");
    ("mobility_label", "Mobility label");
    ("green_area_km2", "Green area (km²)");
    ("green_share", "Green share (0–1)");
    ("green_share_label", "Green label");
    ("n_playgrounds", "Playgrounds");
    ("playgrounds_per_km2", "Playgrounds density (/km²)");
    ("playgrounds_density_label", "Playgrounds label");
    ("n_venues", "Venues");
    ("venues_per_km2", "Venues density (/km²)");
    ("n_cuisine_types", "Cuisine types (national)");
    ("V_score", "V score (0–100)");
    ("C_score", "C score (0–100)");
    ("VV_index", "Vibrancy index (0–100)");
    ("vibrancy_label", "Vibrancy label") ].

(** [READABLE_RENAMES.get(c, c)], which is also what
    [df.rename(columns=READABLE_RENAMES)] makes of the label [c]. *)
Definition readable (c : string) : string :=
  match List.find (fun kv => bool_decide (fst kv = c)) READABLE_RENAMES with
  | Some kv => snd kv
  | None => c
  end.

(** [df[labels]] on the labels of the columns: for each wanted label, in
    order, every column that carries it. *)
Definition select_labels (columns labels : list string) : list string :=
  flat_map (fun l => List.filter (fun c => bool_decide (c = l)) columns) labels.

(** [make_readable_columns] on the column labels of [df]; the cells move
    with their columns. *)
Definition make_readable_columns (columns : list string) : list string :=
  let renamed := map readable columns in
  let cols :=
    List.filter (fun c => bool_decide (c ∈ renamed))
      [ readable "district_id"; readable "district"; readable "neighborhood_id";
        readable "neighborhood"; readable "area_km2" ] in
  let other := List.filter (fun c => negb (bool_decide (c ∈ cols))) renamed in
  select_labels renamed (cols ++ other)%list.

End pipeline.

(** ** app.py: the composite suitability score *)

Module app.
Import numeric.
Open Scope Q_scope.

(** [np.isfinite(s).any()] *)
Definition any_finite (s : Series) : bool :=
  existsb (fun x => bool_decide (x <> None)) s.

Definition percentile_score (series : Series) (lo hi : Q) : Series :=
  let s := series in
  if negb (any_finite s) then map (fun _ => None) series
  else
    let p_lo := nanpercentile s lo in
    let p_hi := nanpercentile s hi in
    let rng := py_max (fsub p_hi p_lo) (Some epsilon) in
    let _s (x : option Q) : option Q :=
      match x with
      | None => None
      | Some _ => fmul (fclip (fdiv (fsub x p_lo) rng) 0 1) (Some 100)
      end in
    map _s s.

Definition compute_component (series : Series) (invert : bool) : Series :=
  let s := series in
  let s := if invert then map fneg s else s in
  percentile_score s 10 90.

(** The table [g]: the number of rows and the numeric columns by name, as
    [pd.to_numeric(..., errors="coerce")] reads them. *)
Record Table := mkTable { nrows : nat; cols : gmap string Series }.

Definition has (g : Table) (c : string) : bool :=
  bool_decide (is_Some (cols g !! c)).

(** [g[col]] *)
Definition column (g : Table) (c : string) : Series := default [] (cols g !! c).

(** The district branch's [feature_map]: per feature the column and
    whether lower is better, or [None]. *)
Definition dist_feature_map (g : Table) : list (string * option (string * bool)) :=
  let entry (c : string) (invert : bool) :=
    if has g c then Some (c, invert) else None in
  [ ("Income", entry "income_value_eur" false);
    ("Safety", entry "crimes_per_1000" true);
    ("Unemployment", entry "unemployment_per_1000" true);
    ("Density", entry "density_per_km2" false);
    ("Diversity", entry "diversity_share" false);
    ("Green share", entry "green_share" false);
    ("Vibrancy",
     if has g "VV_index" then Some ("VV_index", false)
     else entry "venues_per_km2" false);
    ("Mobility",
     if has g "mobility_score" then Some ("mobility_score", false)
     else entry "connectivity_density" false);
    ("Playgrounds density", entry "playgrounds_per_km2" false) ].

(** The features that have a column, each with its map entry. *)
Definition features (fm : list (string * option (string * bool)))
  : list (string * (string * bool)) :=
  omap (fun kv => match snd kv with Some v => Some (fst kv, v) | None => None end) fm.

(** [series * c] *)
Definition scale (s : Series) (c : Q) : Series := map (fun x => fmul x (Some c)) s.

(** [float(weights_raw.get(name, 0))] *)
Definition weight_of (weights_raw : gmap string Z) (name : string) : Q :=
  inject_Z (default 0%Z (weights_raw !! name)).

(** The loop that fills [comp_parts]. *)
Fixpoint comp_parts (g : Table) (weights_raw : gmap string Z)
    (fs : list (string * (string * bool))) : list Series :=
  match fs with
  | [] => []
  | (name, (col, invert)) :: rest =>
      let w := weight_of weights_raw name in
      if Qle_bool w 0 then comp_parts g weights_raw rest
      else scale (compute_component (column g col) invert) (w / 100)
           :: comp_parts g weights_raw rest
  end.

(** [pd.concat(parts, axis=1).sum(axis=1)]: per row the sum of the parts,
    nulls skipped. *)
Definition concat_sum (n : nat) (parts : list Series) : list Q :=
  map (fun i => nansum (map (fun p => nth i p None) parts)) (seq 0 n).

(** The column [suitability] of the district branch. *)
Definition dist_suitability (g : Table) (weights_raw : gmap string Z) : list Q :=
  match comp_parts g weights_raw (features (dist_feature_map g)) with
  | [] => repeat 0 (nrows g)
  | parts => concat_sum (nrows g) parts
  end.

(** The neighbourhood branch: its [feature_map] gives a column per
    feature, no feature is inverted, and each part is
    [percentile_score(g[col]) * (w / 100.0)]. *)
Definition nei_feature_map (g : Table) : list (string * option string) :=
  let entry (c : string) := if has g c then Some c else None in
  [ ("Venues vibrancy",
     if has g "VV_index" then Some "VV_index" else entry "venues_per_km2");
    ("Mobility",
     if has g "mobility_score" then Some "mobility_score"
     else entry "connectivity_density");
    ("Playgrounds density", entry "playgrounds_per_km2");
    ("Green share", entry "green_share") ].

Definition nei_features (fm : list (string * option string)) : list (string * string) :=
  omap (fun kv => match snd kv with Some v => Some (fst kv, v) | None => None end) fm.

Fixpoint nei_comp_parts (g : Table) (weights_raw : gmap string Z)
    (fs : list (string * string)) : list Series :=
  match fs with
  | [] => []
  | (name, col) :: rest =>
      let w := weight_of weights_raw name in
      if Qle_bool w 0 then nei_comp_parts g weights_raw rest
      else scale (percentile_score (column g col) 10 90) (w / 100)
           :: nei_comp_parts g weights_raw rest
  end.

Definition nei_suitability (g : Table) (weights_raw : gmap string Z) : list Q :=
  match nei_comp_parts g weights_raw (nei_features (nei_feature_map g)) with
  | [] => repeat 0 (nrows g)
  | parts => concat_sum (nrows g) parts
  end.

(** The composite as the specification words it: over the features with a
    weight above 0, the sum of the feature's percentile score (of the
    negated column when lower is better; a null score adds nothing) times
    weight/100. *)
Definition contribution (g : Table) (weights_raw : gmap string Z) (i : nat)
    (f : string * (string * bool)) : Q :=
  let '(name, (col, invert)) := f in
  let w := weight_of weights_raw name in
  if Qle_bool w 0 then 0
  else
    let series := if invert then map fneg (column g col) else column g col in
    default 0 (nth i (percentile_score series 10 90) None) * (w / 100).

Definition weighted_sum (g : Table) (weights_raw : gmap string Z) (i : nat) : Q :=
  fold_right Qplus 0
    (map (contribution g weights_raw i) (features (dist_feature_map g))).

Definition nei_weighted_sum (g : Table) (weights_raw : gmap string Z) (i : nat) : Q :=
  fold_right Qplus 0
    (map (fun nc => contribution g weights_raw i (fst nc, (snd nc, false)))
         (nei_features (nei_feature_map g))).

(** [render_map]: the ends [vmin] and [vmax] of the colour scale of the
    column [s]. *)
Definition color_range (s : Series) : option Q * option Q :=
  if existsb (fun x => bool_decide (x <> None)) s
  then
    let p5 := nanpercentile s 5 in
    let p95 := nanpercentile s 95 in
    let p95 := if fle p95 p5 then fadd p5 (Some epsilon) else p95 in
    (p5, p95)
  else (Some 0, Some 1).

End app.

(** ** berlin_labels/viz.py: the colours of the category maps *)

Module viz.

Definition CAT_PALETTE : list (string * string) :=
  [ ("well-connected", "#1a9641");
    ("above average", "#1a9641");
    ("vibrant", "#1a9641");
    ("moderate", "#a6d96a");
    ("average", "#a6d96a");
    ("remote", "#fee08b");
    ("below average", "#fee08b");
    ("sparse", "#fee08b") ].

(** The fill colour that [style_fn] of [make_categorical_map] gives to
    the cell [v]: [CAT_PALETTE.get(str(v).lower(), "#cccccc")]. *)
Definition fill_color (v : text.pyobj) : string :=
  match List.find (fun kv => bool_decide (fst kv = geo.lower_name (text.py_str v)))
                  CAT_PALETTE with
  | Some kv => snd kv
  | None => "#cccccc"
  end.

End viz.

(** ** Sample inputs *)

Module examples.
Import numeric pandas geo.
Open Scope Q_scope.

(** A concrete spatial library: rectangles [(x0, y0, x1, y1)] and points
    on a grid of 100 m, a point being within a rectangle when it is
    strictly inside. *)
Definition grid : GeoLib :=
  {| Geometry := Z * Z * Z * Z;
     Point := Z * Z;
     planar_area_km2 := fun g =>
       let '(x0, y0, x1, y1) := g in inject_Z ((x1 - x0) * (y1 - y0)) / 100;
     within := fun p g =>
       let '(x0, y0, x1, y1) := g in
       let '(x, y) := p in
       ((x0 <? x) && (x <? x1) && (y0 <? y) && (y <? y1))%Z |}.

(** The scenario of the specification: two neighbourhoods of 1 km² in one
    district, the first with two stations and one stop, the second with
    none. *)
Definition two_neighbourhoods : Frame (@NeiRow grid) :=
  mkFrame ["district_id"; "neighborhood_id"; "neighborhood"; "geometry"]
    [ @mkNeiRow grid (IdInt 1) IdNaN (IdInt 101) (text.PyStr "Mitte") EmptyString
        None None (0, 0, 10, 10)%Z;
      @mkNeiRow grid (IdInt 1) IdNaN (IdInt 102) (text.PyStr "Wedding") EmptyString
        None None (10, 0, 20, 10)%Z ].

Definition two_stations : @PointTable grid :=
  @mkPointTable grid true [(5, 5)%Z; (3, 4)%Z].

Definition one_stop : @PointTable grid :=
  @mkPointTable grid true [(2, 2)%Z].

(** Polygons of 1 km² and 3 km² with their areas computed, and the
    mobility rows of the same two neighbourhoods. *)
Definition two_areas : Frame (@NeiRow grid) :=
  mkFrame ["district_id"; "neighborhood_id"; "neighborhood"; "geometry";
           "area_km2"; "area_eff_km2"]
    [ @mkNeiRow grid (IdInt 1) IdNaN (IdInt 101) (text.PyStr "Mitte") EmptyString
        (Some 1) (Some 1) (0, 0, 10, 10)%Z;
      @mkNeiRow grid (IdInt 1) IdNaN (IdInt 102) (text.PyStr "Wedding") EmptyString
        (Some 3) (Some 3) (10, 0, 40, 10)%Z ].

Definition two_label_rows : Frame aggregate.NeiLabelRow :=
  mkFrame ["district_id"; "neighborhood_id"; "ubahn_stations"; "bus_tram_stops";
           "total_stops"]
    [ aggregate.mkNeiLabelRow (IdInt 1) (IdInt 101) (Some 2) (Some 1) (Some 3);
      aggregate.mkNeiLabelRow (IdInt 1) (IdInt 102) (Some 0) (Some 0) (Some 0) ].


(** The same rows in a table without [ubahn_stations]. *)
Definition no_ubahn_column : Frame aggregate.NeiLabelRow :=
  mkFrame ["district_id"; "neighborhood_id"; "bus_tram_stops"; "total_stops"]
    (rows two_label_rows).

(** A parks table without [size_sqm]. *)
Definition no_size_column : Frame labels_parks.ParkRow :=
  mkFrame ["district_id"; "neighborhood"]
    [ labels_parks.mkParkRow (IdInt 1) (text.PyStr "Mitte") None ].

(** The name "Café" (U+00E9 is a letter for [str.isalnum]), the name
    "Köllnische-Heide " and the cuisine string
    "Italian; Pizza; Japanese; Döner; Vietnamese". *)
Definition cafe : string := String "C" (String "a" (String "f" (String "233" EmptyString))).

Definition koellnische_heide : string :=
  String "K" (String text.o_uml "llnische-Heide ").

Definition sample_cuisines : string :=
  "Italian; Pizza; Japanese; D" ++ String text.o_uml "ner; Vietnamese".

(** Two polygons of district 1; only Mitte has mobility and park rows. *)
Definition base2 : list pipeline.BaseRow :=
  [ pipeline.mkBaseRow (IdInt 1) (IdStr "Mitte") (IdInt 101) (text.PyStr "Mitte") "mitte" (Some 10);
    pipeline.mkBaseRow (IdInt 1) (IdStr "Mitte") (IdInt 102) (text.PyStr "Wedding") "wedding" (Some 9) ].

Definition mob2 : list labels_mobility.MobilityRow :=
  [ labels_mobility.mkMobilityRow (IdInt 1) (IdInt 101) (text.PyStr "Mitte") "mitte"
      2 1 3 (Some 0.17) (Some 100) "well-connected" ].

Definition parks2 : list pipeline.ParksRow :=
  [ pipeline.mkParksRow (IdInt 1) "mitte" (Some 1) (Some 0.1) "average" ].

(** Three districts with a green share and a crime rate, one green share
    unknown; Green share weighted 50 and Safety 100. *)
Definition three_districts : app.Table :=
  app.mkTable 3
    (<["green_share" := [Some 0.1; Some 0.5; None]]>
       (<["crimes_per_1000" := [Some 120; Some 80; Some 100]]> ∅)).

Definition two_weights : gmap string Z :=
  <["Green share" := 50%Z]> (<["Safety" := 100%Z]> ∅).

(** Raw theme tables: three parks (two in Mitte, the size of the third
    unknown), three venues, and three green areas of which one is a
    playground with a district. *)
Definition three_parks : Frame labels_parks.ParkRow :=
  mkFrame ["district_id"; "neighborhood"; "size_sqm"]
    [ labels_parks.mkParkRow (IdInt 1) (text.PyStr "Mitte") (Some 500000);
      labels_parks.mkParkRow (IdInt 1) (text.PyStr "mitte ") (Some 250000);
      labels_parks.mkParkRow (IdInt 1) (text.PyStr "Wedding") None ].

Definition three_venues : Frame labels_venues.VenueRow :=
  mkFrame ["district_id"; "neighborhood"; "cuisine"]
    [ labels_venues.mkVenueRow (IdInt 1) (text.PyStr "Mitte") (text.CStr "Italian; Pizza");
      labels_venues.mkVenueRow (IdInt 1) (text.PyStr "Mitte") (text.CStr "thai");
      labels_venues.mkVenueRow (IdInt 1) (text.PyStr "Wedding") (text.CFloat true) ].

Definition three_playgrounds : Frame labels_playgrounds.PlaygroundRow :=
  mkFrame ["district_id"; "neighborhood"; "green_area_type"]
    [ labels_playgrounds.mkPlaygroundRow (IdInt 1) (text.PyStr "Mitte")
        (text.PyStr "Kinderspielplatz");
      labels_playgrounds.mkPlaygroundRow IdNaN (text.PyStr "Mitte")
        (text.PyStr "Spielplatz");
      labels_playgrounds.mkPlaygroundRow (IdInt 1) (text.PyStr "Mitte")
        (text.PyStr "Park") ].

(** Park rows merged with their areas: shares 0.10, 0.20 and 0.30, one
    row without a polygon and one with an area of 0. *)
Definition five_green_rows : Frame labels_parks.GreenRow :=
  mkFrame ["district_id"; "neighborhood_canon"; "green_area_km2"; "area_km2"]
    [ labels_parks.mkGreenRow (IdInt 1) "a" (Some 1) (Some 10);
      labels_parks.mkGreenRow (IdInt 1) "b" (Some 2) (Some 10);
      labels_parks.mkGreenRow (IdInt 1) "c" (Some 3) (Some 10);
      labels_parks.mkGreenRow (IdInt 1) "d" (Some 3) None;
      labels_parks.mkGreenRow (IdInt 1) "e" (Some 3) (Some 0) ].

(** Playground rows merged with their effective areas: densities 1, 2
    and 4. *)
Definition three_play_rows : Frame labels_playgrounds.PlayRow :=
  mkFrame ["district_id"; "neighborhood_canon"; "n_playgrounds"; "area_eff_km2"]
    [ labels_playgrounds.mkPlayRow (IdInt 1) "a" (Some 2) (Some 2);
      labels_playgrounds.mkPlayRow (IdInt 1) "b" (Some 4) (Some 2);
      labels_playgrounds.mkPlayRow (IdInt 1) "c" (Some 8) (Some 2) ].



(** Park areas and playground counts of three neighbourhoods, two of
    district 1 and one of a district without polygons. *)
Definition three_parks_nei : Frame aggregate.ParksNeiRow :=
  mkFrame ["district_id"; "green_area_km2"]
    [ aggregate.mkParksNeiRow (IdInt 1) (Some 0.5);
      aggregate.mkParksNeiRow (IdInt 1) (Some 0.3);
      aggregate.mkParksNeiRow (IdInt 2) (Some 1) ].

Definition three_play_nei : Frame aggregate.PlayNeiRow :=
  mkFrame ["district_id"; "n_playgrounds"]
    [ aggregate.mkPlayNeiRow (IdInt 1) (Some 3);
      aggregate.mkPlayNeiRow (IdInt 1) (Some 5);
      aggregate.mkPlayNeiRow (IdInt 2) (Some 1) ].


(** The columns of a small label table, one of them unknown to
    [READABLE_RENAMES]. *)
Definition label_columns : list string :=
  ["green_share"; "neighborhood"; "comment"; "district_id"].

End examples.

(** * Properties *)

(** ** Name canonicalisation and cuisine tokens *)

Module text_facts.
Import pystr text reference examples.

Ltac each_char c := destruct c as [[] [] [] [] [] [] [] []].

Lemma replace_app (old : ascii) (new a b : chars) :
  replace old new (a ++ b)%list = (replace old new a ++ replace old new b)%list.
Proof. unfold replace. apply flat_map_app. Qed.

Lemma fold_umlauts_app (a b : chars) :
  _fold_umlauts (a ++ b)%list = (_fold_umlauts a ++ _fold_umlauts b)%list.
Proof.
  unfold _fold_umlauts, UMLAUT_MAP. simpl fold_left.
  now rewrite !replace_app.
Qed.

Lemma fold_umlauts_cons (c : ascii) (s : chars) :
  _fold_umlauts (c :: s) = (_fold_umlauts [c] ++ _fold_umlauts s)%list.
Proof. exact (fold_umlauts_app [c] s). Qed.

Lemma fold_umlauts_nil : _fold_umlauts [] = [].
Proof. reflexivity. Qed.

(** The loop over the table is the table read per character. *)
Lemma fold_umlauts_char (c : ascii) : _fold_umlauts [c] = fold_table [c].
Proof. each_char c; vm_compute; reflexivity. Qed.

Lemma fold_umlauts_table (s : chars) : _fold_umlauts s = fold_table s.
Proof.
  induction s as [|c s IH]; [reflexivity|].
  rewrite fold_umlauts_cons, IH, fold_umlauts_char.
  unfold fold_table. simpl. now rewrite app_nil_r.
Qed.

(** Lowercasing and the table commute: the table has both cases and its
    values are lowercase. *)
Lemma lower_fold_char (c : ascii) :
  lower (_fold_umlauts [c]) = _fold_umlauts [lower_char c].
Proof. each_char c; vm_compute; reflexivity. Qed.

Lemma lower_fold (s : chars) : lower (_fold_umlauts s) = _fold_umlauts (lower s).
Proof.
  induction s as [|c s IH]; [reflexivity|].
  simpl lower. rewrite fold_umlauts_cons, (fold_umlauts_cons (lower_char c)).
  unfold lower in *. rewrite map_app, IH. f_equal. apply lower_fold_char.
Qed.

Lemma stable_out_char (c : ascii) :
  forallb stable (keep_alnum (_fold_umlauts [lower_char c])) = true.
Proof. each_char c; vm_compute; reflexivity. Qed.

Lemma stable_out (t : chars) :
  forallb stable (keep_alnum (_fold_umlauts (lower t))) = true.
Proof.
  induction t as [|c t IH]; [reflexivity|].
  simpl lower. rewrite fold_umlauts_cons. unfold keep_alnum in *.
  rewrite List.filter_app, forallb_app, IH, andb_true_r.
  apply stable_out_char.
Qed.

Lemma lstrip_stable (s : chars) : forallb stable s = true -> lstrip s = s.
Proof.
  destruct s as [|c s]; [reflexivity|]. simpl. intros Hs.
  apply andb_prop in Hs as [Hc _]. unfold stable in Hc.
  destruct (isspace c); [|reflexivity].
  now rewrite andb_false_r in Hc.
Qed.

Lemma rstrip_stable (s : chars) : forallb stable s = true -> rstrip s = s.
Proof.
  induction s as [|c s IH]; [reflexivity|]. simpl. intros Hs.
  apply andb_prop in Hs as [Hc Hs]. rewrite (IH Hs).
  destruct s; [|reflexivity].
  unfold stable in Hc. destruct (isspace c); [|reflexivity].
  now rewrite andb_false_r in Hc.
Qed.

Lemma lower_stable (s : chars) : forallb stable s = true -> lower s = s.
Proof.
  induction s as [|c s IH]; [reflexivity|]. simpl. intros Hs.
  apply andb_prop in Hs as [Hc Hs]. rewrite (IH Hs). f_equal.
  unfold stable in Hc. apply andb_prop in Hc as [Hc _].
  apply andb_prop in Hc as [_ Hc]. now apply Ascii.eqb_eq.
Qed.

Lemma fold_stable (s : chars) : forallb stable s = true -> _fold_umlauts s = s.
Proof.
  induction s as [|c s IH]; [reflexivity|]. simpl. intros Hs.
  apply andb_prop in Hs as [Hc Hs]. rewrite fold_umlauts_cons, (IH Hs).
  unfold stable in Hc. apply andb_prop in Hc as [_ Hc].
  apply bool_decide_eq_true in Hc. now rewrite Hc.
Qed.

Lemma keep_alnum_stable (s : chars) : forallb stable s = true -> keep_alnum s = s.
Proof.
  induction s as [|c s IH]; [reflexivity|]. simpl. intros Hs.
  apply andb_prop in Hs as [Hc Hs]. rewrite (IH Hs).
  unfold stable in Hc. do 3 apply andb_prop in Hc as [Hc _]. now rewrite Hc.
Qed.

Lemma canon_chars_stable (s : chars) :
  forallb stable s = true -> canon_chars s = s.
Proof.
  intros Hs. unfold canon_chars, strip.
  now rewrite (lstrip_stable s Hs), (rstrip_stable s Hs), (lower_stable s Hs),
    (fold_stable s Hs), (keep_alnum_stable s Hs).
Qed.

Lemma canon_chars_idempotent (s : chars) :
  canon_chars (canon_chars s) = canon_chars s.
Proof. apply canon_chars_stable. unfold canon_chars. apply stable_out. Qed.

Lemma of_to_string (s : chars) : of_string (to_string s) = s.
Proof. apply list_ascii_of_string_of_list_ascii. Qed.

(** C9. Canonicalisation is idempotent: canonicalising a canonical key
    returns it unchanged, for every input of [canon_nh] ([None], a string,
    or another object through its [str()]). *)
Theorem canon_nh_idempotent (x : pyobj) :
  canon_nh (PyStr (canon_nh x)) = canon_nh x.
Proof.
  destruct x as [|s|r]; [vm_compute; reflexivity| |];
    unfold canon_nh; cbn [py_str];
    now rewrite of_to_string, canon_chars_idempotent.
Qed.


Lemma filter_ascii_keep_alnum (s : chars) :
  List.filter is_ascii_alnum (keep_alnum s) = List.filter is_ascii_alnum s.
Proof.
  unfold keep_alnum. induction s as [|c s IH]; [reflexivity|]. simpl.
  destruct (isalnum c) eqn:Hc; simpl; rewrite IH; [reflexivity|].
  unfold isalnum in Hc. destruct (is_ascii_alnum c); [discriminate Hc|reflexivity].
Qed.

Lemma filter_all (f : ascii -> bool) (s : chars) :
  forallb f s = true -> List.filter f s = s.
Proof.
  induction s as [|c s IH]; [reflexivity|]. simpl. intros Hs.
  apply andb_prop in Hs as [Hc Hs]. now rewrite Hc, (IH Hs).
Qed.

Lemma lstrip_forallb (f : ascii -> bool) (s : chars) :
  forallb f s = true -> forallb f (lstrip s) = true.
Proof.
  induction s as [|c s IH]; [reflexivity|]. simpl. intros Hs.
  destruct (isspace c); [|exact Hs].
  apply andb_prop in Hs as [_ Hs]. now apply IH.
Qed.

Lemma rstrip_forallb (f : ascii -> bool) (s : chars) :
  forallb f s = true -> forallb f (rstrip s) = true.
Proof.
  induction s as [|c s IH]; [reflexivity|]. simpl. intros Hs.
  apply andb_prop in Hs as [Hc Hs]. specialize (IH Hs).
  destruct (rstrip s) as [|d r].
  - destruct (isspace c); [reflexivity|]. simpl. now rewrite Hc.
  - simpl in *. now rewrite Hc, IH.
Qed.

Lemma plain_out_char (c : ascii) :
  implb (plain c)
        (forallb is_ascii_alnum (keep_alnum (_fold_umlauts [lower_char c]))) = true.
Proof. each_char c; vm_compute; reflexivity. Qed.

Lemma plain_out (t : chars) :
  forallb plain t = true ->
  forallb is_ascii_alnum (keep_alnum (_fold_umlauts (lower t))) = true.
Proof.
  induction t as [|c t IH]; [reflexivity|]. simpl forallb. intros Ht.
  apply andb_prop in Ht as [Hc Ht].
  simpl lower. rewrite fold_umlauts_cons. unfold keep_alnum in *.
  rewrite List.filter_app, forallb_app, (IH Ht), andb_true_r.
  pose proof (plain_out_char c) as Hp. unfold keep_alnum in Hp.
  now rewrite Hc in Hp.
Qed.

Lemma canon_reference_chars (s : chars) :
  List.filter is_ascii_alnum (lower (fold_table (strip s)))
  = List.filter is_ascii_alnum (canon_chars s).
Proof.
  unfold canon_chars.
  now rewrite <- fold_umlauts_table, lower_fold, filter_ascii_keep_alnum.
Qed.

Lemma canon_chars_plain (s : chars) :
  forallb plain s = true ->
  forallb is_ascii_alnum (canon_chars s) = true.
Proof.
  intros Hs. unfold canon_chars, strip.
  apply plain_out, rstrip_forallb, lstrip_forallb, Hs.
Qed.

(** C4, as stated, fails: on "Café" the code returns "café", which
    is not the reference result "caf" and holds a character that is no
    ASCII letter or digit. *)
Lemma canon_nh_keeps_latin1_letters :
  canon_nh (PyStr cafe) = String "c" (String "a" (String "f" (String "233" EmptyString)))
  /\ canon_reference (PyStr cafe) = "caf"
  /\ canon_nh (PyStr cafe) <> canon_reference (PyStr cafe)
  /\ forallb is_ascii_alnum (of_string (canon_nh (PyStr cafe))) = false.
Proof. repeat split; try (vm_compute; reflexivity). vm_compute. discriminate. Qed.

(** The reference result is the ASCII part of the key, on the strings
    of this development (code points up to U+00FF). *)
Lemma reference_is_ascii_part (x : pyobj) :
  canon_reference x
  = to_string (List.filter is_ascii_alnum (of_string (canon_nh x))).
Proof.
  destruct x as [|s|r]; [vm_compute; reflexivity| |];
    unfold canon_reference, canon_nh; cbn [py_str];
    now rewrite of_to_string, canon_reference_chars.
Qed.

(** C4, amended. [canon_nh] returns the empty string for [None] and
    otherwise trims, lowercases, replaces the table's characters and
    keeps what [str.isalnum] accepts; and on every input without an
    alphanumeric character beyond ASCII and the table's keys it returns
    the reference result of the specification, every character of the
    key being an ASCII letter or digit. *)
Theorem canon_nh_reference (x : pyobj) :
  canon_nh PyNone = EmptyString
  /\ (x <> PyNone ->
      canon_nh x
      = to_string (keep_alnum (_fold_umlauts (lower (strip (of_string (py_str x)))))))
  /\ (forallb plain (of_string (py_str x)) = true ->
      canon_nh x = canon_reference x
      /\ forallb is_ascii_alnum (of_string (canon_nh x)) = true).
Proof.
  split; [reflexivity|]. split.
  - destruct x; [congruence| |]; reflexivity.
  - intros Hp.
    assert (Hascii : forallb is_ascii_alnum (of_string (canon_nh x)) = true).
    { destruct x as [|s|r]; [vm_compute; reflexivity| |];
        unfold canon_nh; cbn [py_str] in *;
        rewrite of_to_string; now apply canon_chars_plain. }
    split; [|exact Hascii].
    rewrite (reference_is_ascii_part x), (filter_all _ _ Hascii).
    symmetry. apply string_of_list_ascii_of_string.
Qed.

Lemma canon_nh_reference_witness :
  canon_nh (PyStr koellnische_heide) = canon_reference (PyStr koellnische_heide)
  /\ forallb is_ascii_alnum (of_string (canon_nh (PyStr koellnische_heide))) = true.
Proof.
  apply (canon_nh_reference (PyStr koellnische_heide)).
  vm_compute. reflexivity.
Defined.

(** The unit tests of the repository. *)
Example test_canon_nh_umlauts_and_punct :
  canon_nh (PyStr koellnische_heide) = "koellnischeheide"
  /\ canon_nh (PyStr "Mitte") = "mitte"
  /\ canon_nh (PyStr (String "S" (String "t" (String "r" (String "a" (String eszett "e 123"))))))
     = "strasse123".
Proof. repeat split; vm_compute; reflexivity. Qed.

(** Tokens *)

Lemma collect_tokens_sound (parts : list string) (t : string) :
  t ∈ collect_tokens parts ->
  t ∈ national_cuisine_vocab /\ t ∉ _EXCLUDE_TOKENS.
Proof.
  induction parts as [|p parts IH]; simpl; intros Ht.
  - now apply elem_of_nil in Ht.
  - destruct (bool_decide (_normalize_token p = EmptyString)
              || bool_decide (_normalize_token p ∈ _EXCLUDE_TOKENS)) eqn:Hx;
      [now apply IH|].
    apply orb_false_elim in Hx as [_ Hx]. apply bool_decide_eq_false in Hx.
    destruct (bool_decide (_normalize_token p ∈ national_cuisine_vocab)) eqn:Hv;
      [|now apply IH].
    apply bool_decide_eq_true in Hv.
    apply elem_of_cons in Ht as [->|Ht]; [now split|now apply IH].
Qed.

Lemma tokenize_cuisines_sound (c : cuisines_arg) (t : string) :
  t ∈ tokenize_cuisines c ->
  t ∈ national_cuisine_vocab /\ t ∉ _EXCLUDE_TOKENS.
Proof.
  destruct c; simpl; try (intros Ht; now apply elem_of_nil in Ht);
    apply collect_tokens_sound.
Qed.

(** C7. The sample string tokenises to exactly italian, japanese and
    vietnamese; and whatever the argument, every token of
    [tokenize_cuisines] and every member of [nationals_set] is in the
    national-cuisine vocabulary and not in the exclusion set. *)
Theorem tokenize_cuisines_keeps_nationals_only :
  tokenize_cuisines (CStr sample_cuisines) = ["italian"; "japanese"; "vietnamese"]
  /\ nationals_set (CStr sample_cuisines) = {[ "italian"; "japanese"; "vietnamese" ]}
  /\ forall (c : cuisines_arg) (t : string),
       t ∈ tokenize_cuisines c \/ t ∈ nationals_set c ->
       t ∈ national_cuisine_vocab /\ t ∉ _EXCLUDE_TOKENS.
Proof.
  assert (Hs : tokenize_cuisines (CStr sample_cuisines)
               = ["italian"; "japanese"; "vietnamese"])
    by (vm_compute; reflexivity).
  split; [exact Hs|]. split.
  - unfold nationals_set. rewrite Hs. set_solver.
  - intros c t [Ht|Ht]; [|unfold nationals_set in Ht; apply elem_of_list_to_set in Ht];
      now apply (tokenize_cuisines_sound c).
Qed.

Lemma tokenize_cuisines_keeps_nationals_only_witness :
  "japanese" ∈ national_cuisine_vocab /\ "japanese" ∉ _EXCLUDE_TOKENS.
Proof.
  apply (proj2 (proj2 tokenize_cuisines_keeps_nationals_only)
           (CStr sample_cuisines) "japanese").
  left. rewrite (proj1 tokenize_cuisines_keeps_nationals_only).
  apply list_elem_of_In. simpl. tauto.
Defined.

End text_facts.

(** ** Scoring primitives *)

Module scoring_facts.
Import numeric labels_mobility.
Open Scope Q_scope.

Lemma Qle_bool_false (x y : Q) : Qle_bool x y = false <-> y < x.
Proof.
  split; intros Hxy.
  - apply Qnot_le_lt. intros Hle. apply Qle_bool_iff in Hle. congruence.
  - destruct (Qle_bool x y) eqn:E; [|reflexivity].
    apply Qle_bool_iff in E. lra.
Qed.

Lemma insert_sorted_not_nil (x : Q) (l : list Q) : insert_sorted x l <> [].
Proof. destruct l as [|y l]; simpl; [|destruct (Qle_bool x y)]; discriminate. Qed.

Lemma sort_nil_inv (l : list Q) : sort l = [] -> l = [].
Proof.
  destruct l as [|x l]; [reflexivity|]. simpl. intros Hs.
  now apply insert_sorted_not_nil in Hs.
Qed.

Lemma nonnull_lookup (s : Series) (i : nat) (v : Q) :
  s !! i = Some (Some v) -> nonnull s <> [].
Proof.
  intros Hi Hn. apply list_elem_of_lookup_2 in Hi.
  assert (Hv : v ∈ nonnull s).
  { unfold nonnull. apply list_elem_of_omap. exists (Some v). split; [exact Hi|reflexivity]. }
  rewrite Hn in Hv. now apply elem_of_nil in Hv.
Qed.

Lemma nanpercentile_some (s : Series) (q : Q) :
  nonnull s <> [] -> exists p, nanpercentile s q = Some p.
Proof.
  intros Hn. unfold nanpercentile.
  destruct (sort (nonnull s)) as [|a0 l] eqn:Hs; [|eauto].
  now apply sort_nil_inv in Hs.
Qed.

Lemma nanpercentile_none (s : Series) (q : Q) :
  nonnull s = [] -> nanpercentile s q = None.
Proof. intros Hn. unfold nanpercentile. now rewrite Hn. Qed.

Lemma nonnull_all_null (s : Series) :
  (forall x, x ∈ s -> x = None) -> nonnull s = [].
Proof.
  induction s as [|x s IH]; [reflexivity|]. intros Hall.
  rewrite (Hall x) by apply list_elem_of_here. simpl.
  apply IH. intros y Hy. apply Hall. now apply list_elem_of_further.
Qed.

(** *** The percentile grows with its level *)

Lemma insert_sorted_Forall (P : Q -> Prop) (x : Q) (l : list Q) :
  P x -> Forall P l -> Forall P (insert_sorted x l).
Proof.
  intros Hx Hl. induction l as [|y l IH]; simpl.
  - now constructor.
  - destruct (Qle_bool x y); [now constructor|].
    inversion Hl; subst. constructor; [assumption|now apply IH].
Qed.

Lemma insert_sorted_sorted (x : Q) (l : list Q) :
  StronglySorted Qle l -> StronglySorted Qle (insert_sorted x l).
Proof.
  induction 1 as [|y l Hl IH Hy]; simpl.
  - constructor; constructor.
  - destruct (Qle_bool x y) eqn:E.
    + apply Qle_bool_iff in E. constructor; [now constructor|].
      constructor; [exact E|].
      eapply Forall_impl; [exact Hy|]. intros z Hz. cbn in Hz. lra.
    + apply Qle_bool_false in E. constructor; [exact IH|].
      apply insert_sorted_Forall; [lra|exact Hy].
Qed.

Lemma sort_sorted (l : list Q) : StronglySorted Qle (sort l).
Proof.
  induction l as [|x l IH]; simpl; [constructor|now apply insert_sorted_sorted].
Qed.

Lemma sorted_nth_le (l : list Q) (d : Q) (i j : nat) :
  StronglySorted Qle l -> (i <= j)%nat -> (j < length l)%nat ->
  nth i l d <= nth j l d.
Proof.
  intros Hs. revert i j. induction Hs as [|x l Hl IH Hx]; intros i j Hij Hj.
  - simpl in Hj. lia.
  - destruct j as [|j]; [replace i with 0%nat by lia; apply Qle_refl|].
    simpl in Hj. destruct i as [|i]; simpl.
    + rewrite Forall_forall in Hx. apply Hx, list_elem_of_In, nth_In. lia.
    + apply IH; lia.
Qed.

(** The interpolated value at a virtual index. *)
Lemma interpolation_mono (l : list Q) (d pos pos' : Q) :
  StronglySorted Qle l -> l <> [] ->
  0 <= pos -> pos <= pos' -> pos' <= inject_Z (Z.of_nat (length l) - 1) ->
  nth (Z.to_nat (Qfloor pos)) l d
  + (nth (Nat.min (S (Z.to_nat (Qfloor pos))) (length l - 1)) l d
     - nth (Z.to_nat (Qfloor pos)) l d) * (pos - inject_Z (Qfloor pos))
  <= nth (Z.to_nat (Qfloor pos')) l d
     + (nth (Nat.min (S (Z.to_nat (Qfloor pos'))) (length l - 1)) l d
        - nth (Z.to_nat (Qfloor pos')) l d) * (pos' - inject_Z (Qfloor pos')).
Proof.
  intros Hs Hne H0 Hle Hmax.
  assert (Hn : (0 < length l)%nat) by (destruct l; [congruence|simpl; lia]).
  set (k := Qfloor pos). set (k' := Qfloor pos').
  assert (Hk0 : (0 <= k)%Z) by (unfold k; rewrite <- (Qfloor_Z 0); now apply Qfloor_resp_le).
  assert (Hkk : (k <= k')%Z) by (now apply Qfloor_resp_le).
  assert (Hkn : (k' <= Z.of_nat (length l) - 1)%Z)
    by (unfold k'; rewrite <- (Qfloor_Z (Z.of_nat (length l) - 1)); now apply Qfloor_resp_le).
  pose proof (Qfloor_le pos) as Hg0. pose proof (Qfloor_le pos') as Hg0'.
  pose proof (Qlt_floor pos) as Hg1. pose proof (Qlt_floor pos') as Hg1'.
  rewrite inject_Z_plus in Hg1, Hg1'. fold k in Hg0, Hg1. fold k' in Hg0', Hg1'.
  change (inject_Z 1) with 1 in Hg1, Hg1'.
  set (g := pos - inject_Z k). set (g' := pos' - inject_Z k').
  assert (Hg : 0 <= g /\ g <= 1) by (unfold g; lra).
  assert (Hg' : 0 <= g' /\ g' <= 1) by (unfold g'; lra).
  set (a := nth (Z.to_nat k) l d).
  set (b := nth (Nat.min (S (Z.to_nat k)) (length l - 1)) l d).
  set (a' := nth (Z.to_nat k') l d).
  set (b' := nth (Nat.min (S (Z.to_nat k')) (length l - 1)) l d).
  assert (Hab : a <= b) by (apply sorted_nth_le; [exact Hs|lia|lia]).
  assert (Hab' : a' <= b') by (apply sorted_nth_le; [exact Hs|lia|lia]).
  destruct (Z.eq_dec k k') as [E|E].
  - assert (Ha : a = a') by (unfold a, a'; now rewrite E).
    assert (Hb : b = b') by (unfold b, b'; now rewrite E).
    rewrite <- Ha, <- Hb.
    assert (Hgg : g <= g') by (unfold g, g'; rewrite E; lra).
    nra.
  - assert (Hba : b <= a') by (apply sorted_nth_le; [exact Hs|lia|lia]).
    assert (H1 : a + (b - a) * g <= b) by nra.
    assert (H2 : a' <= a' + (b' - a') * g') by nra.
    lra.
Qed.

Lemma Qdiv100 (x : Q) : x / 100 == x * (1 # 100).
Proof. field. Qed.

(** [nanpercentile] is monotone in the level between 0 and 100. *)
Lemma nanpercentile_mono (s : Series) (q q' p p' : Q) :
  0 <= q -> q <= q' -> q' <= 100 ->
  nanpercentile s q = Some p -> nanpercentile s q' = Some p' -> p <= p'.
Proof.
  unfold nanpercentile. intros H0 Hqq H100 Hp Hp'.
  pose proof (sort_sorted (nonnull s)) as Hs.
  destruct (sort (nonnull s)) as [|a0 l] eqn:E; [discriminate Hp|].
  match type of Hp with Some ?X = Some _ => assert (Ep : X = p) by congruence end.
  match type of Hp' with Some ?X = Some _ => assert (Ep' : X = p') by congruence end.
  rewrite <- Ep, <- Ep'. clear Hp Hp' Ep Ep'.
  set (n := inject_Z (Z.of_nat (length (a0 :: l)) - 1)).
  assert (Hn : 0 <= n).
  { unfold n. change 0 with (inject_Z 0). rewrite <- Zle_Qle. simpl length. lia. }
  apply (interpolation_mono (a0 :: l) a0 (n * q / 100) (n * q' / 100));
    [exact Hs|discriminate| | |]; fold n; clearbody n;
    rewrite ?Qdiv100; nra.
Qed.

(** The range [max(p_hi - p_lo, 1e-9)] is the larger of the two, hence
    positive. *)
Lemma py_max_range (p_lo p_hi : Q) :
  exists r, py_max (fsub (Some p_hi) (Some p_lo)) (Some epsilon) = Some r
            /\ r == Qmax (p_hi - p_lo) epsilon /\ 0 < r.
Proof.
  unfold py_max, fgt, flt, fsub, fbin.
  destruct (Qle_bool epsilon (p_hi - p_lo)) eqn:E; simpl.
  - apply Qle_bool_iff in E. exists (p_hi - p_lo). split; [reflexivity|].
    split; [rewrite Q.max_l by exact E; reflexivity|].
    unfold epsilon in E. lra.
  - apply Qle_bool_false in E. exists epsilon. split; [reflexivity|].
    split; [rewrite Q.max_r by lra; reflexivity|]. unfold epsilon. lra.
Qed.

Lemma clip_unit (x : Q) : 0 <= clip x 0 1 <= 1.
Proof.
  unfold clip. split.
  - apply Q.min_glb; [apply Q.le_max_r|lra].
  - apply Q.le_min_r.
Qed.

Lemma fdiv_some (x y : Q) : ~ y == 0 -> fdiv (Some x) (Some y) = Some (x / y).
Proof.
  intros Hy. unfold fdiv. destruct (Qeq_bool y 0) eqn:E; [|reflexivity].
  now apply Qeq_bool_iff in E.
Qed.

Lemma lookup_map {A B : Type} (f : A -> B) (l : list A) (i : nat) :
  map f l !! i = f <$> l !! i.
Proof.
  revert i. induction l as [|x l IH]; intros [|i]; simpl; try reflexivity.
  apply IH.
Qed.

(** One entry of [percentile_score]. *)
Lemma percentile_score_lookup (series : Series) (lo hi : Q) (i : nat) :
  percentile_score series lo hi !! i
  = (fun v =>
       fmul (fclip (fdiv (fsub v (nanpercentile series lo))
                         (py_max (fsub (nanpercentile series hi) (nanpercentile series lo))
                                 (Some epsilon)))
                   0 1)
            (Some 100))
    <$> series !! i.
Proof.
  unfold percentile_score. cbv zeta. rewrite !lookup_map.
  now destruct (series !! i).
Qed.

(** The score of a non-null entry. *)
Lemma percentile_score_entry (series : Series) (lo hi : Q) (i : nat) (v : Q) :
  series !! i = Some (Some v) ->
  exists p_lo p_hi y,
    nanpercentile series lo = Some p_lo
    /\ nanpercentile series hi = Some p_hi
    /\ percentile_score series lo hi !! i = Some (Some y)
    /\ y == clip ((v - p_lo) / Qmax (p_hi - p_lo) epsilon) 0 1 * 100
    /\ 0 <= y <= 100.
Proof.
  intros Hi. pose proof (nonnull_lookup _ _ _ Hi) as Hn.
  destruct (nanpercentile_some series lo Hn) as [p_lo Hlo].
  destruct (nanpercentile_some series hi Hn) as [p_hi Hhi].
  destruct (py_max_range p_lo p_hi) as (r & Hr & Hreq & Hrpos).
  exists p_lo, p_hi, (clip ((v - p_lo) / r) 0 1 * 100).
  split; [exact Hlo|]. split; [exact Hhi|].
  rewrite percentile_score_lookup, Hi.
  rewrite Hlo, Hhi, Hr. cbn [fmap option_fmap option_map fsub fbin].
  rewrite fdiv_some by lra. split; [reflexivity|].
  split; [unfold clip; now rewrite Hreq|].
  pose proof (clip_unit ((v - p_lo) / r)). lra.
Qed.

Lemma percentile_score_length (series : Series) (lo hi : Q) :
  length (percentile_score series lo hi) = length series.
Proof. unfold percentile_score. now rewrite !length_map. Qed.

Lemma tercile_labels_length (values : Series) (labels : string * string * string) :
  length (tercile_labels values labels) = length values.
Proof. destruct labels as [[l0 l1] l2]. unfold tercile_labels. now rewrite length_map. Qed.

(** C2. [percentile_score] keeps the length of the series; its score is
    null exactly at the null entries, so an all-null series has all-null
    scores; and the score of a non-null entry [v] is
    [clamp((v - p_lo) / max(p_hi - p_lo, epsilon), 0, 1) * 100] with
    [p_lo <= p_hi] the 10th and 90th percentiles of the non-null entries,
    a number between 0 and 100. *)
Theorem percentile_score_spec (series : Series) :
  let scores := percentile_score series lo_default hi_default in
  length scores = length series
  /\ (forall i, scores !! i = Some None <-> series !! i = Some None)
  /\ ((forall x, x ∈ series -> x = None) -> forall y, y ∈ scores -> y = None)
  /\ (forall i v, series !! i = Some (Some v) ->
        exists p_lo p_hi y,
          nanpercentile series 10 = Some p_lo
          /\ nanpercentile series 90 = Some p_hi
          /\ p_lo <= p_hi
          /\ scores !! i = Some (Some y)
          /\ y == clip ((v - p_lo) / Qmax (p_hi - p_lo) epsilon) 0 1 * 100
          /\ 0 <= y <= 100).
Proof.
  cbv zeta.
  assert (Hnull : forall i, percentile_score series lo_default hi_default !! i = Some None
                            <-> series !! i = Some None).
  { intros i. split.
    - intros Hs. destruct (series !! i) as [[v|]|] eqn:Hi; [|reflexivity|].
      + destruct (percentile_score_entry series lo_default hi_default i v Hi)
          as (? & ? & y & _ & _ & Hy & _). congruence.
      + rewrite percentile_score_lookup, Hi in Hs. discriminate Hs.
    - intros Hi. rewrite percentile_score_lookup, Hi. reflexivity. }
  split; [apply percentile_score_length|].
  split; [exact Hnull|].
  split.
  2:{ intros i v Hi.
      destruct (percentile_score_entry series lo_default hi_default i v Hi)
        as (p_lo & p_hi & y & Hlo & Hhi & Hy & Heq & Hb).
      exists p_lo, p_hi, y. repeat (split; [assumption|]).
      split; [|repeat (split; [assumption|]); exact Hb].
      apply (nanpercentile_mono series 10 90 p_lo p_hi); try assumption; lra. }
  intros Hall y Hy. apply list_elem_of_lookup in Hy as [i Hi].
  destruct y as [y|]; [|reflexivity].
  rewrite percentile_score_lookup in Hi.
  destruct (series !! i) as [x|] eqn:Hx; [|discriminate Hi].
  rewrite (Hall x) in Hi by (eapply list_elem_of_lookup_2; exact Hx).
  discriminate Hi.
Qed.

Lemma percentile_score_spec_witness :
  exists p_lo p_hi y,
    nanpercentile [Some 0; Some 1.7; None] 10 = Some p_lo
    /\ nanpercentile [Some 0; Some 1.7; None] 90 = Some p_hi
    /\ p_lo <= p_hi
    /\ percentile_score [Some 0; Some 1.7; None] lo_default hi_default !! 1%nat
       = Some (Some y)
    /\ y == clip ((1.7 - p_lo) / Qmax (p_hi - p_lo) epsilon) 0 1 * 100
    /\ 0 <= y <= 100.
Proof.
  apply (proj2 (proj2 (proj2 (percentile_score_spec [Some 0; Some 1.7; None])))
           1%nat 1.7).
  reflexivity.
Defined.

(** The end-to-end scenario of the specification: densities 1.7 and 0
    score 100 and 0. *)
Example percentile_score_two_points :
  map (option_map Qred) (percentile_score [Some 1.7; Some 0] lo_default hi_default)
  = [Some 100; Some 0].
Proof. vm_compute. reflexivity. Qed.

(** The copies in [labels_venues] are the same functions. *)
Lemma labels_venues_percentile_score :
  labels_venues.percentile_score = percentile_score.
Proof. reflexivity. Qed.

Lemma labels_venues_tercile_labels :
  labels_venues.tercile_labels = tercile_labels.
Proof. reflexivity. Qed.

Lemma tercile_labels_lookup (values : Series) (high mid low : string) (i : nat) :
  tercile_labels values (high, mid, low) !! i
  = (fun v : option Q =>
       match v with
       | None => mid
       | Some _ =>
           if fle v (nanpercentile values 33.333) then low
           else if fge v (nanpercentile values 66.666) then high
           else mid
       end)
    <$> values !! i.
Proof.
  unfold tercile_labels. cbv zeta. now rewrite lookup_map.
Qed.

(** C3, as stated, fails: in a constant series both percentiles equal the
    value, which is at [q2] and yet labelled low, the test [v <= q1]
    coming first. *)
Lemma tercile_labels_tie_goes_low :
  let values := [Some 5; Some 5; Some 5] in
  exists q2,
    nanpercentile values 66.666 = Some q2
    /\ q2 == 5
    /\ values !! 0%nat = Some (Some 5)
    /\ tercile_labels values ("high", "mid", "low") !! 0%nat = Some "low"
    /\ tercile_labels values ("high", "mid", "low") !! 0%nat <> Some "high".
Proof.
  cbv zeta. eexists. split; [vm_compute; reflexivity|].
  split; [vm_compute; reflexivity|]. split; [reflexivity|].
  assert (H : tercile_labels [Some 5; Some 5; Some 5] ("high", "mid", "low") !! 0%nat
              = Some "low") by (vm_compute; reflexivity).
  split; [exact H|]. rewrite H. discriminate.
Qed.

(** C3, amended. With [q1 <= q2] the percentiles 33.333 and 66.666 of
    the non-null values, [tercile_labels] (of [labels_mobility] and of
    [labels_venues]) gives the mid label to every null value, the low
    label to every value [<= q1], the high label to every value [>= q2]
    that is not [<= q1], and the mid label otherwise; a value equal to
    [q2] is labelled high, unless [q1 = q2], when it is labelled low. *)
Theorem tercile_labels_spec (values : Series) (high mid low : string) (i : nat) :
  let labels := tercile_labels values (high, mid, low) in
  labels_venues.tercile_labels values (high, mid, low) = labels
  /\ length labels = length values
  /\ (values !! i = Some None -> labels !! i = Some mid)
  /\ (forall v, values !! i = Some (Some v) ->
        exists q1 q2,
          nanpercentile values 33.333 = Some q1
          /\ nanpercentile values 66.666 = Some q2
          /\ q1 <= q2
          /\ (v <= q1 -> labels !! i = Some low)
          /\ (q1 < v -> q2 <= v -> labels !! i = Some high)
          /\ (q1 < v -> v < q2 -> labels !! i = Some mid)
          /\ (v == q2 ->
              (q1 < q2 /\ labels !! i = Some high)
              \/ (q1 == q2 /\ labels !! i = Some low))).
Proof.
  cbv zeta. split; [reflexivity|].
  split; [apply tercile_labels_length|].
  split; [intros Hi; now rewrite tercile_labels_lookup, Hi|].
  intros v Hi. pose proof (nonnull_lookup _ _ _ Hi) as Hn.
  destruct (nanpercentile_some values 33.333 Hn) as [q1 Hq1].
  destruct (nanpercentile_some values 66.666 Hn) as [q2 Hq2].
  assert (Hq12 : q1 <= q2)
    by (apply (nanpercentile_mono values 33.333 66.666 q1 q2); try assumption; lra).
  exists q1, q2. split; [exact Hq1|]. split; [exact Hq2|]. split; [exact Hq12|].
  rewrite tercile_labels_lookup, Hi, Hq1, Hq2.
  cbn [fmap option_fmap option_map fle fge].
  assert (Hhigh : q1 < v -> q2 <= v ->
            Some (if Qle_bool v q1 then low else if Qle_bool q2 v then high else mid)
            = Some high).
  { intros H1 H2. apply Qle_bool_false in H1. apply Qle_bool_iff in H2.
    now rewrite H1, H2. }
  assert (Hlow : v <= q1 ->
            Some (if Qle_bool v q1 then low else if Qle_bool q2 v then high else mid)
            = Some low).
  { intros H1. apply Qle_bool_iff in H1. now rewrite H1. }
  split; [exact Hlow|]. split; [exact Hhigh|]. split.
  - intros H1 H2. apply Qle_bool_false in H1, H2. now rewrite H1, H2.
  - intros H1. destruct (Qlt_le_dec q1 q2) as [Hlt|Hge].
    + left. split; [exact Hlt|]. apply Hhigh; lra.
    + right. split; [lra|]. apply Hlow. lra.
Qed.

Lemma tercile_labels_spec_witness :
  exists q1 q2,
    nanpercentile [Some 1; Some 2; Some 3; None; Some 4] 33.333 = Some q1
    /\ nanpercentile [Some 1; Some 2; Some 3; None; Some 4] 66.666 = Some q2
    /\ q1 <= q2
    /\ (1 <= q1 ->
        tercile_labels [Some 1; Some 2; Some 3; None; Some 4] ("high", "mid", "low") !! 0%nat
        = Some "low").
Proof.
  destruct (proj2 (proj2 (proj2
              (tercile_labels_spec [Some 1; Some 2; Some 3; None; Some 4]
                 "high" "mid" "low" 0%nat)))
              1 eq_refl)
    as (q1 & q2 & H1 & H2 & H3 & H4 & _).
  exists q1, q2. repeat (split; [assumption|]). exact H4.
Defined.

(** Labels of a short series, the null entry in the middle. *)
Example tercile_labels_sample :
  tercile_labels [Some 1; Some 2; Some 3; None; Some 4] ("high", "mid", "low")
  = ["low"; "mid"; "high"; "mid"; "high"].
Proof. vm_compute. reflexivity. Qed.

End scoring_facts.

(** ** Left merges and groups *)

Module pandas_facts.
Import numeric pandas.

Section merge.
Context {L R K : Type} `{EqDecision K}.
Variables (keyL : L -> K) (keyR : R -> K).

Lemma filter_none (right : list R) (k : K) :
  k ∉ map keyR right ->
  List.filter (fun r => bool_decide (k = keyR r)) right = [].
Proof.
  induction right as [|r rs IH]; [reflexivity|]. simpl. intros Hk.
  apply not_elem_of_cons in Hk as [Hne Hk].
  rewrite bool_decide_eq_false_2 by exact Hne. now apply IH.
Qed.

Lemma filter_unique (right : list R) (k : K) :
  NoDup (map keyR right) ->
  List.filter (fun r => bool_decide (k = keyR r)) right
  = match match_of keyR right k with Some r => [r] | None => [] end.
Proof.
  unfold match_of. induction right as [|r rs IH]; [reflexivity|].
  simpl. intros Hnd. apply NoDup_cons in Hnd as [Hr Hnd].
  destruct (bool_decide (k = keyR r)) eqn:E.
  - apply bool_decide_eq_true in E. subst k. now rewrite filter_none.
  - now apply IH.
Qed.

(** Against a table with at most one row per key, a left merge keeps the
    left rows as they are, each with its match or with nulls. *)
Lemma merge_left_unique (left : list L) (right : list R) :
  NoDup (map keyR right) ->
  merge_left keyL keyR left right
  = map (fun l => (l, match_of keyR right (keyL l))) left.
Proof.
  intros Hnd. unfold merge_left.
  induction left as [|l ls IH]; [reflexivity|]. cbn [flat_map].
  rewrite map_cons, IH, (filter_unique right (keyL l) Hnd).
  now destruct (match_of keyR right (keyL l)).
Qed.

Lemma match_of_none (right : list R) (k : K) :
  (forall r, r ∈ right -> keyR r <> k) -> match_of keyR right k = None.
Proof.
  unfold match_of. induction right as [|r rs IH]; [reflexivity|].
  intros Hno. simpl. rewrite bool_decide_eq_false_2.
  - apply IH. intros r' Hr'. apply Hno. now apply list_elem_of_further.
  - intros ->. exact (Hno r (list_elem_of_here _ _) eq_refl).
Qed.

Lemma match_of_is_some (right : list R) (k : K) (x : R) :
  x ∈ right -> keyR x = k -> exists y, match_of keyR right k = Some y.
Proof.
  intros Hx Hk. destruct (match_of keyR right k) as [y|] eqn:E; [eauto|].
  unfold match_of in E. apply list_elem_of_In in Hx.
  pose proof (List.find_none _ _ E x Hx) as Hf. cbn in Hf.
  apply bool_decide_eq_false in Hf. now subst k.
Qed.

Lemma match_of_some (right : list R) (k : K) (r : R) :
  match_of keyR right k = Some r -> r ∈ right /\ keyR r = k.
Proof.
  unfold match_of. intros Hf. apply List.find_some in Hf as [Hin Hk].
  apply bool_decide_eq_true in Hk. split; [now apply list_elem_of_In|now symmetry].
Qed.

End merge.

Section groups.
Context {R K : Type} `{EqDecision K}.
Variable key : R -> K.

Lemma groupby_keys (rs : list R) :
  map fst (groupby key rs) = remove_dups (map key rs).
Proof.
  unfold groupby. rewrite map_map. simpl. apply map_id.
Qed.

Lemma groupby_NoDup (rs : list R) : NoDup (map fst (groupby key rs)).
Proof. rewrite groupby_keys. apply NoDup_remove_dups. Qed.

Lemma groupby_NoDup_rows (rs : list R) : NoDup (groupby key rs).
Proof.
  apply (NoDup_fmap_1 fst). change (fst <$> groupby key rs) with (map fst (groupby key rs)).
  apply groupby_NoDup.
Qed.

Lemma groupby_elem (rs : list R) (k : K) (g : list R) :
  (k, g) ∈ groupby key rs ->
  k ∈ map key rs /\ g = List.filter (fun r => bool_decide (key r = k)) rs.
Proof.
  unfold groupby. intros Hin. apply list_elem_of_In, in_map_iff in Hin.
  destruct Hin as (k' & Heq & Hk'). inversion Heq; subst. split; [|reflexivity].
  apply list_elem_of_In in Hk'. now rewrite elem_of_remove_dups in Hk'.
Qed.

End groups.

End pandas_facts.

(** ** The merged tables *)

Module pipeline_facts.
Import numeric pandas pipeline pandas_facts examples.

(** The rows of [minimal] and of [merged] when every theme table has at
    most one row per key. *)
Lemma minimal_rows (base : list BaseRow) (mob : list labels_mobility.MobilityRow)
    (parks : list ParksRow) (plays : list PlaysRow) :
  NoDup (map mob_key4 mob) ->
  NoDup (map parks_key2 parks) ->
  NoDup (map plays_key2 plays) ->
  minimal base mob parks plays
  = map (fun b => (b, match_of mob_key4 mob (base_key4 b),
                   match_of parks_key2 parks (base_key2 b),
                   match_of plays_key2 plays (base_key2 b)))
        base.
Proof.
  intros Hm Hp Hl. unfold minimal.
  rewrite (merge_left_unique base_key4 mob_key4 _ _ Hm).
  rewrite (merge_left_unique _ parks_key2 _ _ Hp).
  rewrite (merge_left_unique _ plays_key2 _ _ Hl).
  now rewrite !map_map.
Qed.

Lemma merged_rows (base : list BaseRow) (mob : list labels_mobility.MobilityRow)
    (parks : list ParksRow) (plays : list PlaysRow)
    (venF : list labels_venues.VenuesFeatures) (venV : list VenVRow) :
  NoDup (map mob_key4 mob) ->
  NoDup (map parks_key2 parks) ->
  NoDup (map plays_key2 plays) ->
  NoDup (map venF_key2 venF) ->
  NoDup (map venV_key2 venV) ->
  merged base mob parks plays venF venV
  = map (fun b => ((b, match_of mob_key4 mob (base_key4 b),
                    match_of parks_key2 parks (base_key2 b),
                    match_of plays_key2 plays (base_key2 b)),
                   match_of venF_key2 venF (base_key2 b),
                   match_of venV_key2 venV (base_key2 b)))
        base.
Proof.
  intros Hm Hp Hl Hf Hv. unfold merged.
  rewrite (minimal_rows _ _ _ _ Hm Hp Hl).
  rewrite (merge_left_unique _ venF_key2 _ _ Hf).
  rewrite (merge_left_unique _ venV_key2 _ _ Hv).
  now rewrite !map_map.
Qed.

(** C6. When the polygons have distinct (district_id, canonical name)
    keys and every theme table has at most one row per key, the minimal
    and the full table hold the base rows of the polygons, each once and
    in order, so every key occurs once; and a neighbourhood without a row
    in a theme table has nulls in that theme's columns. *)
Theorem merged_tables_keep_every_neighborhood
    (base : list BaseRow) (mob : list labels_mobility.MobilityRow)
    (parks : list ParksRow) (plays : list PlaysRow)
    (venF : list labels_venues.VenuesFeatures) (venV : list VenVRow) :
  NoDup (map base_key2 base) ->
  NoDup (map mob_key4 mob) ->
  NoDup (map parks_key2 parks) ->
  NoDup (map plays_key2 plays) ->
  NoDup (map venF_key2 venF) ->
  NoDup (map venV_key2 venV) ->
  let mini := minimal base mob parks plays in
  let full := merged base mob parks plays venF venV in
  map minimal_base mini = base
  /\ map merged_base full = base
  /\ NoDup (map (fun r => base_key2 (minimal_base r)) mini)
  /\ NoDup (map (fun r => base_key2 (merged_base r)) full)
  /\ (forall r, r ∈ full ->
        let '(b, m, p, l, f, v) := r in
        ((forall x, x ∈ mob -> mob_key4 x <> base_key4 b) -> m = None)
        /\ ((forall x, x ∈ parks -> parks_key2 x <> base_key2 b) -> p = None)
        /\ ((forall x, x ∈ plays -> plays_key2 x <> base_key2 b) -> l = None)
        /\ ((forall x, x ∈ venF -> venF_key2 x <> base_key2 b) -> f = None)
        /\ ((forall x, x ∈ venV -> venV_key2 x <> base_key2 b) -> v = None)
        /\ (b, m, p, l) ∈ mini).
Proof.
  intros Hb Hm Hp Hl Hf Hv. cbv zeta.
  rewrite (merged_rows _ _ _ _ _ _ Hm Hp Hl Hf Hv), (minimal_rows _ _ _ _ Hm Hp Hl).
  rewrite !map_map. unfold merged_base, minimal_base. simpl.
  rewrite map_id. repeat split; try exact Hb.
  intros r Hr. apply list_elem_of_In, in_map_iff in Hr as (b & <- & Hin).
  repeat split; try (intros Hno; now apply match_of_none).
  apply list_elem_of_In, in_map_iff. now exists b.
Qed.


Lemma merged_tables_keep_every_neighborhood_witness :
  map minimal_base (minimal base2 mob2 parks2 []) = base2
  /\ map merged_base (merged base2 mob2 parks2 [] [] []) = base2.
Proof.
  pose proof (merged_tables_keep_every_neighborhood base2 mob2 parks2 [] [] []) as T.
  cbv zeta in T.
  assert (Hb : NoDup (map base_key2 base2)) by (apply (bool_decide_unpack _); vm_compute; exact I).
  assert (Hm : NoDup (map mob_key4 mob2)) by (apply (bool_decide_unpack _); vm_compute; exact I).
  assert (Hp : NoDup (map parks_key2 parks2)) by (apply (bool_decide_unpack _); vm_compute; exact I).
  destruct (T Hb Hm Hp (NoDup_nil_2) (NoDup_nil_2) (NoDup_nil_2)) as (T1 & T2 & _).
  split; [exact T1|exact T2].
Defined.

End pipeline_facts.

(** ** Mobility labels *)

Module mobility_facts.
Import numeric pandas geo labels_mobility pandas_facts scoring_facts.
Open Scope Q_scope.

Lemma zip_with_proj_l {A B C D : Type} (f : A -> B -> C) (g : C -> D) (h : A -> D)
    (l : list A) (k : list B) :
  (forall x y, g (f x y) = h x) ->
  length l = length k ->
  map g (zip_with f l k) = map h l.
Proof.
  intros Hg. revert k. induction l as [|x l IH]; intros [|y k] Hlen;
    simpl in *; try discriminate; [reflexivity|].
  rewrite Hg. f_equal. apply IH. lia.
Qed.

Lemma zip_with_proj_r {A B C D : Type} (f : A -> B -> C) (g : C -> D) (h : B -> D)
    (l : list A) (k : list B) :
  (forall x y, g (f x y) = h y) ->
  length l = length k ->
  map g (zip_with f l k) = map h k.
Proof.
  intros Hg. revert k. induction l as [|x l IH]; intros [|y k] Hlen;
    simpl in *; try discriminate; [reflexivity|].
  rewrite Hg. f_equal. apply IH. lia.
Qed.

Lemma zip_fst {A B : Type} (l : list A) (k : list B) :
  length l = length k -> map fst (zip l k) = l.
Proof.
  intros Hlen. rewrite (zip_with_proj_l pair fst id l k (fun _ _ => eq_refl) Hlen).
  apply map_id.
Qed.

Lemma zip_snd {A B : Type} (l : list A) (k : list B) :
  length l = length k -> map snd (zip l k) = k.
Proof.
  intros Hlen. rewrite (zip_with_proj_r pair snd id l k (fun _ _ => eq_refl) Hlen).
  apply map_id.
Qed.

Section with_geolib.
Context `{GeoLib}.

(** After [compute_area_km2] every row has its area and its effective
    area, the area floored at 0.20; nothing else changes. *)
Lemma compute_area_km2_lookup (gdf : Frame NeiRow) (i : nat) (r : NeiRow) :
  rows gdf !! i = Some r ->
  exists a,
    rows (compute_area_km2 gdf) !! i
    = Some (mkNeiRow (district_id r) (district r) (neighborhood_id r)
                     (neighborhood r) (neighborhood_canon r)
                     (Some a) (Some (Qmax a 0.20)) (geometry r)).
Proof.
  intros Hi. unfold compute_area_km2.
  destruct (has_column gdf "area_km2") eqn:Hhas; cbn [negb orb].
  - destruct (existsb _ (rows gdf)) eqn:Hex; cbn [rows].
    + rewrite !lookup_map, Hi. cbn.
      destruct (area_km2 r) as [a|]; eexists; reflexivity.
    + rewrite lookup_map, Hi. cbn.
      destruct (area_km2 r) as [a|] eqn:Ha;
        [exists a; unfold set_area_eff_km2; rewrite Ha; reflexivity|].
      assert (Hin : In r (rows gdf)) by (apply list_elem_of_In; eapply list_elem_of_lookup_2; exact Hi).
      assert (Hex' : existsb (fun r => bool_decide (area_km2 r = None)) (rows gdf) = true).
      { apply existsb_exists. exists r. split; [exact Hin|]. apply bool_decide_eq_true_2. exact Ha. }
      congruence.
  - cbn [rows]. rewrite !lookup_map, Hi. cbn. eexists; reflexivity.
Qed.

Lemma compute_area_km2_length (gdf : Frame NeiRow) :
  length (rows (compute_area_km2 gdf)) = length (rows gdf).
Proof.
  unfold compute_area_km2.
  destruct (negb (has_column gdf "area_km2") || _); [destruct (has_column gdf "area_km2")|];
    cbn [rows]; now rewrite ?length_map.
Qed.

Lemma count_by_polygon_NoDup (pts : list (Point * nat)) :
  NoDup (map fst (count_by_polygon pts)).
Proof.
  unfold count_by_polygon. rewrite map_map. cbn [fst].
  apply (groupby_NoDup snd pts).
Qed.

(** A polygon no point lies within has no row among the counts. *)
Lemma no_point_no_count (rs : list NeiRow) (pts : list Point) (i : nat) (r : NeiRow) :
  rs !! i = Some r ->
  (forall p, p ∈ pts -> within p (geometry r) = false) ->
  match_of fst (count_by_polygon (points_within (indexed_polygons rs) pts)) i = None.
Proof.
  intros Hi Hout. apply match_of_none. intros [j n] Hc Hj. cbn in Hj. subst j.
  unfold count_by_polygon in Hc.
  apply list_elem_of_In, in_map_iff in Hc as ([k g] & Heq & Hg).
  cbn in Heq. inversion Heq; subst k n. clear Heq.
  apply list_elem_of_In, groupby_elem in Hg as [Hk _].
  apply list_elem_of_In, in_map_iff in Hk as ([p j] & Hj & Hp). cbn in Hj. subst j.
  unfold points_within in Hp. apply in_flat_map in Hp as (p' & Hp' & Hin).
  apply in_map_iff in Hin as ([j gm] & Heq & Hf). cbn in Heq. inversion Heq; subst p' j.
  apply filter_In in Hf as [Hpoly Hw]. cbn in Hw.
  unfold indexed_polygons in Hpoly.
  apply in_map_iff in Hpoly as ([j r'] & Heq' & Hir). cbn in Heq'. inversion Heq'; subst j gm.
  apply list_elem_of_In, elem_of_lookup_imap in Hir as (j & r'' & Heq'' & Hj).
  inversion Heq''; subst j r''.
  assert (r' = r) by congruence. subst r'.
  rewrite (Hout p) in Hw by now apply list_elem_of_In.
  discriminate Hw.
Qed.

(** The rows of [mobility_counts], polygon by polygon. *)
Lemma mobility_counts_rows (gdf : Frame NeiRow) (g_ubahn g_bus : list Point) :
  mobility_counts gdf g_ubahn g_bus
  = imap (fun i r =>
            let u := fillna0_int (match_of fst
                       (count_by_polygon (points_within (indexed_polygons (rows gdf)) g_ubahn)) i) in
            let b := fillna0_int (match_of fst
                       (count_by_polygon (points_within (indexed_polygons (rows gdf)) g_bus)) i) in
            (r, u, b, fdiv (Some (0.7 * inject_Z u + 0.3 * inject_Z b)) (area_eff_km2 r)))
         (rows gdf).
Proof.
  unfold mobility_counts. cbv zeta. fold (indexed_polygons (rows gdf)).
  rewrite (merge_left_unique fst fst _ _ (count_by_polygon_NoDup _)).
  rewrite (merge_left_unique _ fst _ _ (count_by_polygon_NoDup _)).
  rewrite !map_map. cbn [fst snd].
  change (map ?f (imap ?g ?l)) with (f <$> imap g l).
  rewrite fmap_imap. apply imap_ext. intros i r _. reflexivity.
Qed.

Lemma mobility_counts_length (gdf : Frame NeiRow) (g_ubahn g_bus : list Point) :
  length (mobility_counts gdf g_ubahn g_bus) = length (rows gdf).
Proof. rewrite mobility_counts_rows. apply length_imap. Qed.

Lemma zero_density (a : Q) :
  exists d,
    fdiv (Some (0.7 * inject_Z 0 + 0.3 * inject_Z 0)) (Some (Qmax a 0.20)) = Some d
    /\ d == 0.
Proof.
  pose proof (Q.le_max_r a 0.20) as Hmax.
  eexists. split; [apply fdiv_some; lra|].
  change (inject_Z 0) with 0. unfold Qdiv. ring.
Qed.

(** The table that [compute_mobility_labels] returns once its inputs are
    accepted: the counts and densities, then the score of the densities,
    then the label of the scores. *)
Lemma compute_mobility_labels_columns
    (gdf_nei : Frame NeiRow) (df_ubahn df_bus_tram : PointTable) :
  issubset ["district_id"; "neighborhood_id"; "neighborhood"] (columns gdf_nei) = true ->
  located df_ubahn = true ->
  located df_bus_tram = true ->
  exists out,
    compute_mobility_labels gdf_nei df_ubahn df_bus_tram = inr out
    /\ length out = length (rows gdf_nei)
    /\ map (fun m => (ubahn_stations m, bus_tram_stops m, total_stops m, connectivity_density m))
           out
       = map (fun x => let '(_, u, b, d) := x in (u, b, (u + b)%Z, d))
             (mobility_counts (compute_area_km2 gdf_nei) (points df_ubahn) (points df_bus_tram))
    /\ map mobility_score out
       = percentile_score (map connectivity_density out) lo_default hi_default
    /\ map mobility_label out
       = tercile_labels (map mobility_score out) mobility_labels.
Proof.
  intros Hcols Hu Hb. unfold compute_mobility_labels, to_points_gdf, ensure_wgs84.
  rewrite Hcols, Hu, Hb. cbn [negb ret]. cbv zeta.
  set (out0 := mobility_counts (compute_area_km2 gdf_nei) (points df_ubahn) (points df_bus_tram)).
  set (score := percentile_score (map snd out0) lo_default hi_default).
  set (label := tercile_labels score mobility_labels).
  assert (Hl0 : length out0 = length (rows gdf_nei))
    by (unfold out0; now rewrite mobility_counts_length, compute_area_km2_length).
  assert (Hls : length score = length out0)
    by (unfold score; now rewrite percentile_score_length, length_map).
  assert (Hll : length label = length score)
    by (unfold label; apply tercile_labels_length).
  assert (Hz : length out0 = length (zip score label))
    by (rewrite length_zip_with; lia).
  eexists. split; [reflexivity|].
  assert (Hd : forall F : NeiRow * Z * Z * option Q -> option Q * string -> MobilityRow,
             F = (fun x sl =>
                    let '(r, u, b, d) := x in
                    mkMobilityRow (district_id r) (neighborhood_id r) (neighborhood r)
                      (text.canon_nh (neighborhood r)) u b (u + b)%Z d (fst sl) (snd sl)) ->
             map connectivity_density (zip_with F out0 (zip score label)) = map snd out0
             /\ map mobility_score (zip_with F out0 (zip score label)) = score
             /\ map mobility_label (zip_with F out0 (zip score label)) = label).
  { intros F ->. repeat split.
    - apply zip_with_proj_l; [|exact Hz]. now intros [[[? ?] ?] ?] ?.
    - rewrite (zip_with_proj_r _ mobility_score fst); [now apply zip_fst| |exact Hz].
      now intros [[[? ?] ?] ?] ?.
    - rewrite (zip_with_proj_r _ mobility_label snd); [now apply zip_snd| |exact Hz].
      now intros [[[? ?] ?] ?] ?. }
  destruct (Hd _ eq_refl) as (Hd1 & Hd2 & Hd3).
  split; [rewrite length_zip_with; lia|].
  split; [apply zip_with_proj_l; [now intros [[[? ?] ?] ?] ?|exact Hz]|].
  split; [now rewrite Hd1, Hd2|now rewrite Hd2, Hd3].
Qed.

(** C10. In [compute_mobility_labels] a polygon no transit point lies
    within has the integer counts 0, 0 and 0 and the density 0 (not
    nulls): its density is an entry of the series that
    [percentile_score] scores and [tercile_labels] labels, and its score
    is a number.  In the merged table, by contrast, a neighbourhood
    without a row in the parks, playgrounds or venues table has nulls in
    that theme's columns. *)
Theorem unmatched_polygon_counts_zero
    (gdf_nei : Frame NeiRow) (df_ubahn df_bus_tram : PointTable)
    (i : nat) (r : NeiRow) :
  issubset ["district_id"; "neighborhood_id"; "neighborhood"] (columns gdf_nei) = true ->
  located df_ubahn = true ->
  located df_bus_tram = true ->
  rows gdf_nei !! i = Some r ->
  (forall p, p ∈ points df_ubahn -> within p (geometry r) = false) ->
  (forall p, p ∈ points df_bus_tram -> within p (geometry r) = false) ->
  (exists out row d s,
     compute_mobility_labels gdf_nei df_ubahn df_bus_tram = inr out
     /\ length out = length (rows gdf_nei)
     /\ out !! i = Some row
     /\ ubahn_stations row = 0%Z
     /\ bus_tram_stops row = 0%Z
     /\ total_stops row = 0%Z
     /\ connectivity_density row = Some d /\ d == 0
     /\ map mobility_score out
        = percentile_score (map connectivity_density out) lo_default hi_default
     /\ map mobility_label out
        = tercile_labels (map mobility_score out) mobility_labels
     /\ map connectivity_density out !! i = Some (Some d)
     /\ mobility_score row = Some s /\ 0 <= s <= 100)
  /\ (forall base mob parks plays venF venV b m p l f v,
        NoDup (map pipeline.mob_key4 mob) ->
        NoDup (map pipeline.parks_key2 parks) ->
        NoDup (map pipeline.plays_key2 plays) ->
        NoDup (map pipeline.venF_key2 venF) ->
        NoDup (map pipeline.venV_key2 venV) ->
        (b, m, p, l, f, v) ∈ pipeline.merged base mob parks plays venF venV ->
        ((forall x, x ∈ parks -> pipeline.parks_key2 x <> pipeline.base_key2 b) -> p = None)
        /\ ((forall x, x ∈ plays -> pipeline.plays_key2 x <> pipeline.base_key2 b) -> l = None)
        /\ ((forall x, x ∈ venF -> pipeline.venF_key2 x <> pipeline.base_key2 b) -> f = None)
        /\ ((forall x, x ∈ venV -> pipeline.venV_key2 x <> pipeline.base_key2 b) -> v = None)).
Proof.
  intros Hcols Hu Hb Hi Hnu Hnb. split.
  - destruct (compute_mobility_labels_columns gdf_nei df_ubahn df_bus_tram Hcols Hu Hb)
      as (out & Hout & Hlen & Hcnt & Hscore & Hlabel).
    destruct (compute_area_km2_lookup gdf_nei i r Hi) as (a & Hr').
    set (r' := mkNeiRow (district_id r) (district r) (neighborhood_id r)
                 (neighborhood r) (neighborhood_canon r)
                 (Some a) (Some (Qmax a 0.20)) (geometry r)) in Hr'.
    destruct (zero_density a) as (d & Hd & Hd0).
    assert (H0 : mobility_counts (compute_area_km2 gdf_nei) (points df_ubahn)
                   (points df_bus_tram) !! i
                 = Some (r', 0%Z, 0%Z, Some d)).
    { rewrite mobility_counts_rows, list_lookup_imap, Hr'. cbn [fmap option_fmap option_map].
      rewrite (no_point_no_count _ _ i r' Hr' Hnu), (no_point_no_count _ _ i r' Hr' Hnb).
      cbn [fillna0_int area_eff_km2 r']. now rewrite Hd. }
    assert (Hrow : exists row, out !! i = Some row).
    { apply lookup_lt_is_Some. rewrite Hlen. eapply lookup_lt_Some. exact Hi. }
    destruct Hrow as [row Hrow].
    assert (Hfields : (ubahn_stations row, bus_tram_stops row, total_stops row,
                       connectivity_density row) = (0%Z, 0%Z, 0%Z, Some d)).
    { assert (E : map (fun m => (ubahn_stations m, bus_tram_stops m, total_stops m,
                                 connectivity_density m)) out !! i
                  = Some (0%Z, 0%Z, 0%Z, Some d))
        by (rewrite Hcnt, lookup_map, H0; reflexivity).
      rewrite lookup_map, Hrow in E. now inversion E. }
    injection Hfields as Hf1 Hf2 Hf3 Hf4.
    assert (Hdi : map connectivity_density out !! i = Some (Some d))
      by (now rewrite lookup_map, Hrow; cbn; rewrite Hf4).
    destruct (percentile_score_entry _ lo_default hi_default i d Hdi)
      as (p_lo & p_hi & s & _ & _ & Hs & _ & Hbound).
    rewrite <- Hscore, lookup_map, Hrow in Hs. cbn in Hs.
    exists out, row, d, s.
    split; [exact Hout|]. split; [exact Hlen|]. split; [exact Hrow|].
    split; [exact Hf1|]. split; [exact Hf2|]. split; [exact Hf3|].
    split; [exact Hf4|]. split; [exact Hd0|]. split; [exact Hscore|].
    split; [exact Hlabel|]. split; [exact Hdi|].
    split; [congruence|exact Hbound].
  - intros base mob parks plays venF venV b m p l f v Hm Hp Hl Hf Hv Hin.
    rewrite (pipeline_facts.merged_rows _ _ _ _ _ _ Hm Hp Hl Hf Hv) in Hin.
    apply list_elem_of_In, in_map_iff in Hin as (b' & Heq & _).
    inversion Heq; subst.
    repeat split; intros Hno; now apply match_of_none.
Qed.

End with_geolib.

Lemma unmatched_polygon_counts_zero_witness :
  exists out row d s,
    @compute_mobility_labels examples.grid examples.two_neighbourhoods
      examples.two_stations examples.one_stop = inr out
    /\ length out = 2%nat
    /\ out !! 1%nat = Some row
    /\ ubahn_stations row = 0%Z
    /\ bus_tram_stops row = 0%Z
    /\ total_stops row = 0%Z
    /\ connectivity_density row = Some d /\ d == 0
    /\ mobility_score row = Some s.
Proof.
  destruct (@unmatched_polygon_counts_zero examples.grid examples.two_neighbourhoods
              examples.two_stations examples.one_stop 1%nat
              (@mkNeiRow examples.grid (IdInt 1) IdNaN (IdInt 102) (text.PyStr "Wedding")
                 EmptyString None None (10, 0, 20, 10)%Z))
    as [(out & row & d & s & H1 & H2 & H3 & H4 & H5 & H6 & H7 & H8 & _ & _ & _ & H9 & _) _].
  - vm_compute. reflexivity.
  - reflexivity.
  - reflexivity.
  - reflexivity.
  - intros p Hp. apply list_elem_of_In in Hp. cbn in Hp.
    destruct Hp as [<-|[<-|[]]]; reflexivity.
  - intros p Hp. apply list_elem_of_In in Hp. cbn in Hp.
    destruct Hp as [<-|[]]; reflexivity.
  - exists out, row, d, s. repeat (split; [assumption|]). assumption.
Defined.

(** The scenario of the specification: densities 1.7 and 0, scores 100
    and 0, labels well-connected and remote. *)
Example two_neighbourhoods_scenario :
  option_map
    (map (fun m => (ubahn_stations m, bus_tram_stops m, total_stops m,
                    option_map Qred (connectivity_density m),
                    option_map Qred (mobility_score m), mobility_label m)))
    (match @compute_mobility_labels examples.grid examples.two_neighbourhoods
             examples.two_stations examples.one_stop with
     | inr out => Some out
     | inl _ => None
     end)
  = Some [ (2%Z, 1%Z, 3%Z, Some 1.7, Some 100, "well-connected");
           (0%Z, 0%Z, 0%Z, Some 0, Some 0, "remote") ].
Proof. vm_compute. reflexivity. Qed.

End mobility_facts.

(** ** District aggregation of mobility *)

Module aggregate_facts.
Import numeric pandas geo labels_mobility aggregate pandas_facts scoring_facts mobility_facts.
Open Scope Q_scope.

Lemma elem_of_present (c : string) (wanted cols : list string) :
  c ∈ present wanted cols <-> c ∈ wanted /\ c ∈ cols.
Proof.
  unfold present. rewrite !list_elem_of_In, filter_In, bool_decide_eq_true.
  now rewrite !list_elem_of_In.
Qed.

Section with_geolib.
Context `{GeoLib}.

Lemma sum_area_rows (gdf : Frame NeiRow) :
  "district_id" ∈ columns gdf ->
  "area_eff_km2" ∈ columns gdf ->
  district_by_id gdf ->
  exists area,
    _sum_area gdf = inr area
    /\ has_column area "district_id" = true
    /\ has_column area "area_eff_km2" = true
    /\ NoDup (map a_district_id (rows area))
    /\ (forall x, x ∈ rows area ->
          a_district_id x ∈ map district_id (rows gdf)
          /\ a_area_eff_km2 x
             = nansum (map area_eff_km2 (polygons_of (rows gdf) (a_district_id x))))
    /\ (forall k, k ∈ map district_id (rows gdf) ->
          exists x, x ∈ rows area /\ a_district_id x = k).
Proof.
  intros Hid Heff Hfd. unfold _sum_area.
  set (cols := present ["district_id"; "district"; "area_km2"; "area_eff_km2"] (columns gdf)).
  set (keys := present ["district_id"; "district"] cols).
  assert (Hidc : "district_id" ∈ cols)
    by (apply elem_of_present; split; [apply list_elem_of_here|exact Hid]).
  assert (Heffc : "area_eff_km2" ∈ cols)
    by (apply elem_of_present; split; [do 3 apply list_elem_of_further; apply list_elem_of_here|exact Heff]).
  assert (Hidk : "district_id" ∈ keys)
    by (apply elem_of_present; split; [apply list_elem_of_here|exact Hidc]).
  destruct keys as [|k0 ks] eqn:Hkeys; [now apply elem_of_nil in Hidk|].
  clear Hkeys.
  rewrite (bool_decide_eq_true_2 _ Hidc), (bool_decide_eq_true_2 _ Heffc).
  set (key := fun r : NeiRow =>
                (district_id r, if bool_decide ("district" ∈ cols) then district r else IdNaN)).
  assert (Hkey : forall r r', r ∈ rows gdf -> r' ∈ rows gdf ->
                   district_id r = district_id r' -> key r = key r').
  { intros r r' Hr Hr' E. unfold key. rewrite E. f_equal.
    destruct (bool_decide ("district" ∈ cols)); [now apply Hfd|reflexivity]. }
  eexists. split; [reflexivity|].
  split.
  { apply bool_decide_eq_true_2. cbn [columns].
    destruct (negb _ && _); [apply elem_of_app; left|];
      apply elem_of_app; left; exact Hidk. }
  split.
  { apply bool_decide_eq_true_2. cbn [columns].
    assert (Hp : "area_eff_km2" ∈ present ["area_km2"; "area_eff_km2"] cols).
    { apply elem_of_present. split; [|exact Heffc].
      apply list_elem_of_further, list_elem_of_here. }
    destruct (negb _ && _); [apply elem_of_app; left|];
      apply elem_of_app; right; exact Hp. }
  cbn [rows]. rewrite !map_map. cbn [a_district_id fst snd].
  split.
  { change (map ?f ?l) with (f <$> l).
    apply NoDup_fmap_2_strong; [|apply groupby_NoDup_rows].
    intros [k g] [k' g'] Hx Hy E. cbn in E.
    apply (groupby_elem key) in Hx as [Hk ->], Hy as [Hk' ->].
    apply list_elem_of_In, in_map_iff in Hk as (r & <- & Hr).
    apply list_elem_of_In, in_map_iff in Hk' as (r' & <- & Hr').
    apply list_elem_of_In in Hr, Hr'.
    now rewrite (Hkey r r' Hr Hr' E). }
  split.
  - intros x Hx. apply list_elem_of_In, in_map_iff in Hx as ([k g] & <- & Hg).
    cbn [a_district_id a_area_eff_km2 fst snd].
    apply list_elem_of_In, (groupby_elem key) in Hg as [Hk ->].
    apply list_elem_of_In, in_map_iff in Hk as (r0 & <- & Hr0).
    split; [apply list_elem_of_In, in_map_iff; now exists r0|].
    do 2 f_equal. unfold polygons_of. apply filter_ext_in. intros r Hr.
    apply list_elem_of_In in Hr, Hr0. cbn [key fst].
    apply bool_decide_ext. split; [now intros [= E _]|].
    intros E. now apply Hkey.
  - intros k Hk. apply list_elem_of_In, in_map_iff in Hk as (r0 & <- & Hr0).
    assert (Hin : key r0 ∈ map fst (groupby key (rows gdf))).
    { rewrite groupby_keys, elem_of_remove_dups.
      apply list_elem_of_In, in_map_iff. now exists r0. }
    apply list_elem_of_In, in_map_iff in Hin as ([k g] & Hkg & Hg). cbn in Hkg.
    eexists. split.
    + apply list_elem_of_In, in_map_iff. exists (k, g). split; [reflexivity|exact Hg].
    + cbn. now rewrite Hkg.
Qed.


Lemma polygons_of_elem (rs : list NeiRow) (k : ident) :
  k ∈ map district_id rs <-> polygons_of rs k <> [].
Proof.
  unfold polygons_of. split.
  - intros Hk Hnil. apply list_elem_of_In, in_map_iff in Hk as (r & <- & Hr).
    assert (Hin : In r (List.filter (fun r0 => bool_decide (district_id r0 = district_id r)) rs))
      by (apply filter_In; split; [exact Hr|now apply bool_decide_eq_true_2]).
    now rewrite Hnil in Hin.
  - intros Hne. destruct (List.filter _ rs) as [|r l] eqn:E; [congruence|].
    assert (Hin : In r (List.filter (fun r0 => bool_decide (district_id r0 = k)) rs))
      by (rewrite E; now left).
    apply filter_In in Hin as [Hr Hk]. apply bool_decide_eq_true in Hk.
    apply list_elem_of_In, in_map_iff. now exists r.
Qed.

(** The table of [_sum_area] for polygons with a [district_id] column and
    one name per district. *)
Lemma sum_area_table (gdf : Frame NeiRow) :
  "district_id" ∈ columns gdf ->
  district_by_id gdf ->
  exists area,
    _sum_area gdf = inr area
    /\ "district_id" ∈ columns area
    /\ ("area_km2" ∈ columns area <-> "area_km2" ∈ columns gdf)
    /\ ("area_eff_km2" ∈ columns area
        <-> "area_eff_km2" ∈ columns gdf \/ "area_km2" ∈ columns gdf)
    /\ NoDup (map a_district_id (rows area))
    /\ (forall x, x ∈ rows area ->
          let pol := polygons_of (rows gdf) (a_district_id x) in
          pol <> []
          /\ a_area_km2 x = nansum (map area_km2 pol)
          /\ a_area_eff_km2 x
             = if bool_decide ("area_eff_km2" ∈ columns gdf)
               then nansum (map area_eff_km2 pol)
               else Qmax (nansum (map area_km2 pol)) 0.20)
    /\ (forall k, polygons_of (rows gdf) k <> [] ->
          exists x, x ∈ rows area /\ a_district_id x = k).
Proof.
  intros Hid Hfd. unfold _sum_area.
  set (cols := present ["district_id"; "district"; "area_km2"; "area_eff_km2"] (columns gdf)).
  set (keys := present ["district_id"; "district"] cols).
  assert (Hcols : forall c, c ∈ cols
                            <-> c ∈ ["district_id"; "district"; "area_km2"; "area_eff_km2"]
                                /\ c ∈ columns gdf)
    by (intros c; apply elem_of_present).
  assert (Hidc : "district_id" ∈ cols)
    by (apply Hcols; split; [apply list_elem_of_here|exact Hid]).
  assert (Hidk : "district_id" ∈ keys)
    by (apply elem_of_present; split; [apply list_elem_of_here|exact Hidc]).
  assert (Hkeys : forall c, c ∈ keys -> c = "district_id" \/ c = "district").
  { intros c Hc. apply elem_of_present in Hc as [Hc _].
    apply elem_of_cons in Hc as [->|Hc]; [now left|].
    apply list_elem_of_singleton in Hc. now right. }
  destruct keys as [|k0 ks] eqn:Ek; [now apply elem_of_nil in Hidk|].
  rewrite <- Ek in *. clear Ek k0 ks.
  rewrite (bool_decide_eq_true_2 _ Hidc).
  assert (Heff : bool_decide ("area_eff_km2" ∈ cols)
                 = bool_decide ("area_eff_km2" ∈ columns gdf)).
  { apply bool_decide_ext. rewrite Hcols. split; [tauto|]. intros Hc.
    split; [do 3 apply list_elem_of_further; apply list_elem_of_here|exact Hc]. }
  rewrite Heff.
  set (key := fun r : NeiRow =>
                (district_id r, if bool_decide ("district" ∈ cols) then district r else IdNaN)).
  assert (Hkey : forall r r', r ∈ rows gdf -> r' ∈ rows gdf ->
                   district_id r = district_id r' -> key r = key r').
  { intros r r' Hr Hr' E. unfold key. rewrite E. f_equal.
    destruct (bool_decide ("district" ∈ cols)); [now apply Hfd|reflexivity]. }
  assert (Hgroup : forall k g, (k, g) ∈ groupby key (rows gdf) ->
                     g = polygons_of (rows gdf) (fst k) /\ g <> []).
  { intros k g Hg. apply (groupby_elem key) in Hg as [Hk ->].
    apply list_elem_of_In, in_map_iff in Hk as (r0 & <- & Hr0).
    split.
    - unfold polygons_of. apply filter_ext_in. intros r Hr.
      apply list_elem_of_In in Hr, Hr0. cbn [key fst].
      apply bool_decide_ext. split; [now intros [= E _]|].
      intros E. now apply Hkey.
    - intros E.
      assert (Hin : In r0 (List.filter (fun r => bool_decide (key r = key r0)) (rows gdf)))
        by (apply filter_In; split; [exact Hr0|now apply bool_decide_eq_true_2]).
      now rewrite E in Hin. }
  set (areas := present ["area_km2"; "area_eff_km2"] cols).
  assert (Hareas : forall c, c ∈ areas <-> (c = "area_km2" \/ c = "area_eff_km2") /\ c ∈ columns gdf).
  { intros c. unfold areas. rewrite elem_of_present, Hcols. split.
    - intros [Hc [_ Hc']]. split; [|exact Hc'].
      apply elem_of_cons in Hc as [->|Hc]; [now left|].
      apply list_elem_of_singleton in Hc. now right.
    - intros [[->| ->] Hc].
      + split; [apply list_elem_of_here|].
        split; [do 2 apply list_elem_of_further; apply list_elem_of_here|exact Hc].
      + split; [apply list_elem_of_further, list_elem_of_here|].
        split; [do 3 apply list_elem_of_further; apply list_elem_of_here|exact Hc]. }
  eexists. split; [reflexivity|]. cbn [columns rows].
  set (grp_cols := (keys ++ areas)%list).
  assert (Hg1 : forall c, c ∈ (if negb (bool_decide ("area_eff_km2" ∈ grp_cols))
                               && bool_decide ("area_km2" ∈ grp_cols)
                            then (grp_cols ++ ["area_eff_km2"])%list else grp_cols)
                          <-> c ∈ keys \/ c ∈ areas
                              \/ (c = "area_eff_km2" /\ "area_km2" ∈ columns gdf)).
  { intros c.
    assert (Ha : "area_km2" ∈ grp_cols <-> "area_km2" ∈ columns gdf).
    { unfold grp_cols. rewrite elem_of_app, Hareas. split.
      - intros [Hk|[_ Hc]]; [apply Hkeys in Hk as [Hk|Hk]; discriminate Hk|exact Hc].
      - intros Hc. right. split; [now left|exact Hc]. }
    assert (He : "area_eff_km2" ∈ grp_cols <-> "area_eff_km2" ∈ columns gdf).
    { unfold grp_cols. rewrite elem_of_app, Hareas. split.
      - intros [Hk|[_ Hc]]; [apply Hkeys in Hk as [Hk|Hk]; discriminate Hk|exact Hc].
      - intros Hc. right. split; [now right|exact Hc]. }
    destruct (bool_decide ("area_eff_km2" ∈ grp_cols)) eqn:E1; cbn [negb andb].
    - apply bool_decide_eq_true in E1. unfold grp_cols. rewrite elem_of_app.
      split; [tauto|]. intros [Hc|[Hc|[-> Hc]]]; [tauto|tauto|].
      right. apply Hareas. split; [now right|]. now apply He.
    - destruct (bool_decide ("area_km2" ∈ grp_cols)) eqn:E2.
      + apply bool_decide_eq_true in E2. rewrite elem_of_app. unfold grp_cols.
        rewrite elem_of_app, list_elem_of_singleton. apply Ha in E2. tauto.
      + apply bool_decide_eq_false in E2. unfold grp_cols. rewrite elem_of_app.
        split; [tauto|]. intros [Hc|[Hc|[_ Hc]]]; [tauto|tauto|]. now apply Ha in Hc. }
  split; [apply Hg1; now left|].
  split.
  { rewrite Hg1, Hareas. split.
    - intros [Hk|[[_ Hc]|[Hc _]]]; [apply Hkeys in Hk as [Hk|Hk]; discriminate Hk|exact Hc|discriminate Hc].
    - intros Hc. right. left. split; [now left|exact Hc]. }
  split.
  { rewrite Hg1, Hareas. split.
    - intros [Hk|[[_ Hc]|[_ Hc]]]; [apply Hkeys in Hk as [Hk|Hk]; discriminate Hk|now left|now right].
    - intros [Hc|Hc]; [right; left; split; [now right|exact Hc]|right; right; now split]. }
  rewrite !map_map. cbn [a_district_id fst snd].
  split.
  { change (map ?f ?l) with (f <$> l).
    apply NoDup_fmap_2_strong; [|apply groupby_NoDup_rows].
    intros [k g] [k' g'] Hx Hy E. cbn in E.
    apply (groupby_elem key) in Hx as [Hk ->], Hy as [Hk' ->].
    apply list_elem_of_In, in_map_iff in Hk as (r & <- & Hr).
    apply list_elem_of_In, in_map_iff in Hk' as (r' & <- & Hr').
    apply list_elem_of_In in Hr, Hr'.
    now rewrite (Hkey r r' Hr Hr' E). }
  split.
  - intros x Hx. cbv zeta.
    apply list_elem_of_In, in_map_iff in Hx as ([k g] & <- & Hg).
    cbn [a_district_id a_area_km2 a_area_eff_km2 fst snd].
    apply list_elem_of_In, Hgroup in Hg as [-> Hne]. cbn [fst].
    split; [exact Hne|]. split; reflexivity.
  - intros k Hk. apply polygons_of_elem in Hk.
    apply list_elem_of_In, in_map_iff in Hk as (r0 & <- & Hr0).
    assert (Hin : key r0 ∈ map fst (groupby key (rows gdf))).
    { rewrite groupby_keys, elem_of_remove_dups.
      apply list_elem_of_In, in_map_iff. now exists r0. }
    apply list_elem_of_In, in_map_iff in Hin as ([k g] & Hkg & Hg). cbn in Hkg.
    eexists. split.
    + apply list_elem_of_In, in_map_iff. exists (k, g). split; [reflexivity|exact Hg].
    + cbn. now rewrite Hkg.
Qed.


End with_geolib.



(** The district of the sample: density [(0.7 * 2 + 0.3 * 1) / (1 + 3)],
    not the mean 0.85 of the neighbourhood densities 1.7 and 0. *)
Example district_density_sample :
  option_map (map (fun d => option_map Qred (d_connectivity_density d)))
    (match @aggregate_mobility_to_district examples.grid
             examples.two_label_rows examples.two_areas with
     | inr out => Some out
     | inl _ => None
     end)
  = Some [Some (Qred 0.425)].
Proof. vm_compute. reflexivity. Qed.

End aggregate_facts.

(** ** Validation of required columns *)

Module validation_facts.
Import pystr pandas geo aggregate.

Lemma of_string_app (a b : string) :
  of_string (a ++ b) = (of_string a ++ of_string b)%list.
Proof. induction a as [|c a IH]; [reflexivity|]. simpl. now rewrite <- IH. Qed.

Lemma starts_with_app (n x : chars) : starts_with n (n ++ x)%list = true.
Proof.
  induction n as [|c n IH]; [reflexivity|]. simpl.
  now rewrite Ascii.eqb_refl, IH.
Qed.

Lemma starts_with_grow (n a b : chars) :
  starts_with n a = true -> starts_with n (a ++ b)%list = true.
Proof.
  revert a. induction n as [|c n IH]; intros a Ha; [reflexivity|].
  destruct a as [|d a]; [discriminate Ha|]. simpl in *.
  apply andb_prop in Ha as [Hc Ha]. now rewrite Hc, (IH a Ha).
Qed.

Lemma contains_unfold (n h : chars) :
  contains n h
  = starts_with n h || match h with [] => false | _ :: h' => contains n h' end.
Proof. now destruct h. Qed.

Lemma contains_here (n x : chars) : contains n (n ++ x)%list = true.
Proof. rewrite contains_unfold. now rewrite starts_with_app. Qed.

Lemma contains_skip (n a b : chars) :
  contains n b = true -> contains n (a ++ b)%list = true.
Proof.
  intros Hb. induction a as [|c a IH]; [exact Hb|].
  rewrite contains_unfold. simpl. rewrite IH. apply orb_true_r.
Qed.

Lemma contains_grow (n a b : chars) :
  contains n a = true -> contains n (a ++ b)%list = true.
Proof.
  induction a as [|c a IH]; intros Ha.
  - rewrite contains_unfold, orb_false_r in Ha.
    destruct n; [now rewrite contains_unfold|discriminate Ha].
  - rewrite contains_unfold in Ha. apply orb_prop in Ha as [Ha|Ha].
    + now rewrite contains_unfold, (starts_with_grow _ _ b Ha).
    + rewrite contains_unfold.
      change ((c :: a) ++ b)%list with (c :: (a ++ b)%list). cbv iota.
      rewrite (IH Ha). apply orb_true_r.
Qed.

Lemma mentions_here (c post : string) : mentions (c ++ post) c = true.
Proof. unfold mentions. fold (of_string (c ++ post)). rewrite of_string_app. apply contains_here. Qed.

Lemma mentions_skip (pre msg c : string) :
  mentions msg c = true -> mentions (pre ++ msg) c = true.
Proof.
  unfold mentions. fold (of_string (pre ++ msg)). rewrite of_string_app. apply contains_skip.
Qed.

Lemma mentions_grow (msg post c : string) :
  mentions msg c = true -> mentions (msg ++ post) c = true.
Proof.
  unfold mentions. fold (of_string (msg ++ post)). rewrite of_string_app. apply contains_grow.
Qed.

Lemma mentions_repr_str (c : string) : mentions (repr_str c) c = true.
Proof. unfold repr_str. apply mentions_skip, mentions_here. Qed.

Lemma mentions_join (sep : string) (l : list string) (c : string) :
  c ∈ l -> mentions (join sep (map repr_str l)) c = true.
Proof.
  induction l as [|x l IH]; intros Hc; [now apply elem_of_nil in Hc|].
  apply elem_of_cons in Hc as [->|Hc].
  - destruct l as [|y l]; [apply mentions_repr_str|].
    cbn [map join]. apply mentions_grow, mentions_repr_str.
  - destruct l as [|y l]; [now apply elem_of_nil in Hc|].
    cbn [map join] in *. now apply mentions_skip, mentions_skip, IH.
Qed.

(** The message of a builder names every missing column. *)
Lemma mentions_missing (prefix : string) (missing : gset string) (c : string) :
  c ∈ missing -> mentions (prefix ++ repr_set missing) c = true.
Proof.
  intros Hc. unfold repr_set.
  apply mentions_skip, mentions_skip, mentions_grow, mentions_join.
  now apply elem_of_elements.
Qed.

Lemma missing_nonempty (required : gset string) (cols : list string) (c : string) :
  c ∈ required -> c ∉ cols ->
  bool_decide (required ∖ list_to_set cols = (∅ : gset string)) = false.
Proof.
  intros Hr Hc. apply bool_decide_eq_false_2. intros He.
  assert (Hin : c ∈ required ∖ (list_to_set cols : gset string))
    by (apply elem_of_difference; split; [exact Hr|now rewrite elem_of_list_to_set]).
  rewrite He in Hin. now apply not_elem_of_empty in Hin.
Qed.

Lemma in_missing (required : gset string) (cols : list string) (c : string) :
  c ∈ required -> c ∉ cols -> c ∈ required ∖ (list_to_set cols : gset string).
Proof. intros Hr Hc. apply elem_of_difference. now rewrite elem_of_list_to_set. Qed.

Lemma issubset_false (req cols : list string) (c : string) :
  c ∈ req -> c ∉ cols -> issubset req cols = false.
Proof.
  intros Hr Hc. unfold issubset.
  destruct (forallb _ req) eqn:E; [|reflexivity].
  rewrite forallb_forall in E. apply list_elem_of_In in Hr.
  specialize (E c Hr). now apply bool_decide_eq_true in E.
Qed.

End validation_facts.

Module validation_claims.
Import pystr pandas geo aggregate validation_facts.

(** C8, as stated, fails for the mobility aggregation: without
    [ubahn_stations] it raises, but its message does not name the
    column. *)
Lemma aggregate_message_names_no_column :
  @aggregate_mobility_to_district examples.grid examples.no_ubahn_column examples.two_areas
  = inl (ValueError "nei_labels missing required mobility columns")
  /\ "ubahn_stations" ∈ req
  /\ ("ubahn_stations" ∉ columns examples.no_ubahn_column)
  /\ mentions "nei_labels missing required mobility columns" "ubahn_stations" = false.
Proof.
  split; [vm_compute; reflexivity|]. split; [unfold req; set_solver|].
  split; [|vm_compute; reflexivity].
  cbn. rewrite !not_elem_of_cons. repeat split; try discriminate. apply not_elem_of_nil.
Qed.

(** C8, amended. The parks, playgrounds and venues builders raise a
    [ValueError] whose message names every missing column as soon as a
    required column is absent, and return no table; the mobility
    aggregation raises too before computing anything, with the fixed
    message "nei_labels missing required mobility columns". *)
Theorem builders_validate_columns `{GeoLib} :
  (forall df c,
     c ∈ labels_parks.required -> c ∉ columns df ->
     exists msg,
       labels_parks.compute_parks_labels df = inl (ValueError msg)
       /\ forall c', c' ∈ labels_parks.required -> c' ∉ columns df ->
                     mentions msg c' = true)
  /\ (forall df c,
        c ∈ labels_playgrounds.required -> c ∉ columns df ->
        exists msg,
          labels_playgrounds.compute_playgrounds_labels df = inl (ValueError msg)
          /\ forall c', c' ∈ labels_playgrounds.required -> c' ∉ columns df ->
                        mentions msg c' = true)
  /\ (forall df c,
        c ∈ labels_venues.required -> c ∉ columns df ->
        exists msg,
          labels_venues.compute_venues_features df = inl (ValueError msg)
          /\ forall c', c' ∈ labels_venues.required -> c' ∉ columns df ->
                        mentions msg c' = true)
  /\ (forall nei_labels gdf_nei c,
        c ∈ req -> c ∉ columns nei_labels ->
        aggregate_mobility_to_district nei_labels gdf_nei
        = inl (ValueError "nei_labels missing required mobility columns")).
Proof.
  repeat split.
  - intros df c Hr Hc. unfold labels_parks.compute_parks_labels. cbv zeta.
    rewrite (missing_nonempty _ _ c Hr Hc). cbn [negb raise].
    eexists. split; [reflexivity|].
    intros c' Hr' Hc'. now apply mentions_missing, in_missing.
  - intros df c Hr Hc. unfold labels_playgrounds.compute_playgrounds_labels. cbv zeta.
    rewrite (missing_nonempty _ _ c Hr Hc). cbn [negb raise].
    eexists. split; [reflexivity|].
    intros c' Hr' Hc'. now apply mentions_missing, in_missing.
  - intros df c Hr Hc. unfold labels_venues.compute_venues_features. cbv zeta.
    rewrite (missing_nonempty _ _ c Hr Hc). cbn [negb raise].
    eexists. split; [reflexivity|].
    intros c' Hr' Hc'. now apply mentions_missing, in_missing.
  - intros nl gdf c Hr Hc. unfold aggregate_mobility_to_district.
    now rewrite (issubset_false _ _ c Hr Hc).
Qed.

Lemma builders_validate_columns_witness :
  exists msg,
    labels_parks.compute_parks_labels examples.no_size_column = inl (ValueError msg)
    /\ forall c', c' ∈ labels_parks.required -> c' ∉ columns examples.no_size_column ->
                  mentions msg c' = true.
Proof.
  apply (proj1 (@builders_validate_columns examples.grid) examples.no_size_column "size_sqm").
  - unfold labels_parks.required. set_solver.
  - cbn. rewrite !not_elem_of_cons. repeat split; try discriminate. apply not_elem_of_nil.
Defined.

(** The message of the parks builder on a table without [size_sqm]. *)
Example parks_message :
  labels_parks.compute_parks_labels examples.no_size_column
  = inl (ValueError "df_parks missing columns: {'size_sqm'}").
Proof. vm_compute. reflexivity. Qed.

End validation_claims.

(** ** The composite suitability score *)

Module app_facts.
Import numeric app.
Open Scope Q_scope.

Lemma comp_parts_none (g : Table) (w : gmap string Z) (fs : list (string * (string * bool))) :
  (forall name, weight_of w name <= 0) -> comp_parts g w fs = [].
Proof.
  intros Hw. induction fs as [|[name [col invert]] fs IH]; [reflexivity|].
  cbn [comp_parts]. pose proof (Hw name) as Hn. apply Qle_bool_iff in Hn.
  now rewrite Hn.
Qed.

Lemma nth_scale (s : Series) (c : Q) (i : nat) :
  nth i (scale s c) None = fmul (nth i s None) (Some c).
Proof.
  unfold scale. now rewrite <- (map_nth (fun x => fmul x (Some c)) s None i).
Qed.

Lemma nansum_cons (x : option Q) (s : Series) :
  nansum (x :: s) == default 0 x + nansum s.
Proof. destruct x as [x|]; unfold nansum, nonnull; cbn; ring. Qed.

(** Per row, the sum of the parts is the weighted sum. *)
Lemma comp_parts_sum (g : Table) (w : gmap string Z) (i : nat)
    (fs : list (string * (string * bool))) :
  nansum (map (fun p => nth i p None) (comp_parts g w fs))
  == fold_right Qplus 0 (map (contribution g w i) fs).
Proof.
  induction fs as [|[name [col invert]] fs IH]; [reflexivity|].
  cbn [comp_parts map fold_right contribution].
  destruct (Qle_bool (weight_of w name) 0).
  - rewrite IH. ring.
  - cbn [map]. rewrite nansum_cons, IH, nth_scale.
    unfold compute_component.
    destruct (nth i (percentile_score _ 10 90) None) as [y|]; cbn; ring.
Qed.

Lemma concat_sum_lookup (n : nat) (parts : list Series) (i : nat) (y : Q) :
  concat_sum n parts !! i = Some y ->
  y = nansum (map (fun p => nth i p None) parts).
Proof.
  unfold concat_sum. intros Hy.
  apply list_elem_of_lookup_2 in Hy as Hin.
  change (map ?f ?l) with (f <$> l) in Hy. rewrite list_lookup_fmap in Hy.
  destruct (seq 0 n !! i) as [j|] eqn:Hj; [|discriminate Hy].
  apply lookup_seq in Hj as [-> _]. cbn in Hy. now inversion Hy.
Qed.

Lemma suitability_lookup (g : Table) (w : gmap string Z) (i : nat) (y : Q) :
  dist_suitability g w !! i = Some y -> y == weighted_sum g w i.
Proof.
  unfold dist_suitability, weighted_sum. intros Hy.
  rewrite <- comp_parts_sum.
  destruct (comp_parts g w (features (dist_feature_map g))) as [|p parts] eqn:E.
  - apply list_elem_of_lookup_2, list_elem_of_In, repeat_spec in Hy.
    subst y. reflexivity.
  - now rewrite (concat_sum_lookup _ _ _ _ Hy).
Qed.

Lemma suitability_length (g : Table) (w : gmap string Z) :
  length (dist_suitability g w) = nrows g.
Proof.
  unfold dist_suitability, concat_sum.
  destruct (comp_parts _ _ _); [apply repeat_length|].
  now rewrite length_map, length_seq.
Qed.

Lemma nei_comp_parts_dist (g : Table) (w : gmap string Z) (fs : list (string * string)) :
  nei_comp_parts g w fs
  = comp_parts g w (map (fun nc => (fst nc, (snd nc, false))) fs).
Proof.
  induction fs as [|[name col] fs IH]; [reflexivity|].
  cbn [nei_comp_parts comp_parts map fst snd]. now rewrite IH.
Qed.

Lemma nei_suitability_lookup (g : Table) (w : gmap string Z) (i : nat) (y : Q) :
  nei_suitability g w !! i = Some y -> y == nei_weighted_sum g w i.
Proof.
  unfold nei_suitability, nei_weighted_sum. intros Hy.
  rewrite nei_comp_parts_dist in Hy.
  rewrite <- (map_map (fun nc => (fst nc, (snd nc, false))) (contribution g w i)).
  rewrite <- comp_parts_sum.
  destruct (comp_parts g w _) as [|p parts] eqn:E.
  - apply list_elem_of_lookup_2, list_elem_of_In, repeat_spec in Hy.
    subst y. reflexivity.
  - now rewrite (concat_sum_lookup _ _ _ _ Hy).
Qed.

Lemma weight_of_scaled (w : gmap string Z) (k : Z) (name : string) :
  weight_of (Z.mul k <$> w) name == inject_Z k * weight_of w name.
Proof.
  unfold weight_of. rewrite lookup_fmap.
  destruct (w !! name) as [z|]; cbn.
  - now rewrite inject_Z_mult.
  - change (inject_Z 0) with 0. ring.
Qed.

Lemma Qle_bool_proper (a b : Q) : a == b -> Qle_bool a 0 = Qle_bool b 0.
Proof.
  intros E. destruct (Qle_bool b 0) eqn:Hb.
  - apply Qle_bool_iff. apply Qle_bool_iff in Hb. now rewrite E.
  - apply scoring_facts.Qle_bool_false. apply scoring_facts.Qle_bool_false in Hb.
    now rewrite E.
Qed.

Lemma contribution_scaled (g : Table) (w : gmap string Z) (k : Z) (i : nat)
    (f : string * (string * bool)) :
  (0 < k)%Z ->
  contribution g (Z.mul k <$> w) i f == inject_Z k * contribution g w i f.
Proof.
  intros Hk. destruct f as [name [col invert]]. unfold contribution.
  pose proof (weight_of_scaled w k name) as Hw.
  assert (Hkq : 0 < inject_Z k) by (change 0 with (inject_Z 0); now rewrite <- Zlt_Qlt).
  assert (Hsign : Qle_bool (weight_of (Z.mul k <$> w) name) 0
                  = Qle_bool (weight_of w name) 0).
  { rewrite (Qle_bool_proper _ _ Hw).
    destruct (Qle_bool (weight_of w name) 0) eqn:E.
    - apply Qle_bool_iff in E. apply Qle_bool_iff. nra.
    - apply scoring_facts.Qle_bool_false in E. apply scoring_facts.Qle_bool_false. nra. }
  rewrite Hsign. destruct (Qle_bool (weight_of w name) 0); [ring|].
  rewrite Hw. unfold Qdiv. ring.
Qed.

Lemma weighted_sum_scaled (g : Table) (w : gmap string Z) (k : Z) (i : nat) :
  (0 < k)%Z ->
  weighted_sum g (Z.mul k <$> w) i == inject_Z k * weighted_sum g w i.
Proof.
  intros Hk. unfold weighted_sum.
  induction (features (dist_feature_map g)) as [|f fs IH]; cbn [map fold_right]; [ring|].
  rewrite IH, (contribution_scaled g w k i f Hk). ring.
Qed.

Lemma features_elem (fm : list (string * option (string * bool)))
    (name col : string) (invert : bool) :
  (name, (col, invert)) ∈ features fm <-> (name, Some (col, invert)) ∈ fm.
Proof.
  unfold features. rewrite list_elem_of_omap. split.
  - intros ([n [v|]] & Hin & Heq); cbn in Heq; [|discriminate Heq].
    now inversion Heq; subst.
  - intros Hin. exists (name, Some (col, invert)). now split.
Qed.

(** C1. The district composite: with every weight at 0 it is exactly 0 for
    every entity; in general its entry for an entity is the sum, over the
    features with a weight above 0, of the feature's percentile score
    times weight/100, the column negated before scoring exactly for Safety
    (crime rate) and Unemployment.  The sum is not divided by the total
    weight, so multiplying the weights by a positive factor multiplies
    the composite by it: a single feature contributes linearly in its
    weight.  The neighbourhood composite is the same sum, over its own
    features and without negation. *)
Theorem suitability_is_weighted_sum (g : Table) (w : gmap string Z) :
  ((forall name, weight_of w name <= 0) ->
   dist_suitability g w = repeat 0 (nrows g))
  /\ length (dist_suitability g w) = nrows g
  /\ (forall i y, dist_suitability g w !! i = Some y -> y == weighted_sum g w i)
  /\ (forall name col invert,
        (name, (col, invert)) ∈ features (dist_feature_map g) ->
        (invert = true <-> name = "Safety" \/ name = "Unemployment"))
  /\ (forall k i y1 y2,
        (0 < k)%Z ->
        dist_suitability g w !! i = Some y1 ->
        dist_suitability g (Z.mul k <$> w) !! i = Some y2 ->
        y2 == inject_Z k * y1)
  /\ ((forall name, weight_of w name <= 0) ->
      nei_suitability g w = repeat 0 (nrows g))
  /\ (forall i y, nei_suitability g w !! i = Some y -> y == nei_weighted_sum g w i).
Proof.
  assert (Hnei : (forall name, weight_of w name <= 0) ->
                 nei_suitability g w = repeat 0 (nrows g)).
  { intros Hw. unfold nei_suitability.
    now rewrite nei_comp_parts_dist, comp_parts_none. }
  split.
  { intros Hw. unfold dist_suitability. now rewrite comp_parts_none. }
  split; [apply suitability_length|].
  split; [apply suitability_lookup|].
  split.
  - intros name col invert Hin. apply features_elem in Hin.
    unfold dist_feature_map in Hin.
    repeat (apply elem_of_cons in Hin as [Hin|Hin];
            [repeat (match type of Hin with
                     | context [if ?b then _ else _] => destruct b
                     end);
             inversion Hin; subst; split;
             (discriminate || (intros [?|?]; discriminate) || tauto || auto)|]).
    now apply elem_of_nil in Hin.
  - split; [|split; [exact Hnei|apply nei_suitability_lookup]].
    intros k i y1 y2 Hk H1 H2.
    apply suitability_lookup in H1, H2.
    now rewrite H2, H1, weighted_sum_scaled.
Qed.

Lemma suitability_is_weighted_sum_witness :
  dist_suitability examples.three_districts ∅ = repeat 0 3%nat
  /\ exists y1 y2,
       dist_suitability examples.three_districts examples.two_weights !! 0%nat = Some y1
       /\ dist_suitability examples.three_districts (Z.mul 2 <$> examples.two_weights) !! 0%nat
          = Some y2
       /\ y2 == inject_Z 2 * y1.
Proof.
  pose proof (suitability_is_weighted_sum examples.three_districts) as T.
  split.
  - apply (proj1 (T ∅)). intros name. unfold weight_of. rewrite lookup_empty.
    cbn. apply Qle_refl.
  - eexists. eexists.
    split; [vm_compute; reflexivity|]. split; [vm_compute; reflexivity|].
    apply (proj1 (proj2 (proj2 (proj2 (proj2 (T examples.two_weights))))) 2%Z 0%nat);
      [reflexivity|vm_compute; reflexivity|vm_compute; reflexivity].
Defined.

(** Weights are not renormalised: the composite of the sample with
    Green share at 50 and Safety at 100, on the first two districts. *)
Example suitability_sample :
  map Qred (dist_suitability examples.three_districts examples.two_weights)
  = [0; 150; 50].
Proof. vm_compute. reflexivity. Qed.

End app_facts.

(** ** Canonical keys: what they ignore and what they are made of *)

Module key_facts.
Import pystr text reference text_facts validation_facts.

Lemma steps_app (a b : chars) : steps (a ++ b)%list = (steps a ++ steps b)%list.
Proof.
  unfold steps, lower, keep_alnum.
  now rewrite map_app, fold_umlauts_app, List.filter_app.
Qed.

Lemma steps_cons (c : ascii) (s : chars) : steps (c :: s) = (steps [c] ++ steps s)%list.
Proof. exact (steps_app [c] s). Qed.

Lemma steps_space (c : ascii) : isspace c = true -> steps [c] = [].
Proof. each_char c; vm_compute; intros Hc; (discriminate Hc || reflexivity). Qed.

Lemma steps_lstrip (s : chars) : steps (lstrip s) = steps s.
Proof.
  induction s as [|c s IH]; [reflexivity|]. simpl lstrip.
  destruct (isspace c) eqn:Hc; [|reflexivity].
  now rewrite IH, (steps_cons c s), (steps_space c Hc).
Qed.

Lemma steps_rstrip (s : chars) : steps (rstrip s) = steps s.
Proof.
  induction s as [|c s IH]; [reflexivity|]. simpl rstrip.
  rewrite (steps_cons c s), <- IH.
  destruct (rstrip s) as [|d r].
  - destruct (isspace c) eqn:Hc; [now rewrite (steps_space c Hc)|].
    now rewrite app_nil_r.
  - now rewrite (steps_cons c (d :: r)).
Qed.

(** Trimming is subsumed by the filter: the key is the three steps. *)
Lemma canon_chars_steps (s : chars) : canon_chars s = steps s.
Proof.
  unfold canon_chars, strip. fold (steps (rstrip (lstrip s))).
  now rewrite steps_rstrip, steps_lstrip.
Qed.

Lemma canon_nh_str (s : string) : canon_nh (PyStr s) = to_string (steps (of_string s)).
Proof. unfold canon_nh. cbn [py_str]. now rewrite canon_chars_steps. Qed.

Lemma steps_lower_char (c : ascii) : steps [lower_char c] = steps [c].
Proof. each_char c; vm_compute; reflexivity. Qed.

Lemma steps_fold_char (c : ascii) : steps (_fold_umlauts [c]) = steps [c].
Proof. each_char c; vm_compute; reflexivity. Qed.

Lemma steps_lower (s : chars) : steps (lower s) = steps s.
Proof.
  induction s as [|c s IH]; [reflexivity|]. simpl lower.
  now rewrite (steps_cons (lower_char c)), (steps_cons c s), IH, steps_lower_char.
Qed.

Lemma steps_fold (s : chars) : steps (_fold_umlauts s) = steps s.
Proof.
  induction s as [|c s IH]; [reflexivity|].
  now rewrite fold_umlauts_cons, steps_app, (steps_cons c s), IH, steps_fold_char.
Qed.

(** X2. The key ignores case, the spelling of the umlauts and
    surrounding whitespace: a name, its lowercase, its folded spelling
    and the trimmed name all have the same key. *)
Theorem canon_nh_insensitive (s : string) :
  let name := of_string s in
  canon_nh (PyStr (to_string (lower name))) = canon_nh (PyStr s)
  /\ canon_nh (PyStr (to_string (_fold_umlauts name))) = canon_nh (PyStr s)
  /\ canon_nh (PyStr (to_string (strip name))) = canon_nh (PyStr s).
Proof.
  cbv zeta. rewrite !canon_nh_str, !of_to_string.
  rewrite steps_lower, steps_fold.
  unfold strip. now rewrite steps_rstrip, steps_lstrip.
Qed.

Lemma stable_no_key (c : ascii) :
  implb (stable c) (negb (existsb (fun kv => Ascii.eqb c (fst kv)) UMLAUT_MAP)) = true.
Proof. each_char c; vm_compute; reflexivity. Qed.

Lemma key_chars (x : pyobj) (c : ascii) :
  c ∈ of_string (canon_nh x) ->
  isalnum c = true /\ isspace c = false /\ lower_char c = c
  /\ c ∉ map fst UMLAUT_MAP.
Proof.
  intros Hc.
  assert (Hs : forallb stable (of_string (canon_nh x)) = true).
  { destruct x as [|s|r]; [reflexivity| |];
      unfold canon_nh; cbn [py_str]; rewrite of_to_string;
      unfold canon_chars; apply stable_out. }
  rewrite forallb_forall in Hs. apply list_elem_of_In in Hc.
  specialize (Hs c Hc). pose proof (stable_no_key c) as Hk. rewrite Hs in Hk.
  cbn [implb] in Hk. apply negb_true_iff in Hk.
  unfold stable in Hs. apply andb_prop in Hs as [Hs _].
  apply andb_prop in Hs as [Hs Hl]. apply andb_prop in Hs as [Ha Hsp].
  split; [exact Ha|]. split; [now apply negb_true_iff in Hsp|].
  split; [now apply Ascii.eqb_eq|].
  intros Hin. apply list_elem_of_In, in_map_iff in Hin as (kv & <- & Hkv).
  assert (Hex : existsb (fun kv0 => Ascii.eqb (fst kv) (fst kv0)) UMLAUT_MAP = true).
  { apply existsb_exists. exists kv. split; [exact Hkv|apply Ascii.eqb_refl]. }
  congruence.
Qed.

(** X3. Every character of a key is alphanumeric for [str.isalnum], is
    no whitespace, is its own lowercase and is none of the seven keys of
    [UMLAUT_MAP]; this holds for every argument of [canon_nh]. *)
Theorem canon_nh_alphabet (x : pyobj) (c : ascii) :
  c ∈ of_string (canon_nh x) ->
  isalnum c = true /\ isspace c = false /\ lower_char c = c
  /\ c ∉ map fst UMLAUT_MAP.
Proof. apply key_chars. Qed.

Lemma canon_nh_alphabet_witness :
  isalnum "k" = true /\ isspace "k" = false /\ lower_char "k" = "k"%char
  /\ "k"%char ∉ map fst UMLAUT_MAP.
Proof.
  apply (canon_nh_alphabet (PyStr examples.koellnische_heide) "k").
  vm_compute. apply list_elem_of_here.
Defined.

(** Tokens *)

Lemma excluded_not_national (t : string) :
  t ∈ _EXCLUDE_TOKENS -> t ∉ national_cuisine_vocab.
Proof.
  intros Ht. apply elem_of_elements, list_elem_of_In in Ht.
  assert (Hall : forallb (fun t => negb (bool_decide (t ∈ national_cuisine_vocab)))
                         (elements _EXCLUDE_TOKENS) = true)
    by (vm_compute; reflexivity).
  rewrite forallb_forall in Hall. specialize (Hall t Ht).
  apply negb_true_iff in Hall. now apply bool_decide_eq_false in Hall.
Qed.

Lemma empty_not_national : EmptyString ∉ national_cuisine_vocab.
Proof. apply (bool_decide_eq_false_1 _). vm_compute. reflexivity. Qed.

Lemma collect_tokens_filter (parts : list string) :
  collect_tokens parts
  = List.filter (fun t => bool_decide (t ∈ national_cuisine_vocab))
                (map _normalize_token parts).
Proof.
  induction parts as [|p parts IH]; [reflexivity|].
  cbn [collect_tokens map List.filter]. rewrite IH.
  destruct (bool_decide (_normalize_token p = EmptyString)) eqn:He.
  - apply bool_decide_eq_true in He. rewrite He.
    rewrite (bool_decide_eq_false_2 _ empty_not_national). reflexivity.
  - destruct (bool_decide (_normalize_token p ∈ _EXCLUDE_TOKENS)) eqn:Hx; [|reflexivity].
    apply bool_decide_eq_true, excluded_not_national in Hx.
    rewrite (bool_decide_eq_false_2 _ Hx). reflexivity.
Qed.

(** X4. [tokenize_cuisines] returns, in order and with repetitions, the
    normalised parts of its argument that are words of the vocabulary:
    the exclusion set never decides, no word being in both sets.  Its
    entry with an umlaut can match no token, a normalised token holding
    no umlaut. *)
Theorem tokenize_cuisines_is_vocabulary_filter :
  (forall s : string,
     tokenize_cuisines (CStr s)
     = List.filter (fun t => bool_decide (t ∈ national_cuisine_vocab))
         (map _normalize_token (map to_string (split ";" (of_string s)))))
  /\ (forall items : list pyobj,
        tokenize_cuisines (CIter items)
        = List.filter (fun t => bool_decide (t ∈ national_cuisine_vocab))
            (map _normalize_token (map py_str items)))
  /\ (forall t : string, t ∈ _EXCLUDE_TOKENS -> t ∉ national_cuisine_vocab)
  /\ (forall tok : string,
        String "d" (String o_uml "ner") ∈ _EXCLUDE_TOKENS
        /\ _normalize_token tok <> String "d" (String o_uml "ner")).
Proof.
  split; [intros s; apply collect_tokens_filter|].
  split; [intros items; apply collect_tokens_filter|].
  split; [exact excluded_not_national|].
  intros tok. split; [apply (bool_decide_eq_true_1 _); vm_compute; reflexivity|].
  intros E.
  assert (Hin : o_uml ∈ of_string (canon_nh (PyStr tok))).
  { change (canon_nh (PyStr tok)) with (_normalize_token tok). rewrite E.
    apply list_elem_of_further, list_elem_of_here. }
  apply key_chars in Hin.
  apply Hin. cbn. apply list_elem_of_further, list_elem_of_here.
Qed.

End key_facts.

(** ** Order and range of the scores *)

Module order_facts.
Import numeric labels_mobility scoring_facts.
Open Scope Q_scope.

Lemma sort_Forall (P : Q -> Prop) (l : list Q) : Forall P l -> Forall P (sort l).
Proof.
  induction 1 as [|x l Hx Hl IH]; [constructor|].
  simpl. now apply insert_sorted_Forall.
Qed.

Lemma nonnull_elem (s : Series) (x : Q) : x ∈ nonnull s <-> Some x ∈ s.
Proof.
  unfold nonnull. rewrite list_elem_of_omap. split.
  - intros (y & Hy & Hx). cbn in Hx. now subst y.
  - intros Hx. now exists (Some x).
Qed.

(** A percentile is a value between two entries of the series. *)
Lemma nanpercentile_interp (s : Series) (q p : Q) :
  0 <= q -> q <= 100 -> nanpercentile s q = Some p ->
  exists a b g,
    Some a ∈ s /\ Some b ∈ s /\ a <= b /\ 0 <= g /\ g <= 1
    /\ p = a + (b - a) * g.
Proof.
  unfold nanpercentile. intros H0 H100 Hp.
  pose proof (sort_sorted (nonnull s)) as Hs.
  assert (Hall : Forall (fun x => Some x ∈ s) (sort (nonnull s))).
  { apply sort_Forall. rewrite Forall_forall. intros x Hx. now apply nonnull_elem. }
  destruct (sort (nonnull s)) as [|a0 l] eqn:E; [discriminate Hp|].
  match type of Hp with Some ?X = Some _ => assert (Ep : X = p) by congruence end.
  clear Hp. cbv zeta in Ep.
  set (sorted := a0 :: l) in *.
  set (n := inject_Z (Z.of_nat (length sorted) - 1)) in *.
  assert (Hn : 0 <= n).
  { unfold n. change 0 with (inject_Z 0). rewrite <- Zle_Qle. unfold sorted. simpl length. lia. }
  set (pos := n * q / 100) in *.
  assert (Hpos : 0 <= pos /\ pos <= n).
  { unfold pos. rewrite Qdiv100. clearbody n. split; nra. }
  assert (Hk0 : (0 <= Qfloor pos)%Z)
    by (rewrite <- (Qfloor_Z 0); apply Qfloor_resp_le; tauto).
  assert (Hkn : (Qfloor pos <= Z.of_nat (length sorted) - 1)%Z)
    by (rewrite <- (Qfloor_Z (Z.of_nat (length sorted) - 1)); apply Qfloor_resp_le; tauto).
  assert (Hlen : (0 < length sorted)%nat) by (unfold sorted; simpl; lia).
  set (lo := Z.to_nat (Qfloor pos)) in *.
  set (hi := Nat.min (S lo) (length sorted - 1)) in *.
  assert (Hlo : (lo < length sorted)%nat) by (unfold lo; lia).
  assert (Hhi : (hi < length sorted)%nat) by (unfold hi; lia).
  rewrite Forall_forall in Hall.
  exists (nth lo sorted a0), (nth hi sorted a0), (pos - inject_Z (Qfloor pos)).
  split; [apply Hall, list_elem_of_In, nth_In; exact Hlo|].
  split; [apply Hall, list_elem_of_In, nth_In; exact Hhi|].
  split; [apply sorted_nth_le; [exact Hs|unfold hi; lia|exact Hhi]|].
  pose proof (Qfloor_le pos) as Hg0. pose proof (Qlt_floor pos) as Hg1.
  rewrite inject_Z_plus in Hg1. change (inject_Z 1) with 1 in Hg1.
  split; [lra|]. split; [lra|]. now symmetry.
Qed.

Lemma nanpercentile_ge (s : Series) (q p m : Q) :
  0 <= q -> q <= 100 -> (forall x, Some x ∈ s -> m <= x) ->
  nanpercentile s q = Some p -> m <= p.
Proof.
  intros H0 H100 Hm Hp.
  destruct (nanpercentile_interp s q p H0 H100 Hp) as (a & b & g & Ha & Hb & Hab & Hg0 & Hg1 & ->).
  pose proof (Hm a Ha). pose proof (Hm b Hb). nra.
Qed.

Lemma nanpercentile_le (s : Series) (q p M : Q) :
  0 <= q -> q <= 100 -> (forall x, Some x ∈ s -> x <= M) ->
  nanpercentile s q = Some p -> p <= M.
Proof.
  intros H0 H100 HM Hp.
  destruct (nanpercentile_interp s q p H0 H100 Hp) as (a & b & g & Ha & Hb & Hab & Hg0 & Hg1 & ->).
  pose proof (HM a Ha). pose proof (HM b Hb). nra.
Qed.

Lemma clip_cases (x : Q) :
  (x <= 0 /\ clip x 0 1 == 0) \/ (0 <= x <= 1 /\ clip x 0 1 == x)
  \/ (1 <= x /\ clip x 0 1 == 1).
Proof.
  unfold clip.
  destruct (Q.max_spec x 0) as [[H1 H2]|[H1 H2]];
    destruct (Q.min_spec (Qmax x 0) 1) as [[H3 H4]|[H3 H4]];
    rewrite H4; try rewrite H2; lra.
Qed.

Lemma clip_mono (x y : Q) : x <= y -> clip x 0 1 <= clip y 0 1.
Proof.
  intros Hxy.
  destruct (clip_cases x) as [[? Hx]|[[? Hx]|[? Hx]]],
           (clip_cases y) as [[? Hy]|[[? Hy]|[? Hy]]]; rewrite Hx, Hy; lra.
Qed.

Lemma range_pos (p_lo p_hi : Q) : 0 < Qmax (p_hi - p_lo) epsilon.
Proof. pose proof (Q.le_max_r (p_hi - p_lo) epsilon) as Hr. unfold epsilon in *. lra. Qed.

Lemma scaled_mono (v v' p r : Q) : 0 < r -> v <= v' -> (v - p) / r <= (v' - p) / r.
Proof.
  intros Hr Hv. apply Qle_shift_div_l; [exact Hr|].
  unfold Qdiv. rewrite <- Qmult_assoc, (Qmult_comm (/ r)), Qmult_inv_r by lra. lra.
Qed.

(** Two entries of one series are scored with the same percentiles. *)
Lemma percentile_score_pair (series : Series) (lo hi : Q) (i j : nat) (vi vj : Q) :
  series !! i = Some (Some vi) -> series !! j = Some (Some vj) ->
  exists p_lo p_hi yi yj,
    nanpercentile series lo = Some p_lo
    /\ nanpercentile series hi = Some p_hi
    /\ percentile_score series lo hi !! i = Some (Some yi)
    /\ percentile_score series lo hi !! j = Some (Some yj)
    /\ yi == clip ((vi - p_lo) / Qmax (p_hi - p_lo) epsilon) 0 1 * 100
    /\ yj == clip ((vj - p_lo) / Qmax (p_hi - p_lo) epsilon) 0 1 * 100.
Proof.
  intros Hi Hj.
  destruct (percentile_score_entry series lo hi i vi Hi)
    as (p_lo & p_hi & yi & Hlo & Hhi & Hyi & Hei & _).
  destruct (percentile_score_entry series lo hi j vj Hj)
    as (p_lo' & p_hi' & yj & Hlo' & Hhi' & Hyj & Hej & _).
  assert (p_lo' = p_lo) by congruence. assert (p_hi' = p_hi) by congruence. subst.
  exists p_lo, p_hi, yi, yj. tauto.
Qed.

Lemma percentile_score_le (series : Series) (lo hi : Q) (i j : nat) (vi vj : Q) :
  series !! i = Some (Some vi) -> series !! j = Some (Some vj) -> vi <= vj ->
  exists yi yj,
    percentile_score series lo hi !! i = Some (Some yi)
    /\ percentile_score series lo hi !! j = Some (Some yj)
    /\ yi <= yj.
Proof.
  intros Hi Hj Hv.
  destruct (percentile_score_pair series lo hi i j vi vj Hi Hj)
    as (p_lo & p_hi & yi & yj & _ & _ & Hyi & Hyj & Hei & Hej).
  exists yi, yj. split; [exact Hyi|]. split; [exact Hyj|].
  rewrite Hei, Hej.
  pose proof (clip_mono _ _ (scaled_mono vi vj p_lo _ (range_pos p_lo p_hi) Hv)).
  lra.
Qed.

(** X5. [percentile_score] preserves the order of the values: of two
    non-null entries the larger never scores less, whatever the two
    percentile levels. *)
Theorem percentile_score_monotone (series : Series) (lo hi : Q) (i j : nat) (vi vj : Q) :
  series !! i = Some (Some vi) -> series !! j = Some (Some vj) -> vi <= vj ->
  exists yi yj,
    percentile_score series lo hi !! i = Some (Some yi)
    /\ percentile_score series lo hi !! j = Some (Some yj)
    /\ yi <= yj.
Proof. apply percentile_score_le. Qed.

Lemma percentile_score_monotone_witness :
  exists yi yj,
    percentile_score [Some 3; None; Some 1; Some 2] 10 90 !! 2%nat = Some (Some yi)
    /\ percentile_score [Some 3; None; Some 1; Some 2] 10 90 !! 0%nat = Some (Some yj)
    /\ yi <= yj.
Proof.
  apply (percentile_score_monotone [Some 3; None; Some 1; Some 2] 10 90 2 0 1 3);
    [reflexivity|reflexivity|lra].
Defined.

(** The score of an entry by its place relative to the two percentiles. *)
Lemma percentile_score_cases (series : Series) (lo hi : Q) (i : nat) (v : Q) :
  series !! i = Some (Some v) ->
  exists p_lo p_hi y,
    nanpercentile series lo = Some p_lo
    /\ nanpercentile series hi = Some p_hi
    /\ percentile_score series lo hi !! i = Some (Some y)
    /\ (v <= p_lo -> y == 0)
    /\ (epsilon <= p_hi - p_lo -> p_hi <= v -> y == 100)
    /\ (epsilon <= p_hi - p_lo -> p_lo <= v -> v <= p_hi ->
        y == (v - p_lo) / (p_hi - p_lo) * 100).
Proof.
  intros Hi.
  destruct (percentile_score_entry series lo hi i v Hi)
    as (p_lo & p_hi & y & Hlo & Hhi & Hy & He & _).
  exists p_lo, p_hi, y. split; [exact Hlo|]. split; [exact Hhi|]. split; [exact Hy|].
  pose proof (range_pos p_lo p_hi) as Hr.
  set (r := Qmax (p_hi - p_lo) epsilon) in *.
  destruct (clip_cases ((v - p_lo) / r)) as [[Hx Hc]|[[Hx Hc]|[Hx Hc]]]; rewrite He, Hc.
  - split; [intros _; lra|].
    assert (Hv : v <= p_lo).
    { apply Qnot_lt_le. intros Hlt.
      assert (0 < (v - p_lo) / r) by (apply Qlt_shift_div_l; [exact Hr|lra]). lra. }
    split; [intros He1 Hv1; unfold epsilon in He1; lra|].
    intros He1 Hv1 Hv2. assert (Hz : v - p_lo == 0) by lra.
    rewrite Hz. unfold Qdiv. lra.
  - assert (Hrr : epsilon <= p_hi - p_lo -> r == p_hi - p_lo)
      by (intros He1; unfold r; now apply Q.max_l).
    split; [|split].
    + intros Hv. assert (Hle : (v - p_lo) / r <= 0)
        by (apply Qle_shift_div_r; [exact Hr|lra]). lra.
    + intros He1 Hv. assert (Hge : 1 <= (v - p_lo) / r)
        by (apply Qle_shift_div_l; [exact Hr|rewrite (Hrr He1); lra]). lra.
    + intros He1 _ _. now rewrite (Hrr He1).
  - assert (Hrr : epsilon <= p_hi - p_lo -> r == p_hi - p_lo)
      by (intros He1; unfold r; now apply Q.max_l).
    split; [|split].
    + intros Hv. assert (Hle : (v - p_lo) / r <= 0)
        by (apply Qle_shift_div_r; [exact Hr|lra]). lra.
    + intros _ _. lra.
    + intros He1 Hv1 Hv2.
      assert (Hle : (v - p_lo) / r <= 1)
        by (apply Qle_shift_div_r; [exact Hr|rewrite (Hrr He1); lra]).
      assert (Hone : (v - p_lo) / r == 1) by lra.
      rewrite <- (Hrr He1), Hone. lra.
Qed.

(** X6. The ends of the scale: a value at or below the lower percentile
    scores 0, and when the two percentiles are at least [1e-9] apart a
    value at or above the upper one scores 100 and a value between them
    scores linearly.  So the smallest value of a series always scores
    0. *)
Theorem percentile_score_ends (series : Series) (i : nat) (v : Q) :
  series !! i = Some (Some v) ->
  exists p_lo p_hi y,
    nanpercentile series lo_default = Some p_lo
    /\ nanpercentile series hi_default = Some p_hi
    /\ percentile_score series lo_default hi_default !! i = Some (Some y)
    /\ (v <= p_lo -> y == 0)
    /\ (epsilon <= p_hi - p_lo -> p_hi <= v -> y == 100)
    /\ (epsilon <= p_hi - p_lo -> p_lo <= v -> v <= p_hi ->
        y == (v - p_lo) / (p_hi - p_lo) * 100)
    /\ ((forall x, Some x ∈ series -> v <= x) -> y == 0).
Proof.
  intros Hi.
  destruct (percentile_score_cases series lo_default hi_default i v Hi)
    as (p_lo & p_hi & y & Hlo & Hhi & Hy & H0 & H100 & Hlin).
  exists p_lo, p_hi, y. repeat (split; [assumption|]).
  intros Hmin. apply H0.
  apply (nanpercentile_ge series lo_default p_lo v); try assumption;
    unfold lo_default; lra.
Qed.

Lemma percentile_score_ends_witness :
  exists y,
    percentile_score [Some 3; None; Some 1; Some 2] lo_default hi_default !! 2%nat
    = Some (Some y)
    /\ y == 0.
Proof.
  destruct (percentile_score_ends [Some 3; None; Some 1; Some 2] 2 1 eq_refl)
    as (p_lo & p_hi & y & _ & _ & Hy & _ & _ & _ & Hmin).
  exists y. split; [exact Hy|]. apply Hmin.
  intros x Hx. apply list_elem_of_In in Hx. cbn in Hx.
  destruct Hx as [E|[E|[E|[E|[]]]]]; inversion E; subst; lra.
Defined.

(** X7. A series whose numbers are all equal scores 0 at every number:
    both percentiles are that number and the range falls back to
    [1e-9]. *)
Theorem percentile_score_constant (series : Series) (c : Q) :
  (forall x, Some x ∈ series -> x == c) ->
  forall y, Some y ∈ percentile_score series lo_default hi_default -> y == 0.
Proof.
  intros Hc y Hy. apply list_elem_of_lookup in Hy as [i Hi].
  destruct (series !! i) as [[v|]|] eqn:Hv.
  - destruct (percentile_score_cases series lo_default hi_default i v Hv)
      as (p_lo & p_hi & y' & Hlo & _ & Hy' & H0 & _).
    assert (y' = y) by congruence. subst y'. apply H0.
    assert (Hvc : v == c) by (apply Hc; eapply list_elem_of_lookup_2; exact Hv).
    rewrite Hvc.
    apply (nanpercentile_ge series lo_default p_lo c); [unfold lo_default; lra..| |exact Hlo].
    intros x Hx. rewrite (Hc x Hx). lra.
  - rewrite percentile_score_lookup, Hv in Hi. discriminate Hi.
  - rewrite percentile_score_lookup, Hv in Hi. discriminate Hi.
Qed.

Lemma percentile_score_constant_witness :
  exists y,
    percentile_score [Some 5; None; Some 5] lo_default hi_default !! 2%nat = Some (Some y)
    /\ y == 0.
Proof.
  destruct (percentile_score [Some 5; None; Some 5] lo_default hi_default !! 2%nat)
    as [[y|]|] eqn:E; try (vm_compute in E; discriminate E).
  exists y. split; [reflexivity|].
  apply (percentile_score_constant [Some 5; None; Some 5] 5).
  - intros x Hx. apply list_elem_of_In in Hx. cbn in Hx.
    destruct Hx as [Hx|[Hx|[Hx|[]]]]; inversion Hx; subst; reflexivity.
  - eapply list_elem_of_lookup_2. exact E.
Defined.

Lemma any_finite_false (s : Series) :
  app.any_finite s = false -> forall x, x ∈ s -> x = None.
Proof.
  unfold app.any_finite. intros Hs x Hx.
  destruct x as [x|]; [|reflexivity].
  assert (Hex : existsb (fun x => bool_decide (x <> None)) s = true).
  { apply existsb_exists. exists (Some x).
    split; [now apply list_elem_of_In|now apply bool_decide_eq_true_2]. }
  congruence.
Qed.

Lemma app_percentile_score_eq (s : Series) (lo hi : Q) :
  app.percentile_score s lo hi = percentile_score s lo hi.
Proof.
  unfold app.percentile_score, percentile_score. cbv zeta. rewrite map_map.
  destruct (app.any_finite s) eqn:Hf; cbn [negb].
  - apply map_ext. now intros [x|].
  - apply map_ext_in. intros x Hx.
    now rewrite (any_finite_false s Hf x) by now apply list_elem_of_In.
Qed.

(** X8. The three copies of [percentile_score] (of [app.py], of
    [labels_mobility] and of [labels_venues]) compute the same scores on
    every series and for every pair of levels: the guard of [app.py] for
    a column without a number changes nothing; and a component of the
    composite that is not inverted is that score of the column. *)
Theorem percentile_score_copies_agree (s : Series) (lo hi : Q) :
  app.percentile_score s lo hi = percentile_score s lo hi
  /\ labels_venues.percentile_score s lo hi = percentile_score s lo hi
  /\ app.compute_component s false = percentile_score s lo_default hi_default
  /\ app.compute_component s true = percentile_score (map fneg s) lo_default hi_default.
Proof.
  split; [apply app_percentile_score_eq|]. split; [reflexivity|].
  split; apply app_percentile_score_eq.
Qed.

Lemma tercile_labels_le (values : Series) (high mid low : string) (i j : nat) (vi vj : Q) :
  values !! i = Some (Some vi) -> values !! j = Some (Some vj) -> vi <= vj ->
  exists q1 q2,
    nanpercentile values 33.333 = Some q1
    /\ nanpercentile values 66.666 = Some q2
    /\ tercile_labels values (high, mid, low) !! i
       = Some (if Qle_bool vi q1 then low else if Qle_bool q2 vi then high else mid)
    /\ tercile_labels values (high, mid, low) !! j
       = Some (if Qle_bool vj q1 then low else if Qle_bool q2 vj then high else mid)
    /\ (Qle_bool vj q1 = true -> Qle_bool vi q1 = true)
    /\ (Qle_bool q2 vi = true -> Qle_bool q2 vj = true).
Proof.
  intros Hi Hj Hv. pose proof (nonnull_lookup _ _ _ Hi) as Hn.
  destruct (nanpercentile_some values 33.333 Hn) as [q1 Hq1].
  destruct (nanpercentile_some values 66.666 Hn) as [q2 Hq2].
  exists q1, q2. split; [exact Hq1|]. split; [exact Hq2|].
  rewrite !tercile_labels_lookup, Hi, Hj, Hq1, Hq2.
  cbn [fmap option_fmap option_map fle fge].
  split; [reflexivity|]. split; [reflexivity|].
  split; intros Hle; apply Qle_bool_iff in Hle; apply Qle_bool_iff; lra.
Qed.

(** X9. [tercile_labels] preserves the order of the values: with three
    distinct labels, of two non-null entries the smaller is labelled low
    whenever the larger is, and the larger is labelled high whenever the
    smaller is. *)
Theorem tercile_labels_monotone
    (values : Series) (high mid low : string) (i j : nat) (vi vj : Q) :
  high <> mid -> mid <> low -> high <> low ->
  values !! i = Some (Some vi) -> values !! j = Some (Some vj) -> vi <= vj ->
  let labels := tercile_labels values (high, mid, low) in
  (labels !! j = Some low -> labels !! i = Some low)
  /\ (labels !! i = Some high -> labels !! j = Some high).
Proof.
  intros Hhm Hml Hhl Hi Hj Hv. cbv zeta.
  destruct (tercile_labels_le values high mid low i j vi vj Hi Hj Hv)
    as (q1 & q2 & Hq1 & Hq2 & Hli & Hlj & Hlow & Hhigh).
  assert (Hq12 : q1 <= q2)
    by (apply (nanpercentile_mono values 33.333 66.666 q1 q2); try assumption; lra).
  rewrite Hli, Hlj. split.
  - destruct (Qle_bool vj q1) eqn:E1; [rewrite Hlow by reflexivity; reflexivity|].
    destruct (Qle_bool q2 vj); intros [= E]; congruence.
  - destruct (Qle_bool vi q1) eqn:E1; [intros [= E]; congruence|].
    destruct (Qle_bool q2 vi) eqn:E2; [|intros [= E]; congruence].
    intros _. rewrite (Hhigh eq_refl).
    destruct (Qle_bool vj q1) eqn:E3; [|reflexivity].
    apply Qle_bool_iff in E3, E2. apply Qle_bool_false in E1. lra.
Qed.

Lemma tercile_labels_monotone_witness :
  let labels := tercile_labels [Some 1; Some 2; Some 3; None; Some 4] mobility_labels in
  (labels !! 2%nat = Some "remote" -> labels !! 0%nat = Some "remote")
  /\ (labels !! 0%nat = Some "well-connected" -> labels !! 2%nat = Some "well-connected").
Proof.
  apply (tercile_labels_monotone [Some 1; Some 2; Some 3; None; Some 4]
           "well-connected" "moderate" "remote" 0 2 1 3);
    [discriminate|discriminate|discriminate|reflexivity|reflexivity|lra].
Defined.

(** X10. The smallest number of a series is always labelled low, so in
    every series with a number some entry carries the low label. *)
Theorem tercile_labels_smallest_is_low
    (values : Series) (high mid low : string) (i : nat) (v : Q) :
  values !! i = Some (Some v) ->
  (forall x, Some x ∈ values -> v <= x) ->
  tercile_labels values (high, mid, low) !! i = Some low.
Proof.
  intros Hi Hmin.
  destruct (tercile_labels_le values high mid low i i v v Hi Hi (Qle_refl v))
    as (q1 & q2 & Hq1 & _ & Hl & _).
  rewrite Hl.
  assert (Hle : v <= q1)
    by (apply (nanpercentile_ge values 33.333 q1 v); try assumption; lra).
  apply Qle_bool_iff in Hle. now rewrite Hle.
Qed.

Lemma tercile_labels_smallest_is_low_witness :
  tercile_labels [Some 2; None; Some 1; Some 4] mobility_labels !! 2%nat = Some "remote".
Proof.
  apply (tercile_labels_smallest_is_low [Some 2; None; Some 1; Some 4]
           "well-connected" "moderate" "remote" 2 1 eq_refl).
  intros x Hx. apply list_elem_of_In in Hx. cbn in Hx.
  destruct Hx as [E|[E|[E|[E|[]]]]]; inversion E; subst; lra.
Defined.

Lemma tercile_labels_range (values : Series) (high mid low : string) (i : nat) (l : string) :
  tercile_labels values (high, mid, low) !! i = Some l -> l ∈ [high; mid; low].
Proof.
  rewrite tercile_labels_lookup. destruct (values !! i) as [v|]; [|discriminate].
  cbn [fmap option_fmap option_map]. intros [= <-].
  destruct v as [v|]; [|set_solver].
  destruct (fle _ _); [set_solver|]. destruct (fge _ _); set_solver.
Qed.

Lemma lookup_fneg (s : Series) (i : nat) (v : Q) :
  s !! i = Some (Some v) -> map fneg s !! i = Some (Some (- v)).
Proof. intros Hi. now rewrite lookup_map, Hi. Qed.

(** X11. A component of the composite keeps the order of its column, and
    an inverted component (lower is better) reverses it: of two rows the
    one with the larger value never has the larger inverted score. *)
Theorem compute_component_order (series : Series) (i j : nat) (vi vj : Q) :
  series !! i = Some (Some vi) -> series !! j = Some (Some vj) -> vi <= vj ->
  exists yi yj zi zj,
    app.compute_component series false !! i = Some (Some yi)
    /\ app.compute_component series false !! j = Some (Some yj)
    /\ yi <= yj
    /\ app.compute_component series true !! i = Some (Some zi)
    /\ app.compute_component series true !! j = Some (Some zj)
    /\ zj <= zi.
Proof.
  intros Hi Hj Hv. unfold app.compute_component. rewrite !app_percentile_score_eq.
  destruct (percentile_score_le series 10 90 i j vi vj Hi Hj Hv) as (yi & yj & Hyi & Hyj & Hy).
  destruct (percentile_score_le (map fneg series) 10 90 j i (- vj) (- vi)
              (lookup_fneg _ _ _ Hj) (lookup_fneg _ _ _ Hi))
    as (zj & zi & Hzj & Hzi & Hz); [lra|].
  exists yi, yj, zi, zj. tauto.
Qed.

Lemma compute_component_order_witness :
  exists yi yj zi zj,
    app.compute_component [Some 120; Some 80; Some 100] false !! 1%nat = Some (Some yi)
    /\ app.compute_component [Some 120; Some 80; Some 100] false !! 0%nat = Some (Some yj)
    /\ yi <= yj
    /\ app.compute_component [Some 120; Some 80; Some 100] true !! 1%nat = Some (Some zi)
    /\ app.compute_component [Some 120; Some 80; Some 100] true !! 0%nat = Some (Some zj)
    /\ zj <= zi.
Proof.
  apply (compute_component_order [Some 120; Some 80; Some 100] 1 0 80 120);
    [reflexivity|reflexivity|lra].
Defined.

End order_facts.

(** ** Areas and transit counts *)

Module count_facts.
Import numeric pandas geo labels_mobility pandas_facts scoring_facts mobility_facts order_facts.
Open Scope Q_scope.

Section with_geolib.
Context `{GeoLib}.

Lemma elem_of_add_column (cols : list string) (c x : string) :
  x ∈ add_column cols c <-> x ∈ cols \/ x = c.
Proof.
  unfold add_column. destruct (bool_decide (c ∈ cols)) eqn:E.
  - apply bool_decide_eq_true in E. split; [now left|]. now intros [Hx| ->].
  - rewrite elem_of_app, list_elem_of_singleton. tauto.
Qed.

Lemma add_column_present (cols : list string) (c : string) :
  c ∈ cols -> add_column cols c = cols.
Proof. intros Hc. unfold add_column. now rewrite bool_decide_eq_true_2. Qed.

Lemma set_area_km2_same (r : NeiRow) : set_area_km2 r (area_km2 r) = r.
Proof. now destruct r. Qed.

Lemma no_null_area (rs : list NeiRow) (r : NeiRow) :
  existsb (fun r => bool_decide (area_km2 r = None)) rs = false ->
  r ∈ rs -> fillna (area_km2 r) (planar_area_km2 (geometry r)) = area_km2 r.
Proof.
  intros Hex Hr. destruct (area_km2 r) as [a|] eqn:Ha; [reflexivity|].
  assert (Hex' : existsb (fun r => bool_decide (area_km2 r = None)) rs = true).
  { apply existsb_exists. exists r. split; [now apply list_elem_of_In|].
    now apply bool_decide_eq_true_2. }
  congruence.
Qed.

(** The table that [compute_area_km2] returns, column by column and row
    by row. *)
Lemma compute_area_km2_rows (gdf : Frame NeiRow) :
  compute_area_km2 gdf
  = mkFrame
      (add_column (add_column (columns gdf) "area_km2") "area_eff_km2")
      (map (fun r =>
              let a := if has_column gdf "area_km2"
                       then fillna (area_km2 r) (planar_area_km2 (geometry r))
                       else Some (planar_area_km2 (geometry r)) in
              mkNeiRow (district_id r) (district r) (neighborhood_id r)
                       (neighborhood r) (neighborhood_canon r)
                       a (fclip_lower a 0.20) (geometry r))
           (rows gdf)).
Proof.
  unfold compute_area_km2. cbv zeta.
  destruct (has_column gdf "area_km2") eqn:Hhas; cbn [negb orb].
  - assert (Hc : add_column (columns gdf) "area_km2" = columns gdf)
      by (apply add_column_present; now apply bool_decide_eq_true in Hhas).
    rewrite Hc.
    destruct (existsb _ (rows gdf)) eqn:Hex; cbn [columns rows]; f_equal.
    + rewrite map_map. apply map_ext. intros r. reflexivity.
    + apply map_ext_in. intros r Hr. apply list_elem_of_In in Hr.
      rewrite (no_null_area _ _ Hex Hr). now destruct r.
  - cbn [columns rows]. f_equal. rewrite map_map. apply map_ext. intros r. reflexivity.
Qed.

(** X12. [compute_area_km2] leaves the keys and the geometry of every
    polygon alone; a given [area_km2] is kept and a missing one is the
    planar area of the geometry; [area_eff_km2] is that area raised to at
    least 0.20, hence never null and never below the area; and applying
    the function a second time changes nothing. *)
Theorem compute_area_km2_floor (gdf : Frame NeiRow) :
  (forall i r, rows gdf !! i = Some r ->
     exists r' a,
       rows (compute_area_km2 gdf) !! i = Some r'
       /\ (district_id r', district r', neighborhood_id r', neighborhood r',
           neighborhood_canon r', geometry r')
          = (district_id r, district r, neighborhood_id r, neighborhood r,
             neighborhood_canon r, geometry r)
       /\ area_km2 r' = Some a
       /\ a = (if has_column gdf "area_km2"
               then default (planar_area_km2 (geometry r)) (area_km2 r)
               else planar_area_km2 (geometry r))
       /\ area_eff_km2 r' = Some (Qmax a 0.20)
       /\ 0.20 <= Qmax a 0.20 /\ a <= Qmax a 0.20)
  /\ length (rows (compute_area_km2 gdf)) = length (rows gdf)
  /\ compute_area_km2 (compute_area_km2 gdf) = compute_area_km2 gdf.
Proof.
  split; [|split].
  - intros i r Hi. rewrite compute_area_km2_rows. cbn [rows].
    rewrite lookup_map, Hi. cbn [fmap option_fmap option_map].
    destruct (has_column gdf "area_km2"); [destruct (area_km2 r)|];
      eexists; eexists; (split; [reflexivity|]); cbn;
      (split; [reflexivity|]); (split; [reflexivity|]); (split; [reflexivity|]);
      (split; [reflexivity|]); (split; [apply Q.le_max_r|apply Q.le_max_l]).
  - rewrite compute_area_km2_rows. cbn [rows]. apply length_map.
  - assert (Hin : "area_km2" ∈ add_column (add_column (columns gdf) "area_km2") "area_eff_km2")
      by (apply elem_of_add_column; left; apply elem_of_add_column; now right).
    assert (Hhas : has_column (compute_area_km2 gdf) "area_km2" = true)
      by (rewrite compute_area_km2_rows; now apply bool_decide_eq_true_2).
    rewrite (compute_area_km2_rows (compute_area_km2 gdf)), Hhas.
    rewrite (compute_area_km2_rows gdf). cbn [columns rows].
    f_equal.
    + rewrite (add_column_present _ "area_km2" Hin).
      apply add_column_present, elem_of_add_column. now right.
    + rewrite map_map. apply map_ext. intros r.
      destruct (has_column gdf "area_km2"); [destruct (area_km2 r)|]; cbn; reflexivity.
Qed.

End with_geolib.

Lemma compute_area_km2_floor_witness :
  exists r' a,
    rows (@compute_area_km2 examples.grid examples.two_neighbourhoods) !! 1%nat = Some r'
    /\ @area_km2 examples.grid r' = Some a
    /\ @area_eff_km2 examples.grid r' = Some (Qmax a 0.20).
Proof.
  destruct (proj1 (@compute_area_km2_floor examples.grid examples.two_neighbourhoods) 1%nat
              (@mkNeiRow examples.grid (IdInt 1) IdNaN (IdInt 102) (text.PyStr "Wedding")
                 EmptyString None None (10, 0, 20, 10)%Z) eq_refl)
    as (r' & a & H1 & _ & H3 & _ & H5 & _).
  exists r', a. split; [exact H1|]. split; [exact H3|exact H5].
Defined.

Lemma filter_key_unique {A K : Type} `{EqDecision K} (key : A -> K) (l : list A) (a : A) :
  NoDup (map key l) -> a ∈ l ->
  List.filter (fun x => bool_decide (key x = key a)) l = [a].
Proof.
  induction l as [|x l IH]; intros Hnd Ha; [now apply elem_of_nil in Ha|].
  cbn [map] in Hnd. apply NoDup_cons in Hnd as [Hx Hnd]. cbn [List.filter].
  apply elem_of_cons in Ha as [->|Ha].
  - rewrite bool_decide_eq_true_2 by reflexivity. f_equal.
    destruct (List.filter _ l) as [|y l'] eqn:E; [reflexivity|].
    assert (Hy : In y (List.filter (fun x0 => bool_decide (key x0 = key x)) l))
      by (rewrite E; now left).
    apply filter_In in Hy as [Hy Hk]. apply bool_decide_eq_true in Hk.
    exfalso. apply Hx. rewrite <- Hk. apply list_elem_of_In, in_map_iff. now exists y.
  - rewrite bool_decide_eq_false_2; [now apply IH|].
    intros E. apply Hx. rewrite E. apply list_elem_of_In, in_map_iff.
    exists a. split; [reflexivity|now apply list_elem_of_In].
Qed.

Lemma filter_map_pair {P G : Type} (w : G -> bool) (p : P) (i : nat) (l : list (nat * G)) :
  length (List.filter (fun x : P * nat => bool_decide (snd x = i))
            (map (fun ig => (p, fst ig)) (List.filter (fun ig => w (snd ig)) l)))
  = length (List.filter (fun ig : nat * G => w (snd ig))
              (List.filter (fun ig => bool_decide (fst ig = i)) l)).
Proof.
  induction l as [|[j g] l IHl]; [reflexivity|].
  cbn [List.filter fst snd].
  destruct (w g) eqn:Hw, (bool_decide (j = i)) eqn:Hj;
    cbn [map List.filter fst snd length]; rewrite ?Hw, ?Hj; cbn [length];
    now rewrite IHl.
Qed.

Section counts.
Context `{GeoLib}.

Lemma indexed_polygons_lookup (rs : list NeiRow) (i : nat) :
  indexed_polygons rs !! i = (fun r => (i, geometry r)) <$> rs !! i.
Proof.
  unfold indexed_polygons. rewrite lookup_map, list_lookup_imap.
  now destruct (rs !! i).
Qed.

Lemma indexed_polygons_NoDup (rs : list NeiRow) :
  NoDup (map fst (indexed_polygons rs)).
Proof.
  apply NoDup_alt. intros i j k Hi Hj.
  rewrite lookup_map, indexed_polygons_lookup in Hi, Hj.
  destruct (rs !! i); [|discriminate Hi]. destruct (rs !! j); [|discriminate Hj].
  cbn in Hi, Hj. congruence.
Qed.

(** The joined points of one polygon are the points within it. *)
Lemma within_count (rs : list NeiRow) (pts : list Point) (i : nat) (r : NeiRow) :
  rs !! i = Some r ->
  length (List.filter (fun x : Point * nat => bool_decide (snd x = i))
            (points_within (indexed_polygons rs) pts))
  = length (List.filter (fun p => within p (geometry r)) pts).
Proof.
  intros Hi.
  assert (Hin : (i, geometry r) ∈ indexed_polygons rs).
  { apply (list_elem_of_lookup_2 _ i). now rewrite indexed_polygons_lookup, Hi. }
  pose proof (filter_key_unique fst _ _ (indexed_polygons_NoDup rs) Hin) as Hone.
  cbn [fst] in Hone.
  unfold points_within. induction pts as [|p pts IH]; [reflexivity|].
  cbn [flat_map List.filter]. rewrite List.filter_app, length_app, IH. clear IH.
  rewrite filter_map_pair, Hone. cbn [List.filter snd].
  now destruct (within p (geometry r)).
Qed.

Lemma count_lookup (pw : list (Point * nat)) (i : nat) :
  fillna0_int (match_of fst (count_by_polygon pw) i)
  = Z.of_nat (length (List.filter (fun x : Point * nat => bool_decide (snd x = i)) pw)).
Proof.
  destruct (match_of fst (count_by_polygon pw) i) as [[j n]|] eqn:E.
  - apply match_of_some in E as [Hin Hj]. cbn in Hj. subst j.
    unfold count_by_polygon in Hin.
    apply list_elem_of_In, in_map_iff in Hin as ([k g] & Heq & Hg).
    cbn in Heq. injection Heq as -> <-.
    apply list_elem_of_In, (groupby_elem snd) in Hg as [_ ->]. reflexivity.
  - cbn. destruct (List.filter _ pw) as [|x l] eqn:Ef; [reflexivity|].
    assert (Hx : In x (List.filter (fun x : Point * nat => bool_decide (snd x = i)) pw))
      by (rewrite Ef; now left).
    apply filter_In in Hx as [Hx Hk]. apply bool_decide_eq_true in Hk.
    assert (Hkey : i ∈ map fst (count_by_polygon pw)).
    { unfold count_by_polygon. rewrite map_map. cbn [fst].
      rewrite (groupby_keys snd), elem_of_remove_dups.
      apply list_elem_of_In, in_map_iff. now exists x. }
    apply list_elem_of_In, in_map_iff in Hkey as (c & Hc & Hcin).
    destruct (match_of_is_some fst _ i c (proj2 (list_elem_of_In _ _) Hcin) Hc) as [y Hy].
    congruence.
Qed.

(** The number of points of a table within a polygon. *)
Lemma mobility_counts_lookup (gdf : Frame NeiRow) (g_ubahn g_bus : list Point)
    (i : nat) (r : NeiRow) :
  rows gdf !! i = Some r ->
  mobility_counts gdf g_ubahn g_bus !! i
  = Some (let u := Z.of_nat (length (List.filter (fun p => within p (geometry r)) g_ubahn)) in
          let b := Z.of_nat (length (List.filter (fun p => within p (geometry r)) g_bus)) in
          (r, u, b, fdiv (Some (0.7 * inject_Z u + 0.3 * inject_Z b)) (area_eff_km2 r))).
Proof.
  intros Hi. rewrite mobility_counts_rows, list_lookup_imap, Hi.
  cbn [fmap option_fmap option_map]. cbv zeta.
  now rewrite !count_lookup, !(within_count _ _ i r Hi).
Qed.

Lemma mobility_counts_polygons (gdf : Frame NeiRow) (g_ubahn g_bus : list Point) :
  map (fun x : NeiRow * Z * Z * option Q => fst (fst (fst x)))
      (mobility_counts gdf g_ubahn g_bus)
  = rows gdf.
Proof.
  apply list_eq. intros i. rewrite lookup_map.
  destruct (rows gdf !! i) as [r|] eqn:Hi.
  - now rewrite (mobility_counts_lookup _ _ _ i r Hi).
  - assert (Hn : mobility_counts gdf g_ubahn g_bus !! i = None).
    { apply lookup_ge_None. rewrite mobility_counts_length. now apply lookup_ge_None. }
    now rewrite Hn.
Qed.

(** The keys of the rows that [compute_mobility_labels] returns are the
    keys of the polygons, in order. *)
Lemma compute_mobility_labels_keys
    (gdf_nei : Frame NeiRow) (df_ubahn df_bus_tram : PointTable) :
  issubset ["district_id"; "neighborhood_id"; "neighborhood"] (columns gdf_nei) = true ->
  located df_ubahn = true ->
  located df_bus_tram = true ->
  exists out,
    compute_mobility_labels gdf_nei df_ubahn df_bus_tram = inr out
    /\ map pipeline.mob_key4 out
       = map (fun r => (district_id r, neighborhood_id r, neighborhood r,
                        text.canon_nh (neighborhood r)))
             (rows gdf_nei).
Proof.
  intros Hcols Hu Hb. unfold compute_mobility_labels, to_points_gdf, ensure_wgs84.
  rewrite Hcols, Hu, Hb. cbn [negb ret]. cbv zeta.
  set (out0 := mobility_counts (compute_area_km2 gdf_nei) (points df_ubahn) (points df_bus_tram)).
  set (score := percentile_score (map snd out0) lo_default hi_default).
  set (label := tercile_labels score mobility_labels).
  assert (Hz : length out0 = length (zip score label)).
  { unfold label, score.
    rewrite length_zip_with, tercile_labels_length, percentile_score_length, length_map. lia. }
  eexists. split; [reflexivity|].
  rewrite (zip_with_proj_l _ pipeline.mob_key4
             (fun x : NeiRow * Z * Z * option Q =>
                let r := fst (fst (fst x)) in
                (district_id r, neighborhood_id r, neighborhood r,
                 text.canon_nh (neighborhood r))));
    [|now intros [[[? ?] ?] ?] ?|exact Hz].
  rewrite <- (map_map (fun x : NeiRow * Z * Z * option Q => fst (fst (fst x)))
                (fun r => (district_id r, neighborhood_id r, neighborhood r,
                           text.canon_nh (neighborhood r)))).
  unfold out0. rewrite mobility_counts_polygons, compute_area_km2_rows. cbn [rows].
  rewrite map_map. apply map_ext. intros r. reflexivity.
Qed.

(** X13. The row that [compute_mobility_labels] returns for a polygon:
    its keys are those of the polygon and its canonical name is
    [canon_nh] of the name; [ubahn_stations] and [bus_tram_stops] are the
    numbers of points of the two tables that lie within the polygon and
    [total_stops] is their sum; the density is
    [(0.7 * ubahn + 0.3 * bus) / max(area, 0.20)], never null and never
    negative; the score is a number between 0 and 100 and the label is
    one of the three mobility labels. *)
Theorem compute_mobility_labels_row
    (gdf_nei : Frame NeiRow) (df_ubahn df_bus_tram : PointTable) (i : nat) (r : NeiRow) :
  issubset ["district_id"; "neighborhood_id"; "neighborhood"] (columns gdf_nei) = true ->
  located df_ubahn = true ->
  located df_bus_tram = true ->
  rows gdf_nei !! i = Some r ->
  let U := Z.of_nat (length (List.filter (fun p => within p (geometry r)) (points df_ubahn))) in
  let B := Z.of_nat (length (List.filter (fun p => within p (geometry r)) (points df_bus_tram))) in
  let a := if has_column gdf_nei "area_km2"
           then default (planar_area_km2 (geometry r)) (area_km2 r)
           else planar_area_km2 (geometry r) in
  exists out row d s,
    compute_mobility_labels gdf_nei df_ubahn df_bus_tram = inr out
    /\ length out = length (rows gdf_nei)
    /\ out !! i = Some row
    /\ (m_district_id row, m_neighborhood_id row, m_neighborhood row)
       = (district_id r, neighborhood_id r, neighborhood r)
    /\ m_neighborhood_canon row = text.canon_nh (neighborhood r)
    /\ ubahn_stations row = U
    /\ bus_tram_stops row = B
    /\ total_stops row = (U + B)%Z
    /\ connectivity_density row = Some d
    /\ d == (0.7 * inject_Z U + 0.3 * inject_Z B) / Qmax a 0.20
    /\ 0 <= d
    /\ mobility_score row = Some s /\ 0 <= s <= 100
    /\ mobility_label row ∈ ["well-connected"; "moderate"; "remote"].
Proof.
  intros Hcols Hu Hb Hi. cbv zeta.
  set (U := Z.of_nat (length (List.filter (fun p => within p (geometry r)) (points df_ubahn)))).
  set (B := Z.of_nat (length (List.filter (fun p => within p (geometry r)) (points df_bus_tram)))).
  set (a := if has_column gdf_nei "area_km2"
            then default (planar_area_km2 (geometry r)) (area_km2 r)
            else planar_area_km2 (geometry r)).
  destruct (compute_mobility_labels_columns gdf_nei df_ubahn df_bus_tram Hcols Hu Hb)
    as (out & Hout & Hlen & _ & Hscore & Hlabel).
  assert (Hrow : exists row, out !! i = Some row).
  { apply lookup_lt_is_Some. rewrite Hlen. eapply lookup_lt_Some. exact Hi. }
  destruct Hrow as [row Hrow].
  (* the row of the polygon with its areas *)
  set (r' := mkNeiRow (district_id r) (district r) (neighborhood_id r) (neighborhood r)
               (neighborhood_canon r) (Some a) (Some (Qmax a 0.20)) (geometry r)).
  assert (Hr' : rows (compute_area_km2 gdf_nei) !! i = Some r').
  { rewrite compute_area_km2_rows. cbn [rows]. rewrite lookup_map, Hi.
    cbn [fmap option_fmap option_map]. unfold r', a.
    destruct (has_column gdf_nei "area_km2"); [destruct (area_km2 r)|]; reflexivity. }
  pose proof (Q.le_max_r a 0.20) as Hmax.
  set (num := 0.7 * inject_Z U + 0.3 * inject_Z B).
  assert (Hnum : 0 <= num).
  { unfold num.
    assert (0 <= inject_Z U) by (change 0 with (inject_Z 0); rewrite <- Zle_Qle; unfold U; lia).
    assert (0 <= inject_Z B) by (change 0 with (inject_Z 0); rewrite <- Zle_Qle; unfold B; lia).
    lra. }
  (* the row as the function builds it *)
  assert (Hbuilt : compute_mobility_labels gdf_nei df_ubahn df_bus_tram
                   = inr (let out0 := mobility_counts (compute_area_km2 gdf_nei)
                                        (points df_ubahn) (points df_bus_tram) in
                          let score := percentile_score (map snd out0) lo_default hi_default in
                          let label := tercile_labels score mobility_labels in
                          zip_with
                            (fun x sl =>
                               let '(r, u, b, d) := x in
                               mkMobilityRow (district_id r) (neighborhood_id r) (neighborhood r)
                                 (text.canon_nh (neighborhood r)) u b (u + b)%Z d (fst sl) (snd sl))
                            out0 (zip score label))).
  { unfold compute_mobility_labels, to_points_gdf, ensure_wgs84.
    now rewrite Hcols, Hu, Hb. }
  rewrite Hout in Hbuilt. injection Hbuilt as Hbuilt. cbv zeta in Hbuilt.
  rewrite Hbuilt in Hrow. rewrite lookup_zip_with in Hrow.
  rewrite (mobility_counts_lookup _ _ _ i r' Hr') in Hrow.
  cbn [geometry area_eff_km2 r'] in Hrow. fold U B num in Hrow.
  rewrite (fdiv_some num (Qmax a 0.20)) in Hrow by lra.
  cbn [mbind option_bind] in Hrow.
  destruct (zip _ _ !! i) as [[s0 l0]|] eqn:Hz; [|discriminate Hrow].
  cbn [mbind option_bind fst snd] in Hrow. injection Hrow as <-.
  cbn [m_district_id m_neighborhood_id m_neighborhood m_neighborhood_canon ubahn_stations
       bus_tram_stops total_stops connectivity_density mobility_score mobility_label
       district_id neighborhood_id neighborhood r'].
  (* the score and the label of the row *)
  assert (Hrow' : out !! i
                  = Some (mkMobilityRow (district_id r) (neighborhood_id r) (neighborhood r)
                            (text.canon_nh (neighborhood r)) U B (U + B)%Z
                            (Some (num / Qmax a 0.20)) s0 l0)).
  { rewrite Hbuilt, lookup_zip_with.
    rewrite (mobility_counts_lookup _ _ _ i r' Hr').
    cbn [geometry area_eff_km2 r']. fold U B num.
    rewrite (fdiv_some num (Qmax a 0.20)) by lra.
    cbn [mbind option_bind]. rewrite Hz. reflexivity. }
  assert (Hd : map connectivity_density out !! i = Some (Some (num / Qmax a 0.20)))
    by (rewrite lookup_map, Hrow'; reflexivity).
  destruct (percentile_score_entry _ lo_default hi_default i _ Hd)
    as (p_lo & p_hi & y & _ & _ & Hy & _ & Hbound).
  rewrite <- Hscore, lookup_map, Hrow' in Hy. cbn in Hy. injection Hy as ->.
  assert (Hl : tercile_labels (map mobility_score out) mobility_labels !! i = Some l0)
    by (rewrite <- Hlabel, lookup_map, Hrow'; reflexivity).
  apply tercile_labels_range in Hl.
  exists out, (mkMobilityRow (district_id r) (neighborhood_id r) (neighborhood r)
                 (text.canon_nh (neighborhood r)) U B (U + B)%Z
                 (Some (num / Qmax a 0.20)) (Some y) l0),
         (num / Qmax a 0.20), y.
  split; [exact Hout|]. split; [exact Hlen|]. split; [exact Hrow'|].
  cbn [m_district_id m_neighborhood_id m_neighborhood m_neighborhood_canon ubahn_stations
       bus_tram_stops total_stops connectivity_density mobility_score mobility_label].
  repeat (split; [reflexivity|]).
  split; [apply Qle_shift_div_l; lra|].
  split; [reflexivity|]. split; [exact Hbound|exact Hl].
Qed.

Lemma sum_of_nat {A : Type} (g : A -> nat) (l : list A) :
  fold_right Z.add 0%Z (map (fun x => Z.of_nat (g x)) l)
  = Z.of_nat (fold_right Nat.add 0%nat (map g l)).
Proof. induction l as [|x l IH]; [reflexivity|]. cbn [map fold_right]. rewrite IH. lia. Qed.

Lemma sum_indicator {A : Type} (P : A -> bool) (l : list A) :
  fold_right Nat.add 0%nat (map (fun x => if P x then 1%nat else 0%nat) l)
  = length (List.filter P l).
Proof.
  induction l as [|x l IH]; [reflexivity|]. cbn [map fold_right List.filter].
  rewrite IH. now destruct (P x).
Qed.

Lemma sum_plus {A : Type} (g h : A -> nat) (l : list A) :
  fold_right Nat.add 0%nat (map (fun x => (g x + h x)%nat) l)
  = (fold_right Nat.add 0%nat (map g l) + fold_right Nat.add 0%nat (map h l))%nat.
Proof. induction l as [|x l IH]; [reflexivity|]. cbn [map fold_right]. lia. Qed.

(** Counting the pairs of a relation by rows or by columns. *)
Lemma double_count {A B : Type} (f : A -> B -> bool) (xs : list A) (ys : list B) :
  fold_right Nat.add 0%nat (map (fun y => length (List.filter (fun x => f x y) xs)) ys)
  = fold_right Nat.add 0%nat (map (fun x => length (List.filter (fun y => f x y) ys)) xs).
Proof.
  induction ys as [|y ys IH].
  - cbn. induction xs as [|x xs IHx]; [reflexivity|]. cbn. exact IHx.
  - cbn [map fold_right]. rewrite IH, <- (sum_indicator (fun x => f x y)), <- sum_plus.
    f_equal. apply map_ext. intros x. cbn [List.filter].
    now destruct (f x y).
Qed.

Lemma filter_at_most_one {A : Type} (P : A -> bool) (l : list A) :
  (forall i j x y, l !! i = Some x -> l !! j = Some y ->
                   P x = true -> P y = true -> i = j) ->
  length (List.filter P l) = if existsb P l then 1%nat else 0%nat.
Proof.
  induction l as [|a l IH]; intros Hone; [reflexivity|].
  assert (Hone' : forall i j x y, l !! i = Some x -> l !! j = Some y ->
                                  P x = true -> P y = true -> i = j).
  { intros i j x y Hi Hj Hx Hy.
    assert (S i = S j) by (apply (Hone (S i) (S j) x y); assumption). lia. }
  specialize (IH Hone'). cbn [List.filter existsb].
  destruct (P a) eqn:Ha; [|exact IH].
  cbn [orb length]. rewrite IH.
  destruct (existsb P l) eqn:Hex; [|reflexivity].
  apply existsb_exists in Hex as (y & Hy & HPy).
  apply list_elem_of_In, list_elem_of_lookup in Hy as [j Hj].
  assert (0 = S j)%nat by (apply (Hone 0%nat (S j) a y); [reflexivity|exact Hj|exact Ha|exact HPy]).
  lia.
Qed.

Lemma mobility_counts_map (gdf : Frame NeiRow) (g_ubahn g_bus : list Point) :
  map (fun x => let '(_, u, b, _) := x in (u, b)) (mobility_counts gdf g_ubahn g_bus)
  = map (fun r =>
           (Z.of_nat (length (List.filter (fun p => within p (geometry r)) g_ubahn)),
            Z.of_nat (length (List.filter (fun p => within p (geometry r)) g_bus))))
        (rows gdf).
Proof.
  apply list_eq. intros i. rewrite !lookup_map.
  destruct (rows gdf !! i) as [r|] eqn:Hi.
  - now rewrite (mobility_counts_lookup _ _ _ i r Hi).
  - cbn. assert (Hn : mobility_counts gdf g_ubahn g_bus !! i = None).
    { apply lookup_ge_None. rewrite mobility_counts_length. now apply lookup_ge_None. }
    now rewrite Hn.
Qed.

(** X14. When no point lies within two polygons, no station is counted
    twice: over the rows of [compute_mobility_labels] the station counts
    add up to the number of stations that lie within some polygon, the
    stops likewise, and a point outside every polygon is counted
    nowhere. *)
Theorem stations_counted_once
    (gdf_nei : Frame NeiRow) (df_ubahn df_bus_tram : PointTable) :
  issubset ["district_id"; "neighborhood_id"; "neighborhood"] (columns gdf_nei) = true ->
  located df_ubahn = true ->
  located df_bus_tram = true ->
  (forall p i j r r',
     rows gdf_nei !! i = Some r -> rows gdf_nei !! j = Some r' ->
     within p (geometry r) = true -> within p (geometry r') = true -> i = j) ->
  let inside p := existsb (fun r => within p (geometry r)) (rows gdf_nei) in
  exists out,
    compute_mobility_labels gdf_nei df_ubahn df_bus_tram = inr out
    /\ fold_right Z.add 0%Z (map ubahn_stations out)
       = Z.of_nat (length (List.filter inside (points df_ubahn)))
    /\ fold_right Z.add 0%Z (map bus_tram_stops out)
       = Z.of_nat (length (List.filter inside (points df_bus_tram)))
    /\ (fold_right Z.add 0%Z (map ubahn_stations out)
        <= Z.of_nat (length (points df_ubahn)))%Z.
Proof.
  intros Hcols Hu Hb Hdisj. cbv zeta.
  destruct (compute_mobility_labels_columns gdf_nei df_ubahn df_bus_tram Hcols Hu Hb)
    as (out & Hout & _ & Hcnt & _).
  exists out. split; [exact Hout|].
  assert (Hub : map (fun m => (ubahn_stations m, bus_tram_stops m)) out
                = map (fun r =>
                         (Z.of_nat (length (List.filter (fun p => within p (geometry r))
                                              (points df_ubahn))),
                          Z.of_nat (length (List.filter (fun p => within p (geometry r))
                                              (points df_bus_tram)))))
                      (rows gdf_nei)).
  { transitivity (map (fun x : Z * Z * Z * option Q => (fst (fst (fst x)), snd (fst (fst x))))
                    (map (fun m => (ubahn_stations m, bus_tram_stops m, total_stops m,
                                    connectivity_density m)) out));
      [now rewrite map_map|].
    rewrite Hcnt, map_map.
    transitivity (map (fun x : NeiRow * Z * Z * option Q => let '(_, u, b, _) := x in (u, b))
                    (mobility_counts (compute_area_km2 gdf_nei) (points df_ubahn)
                       (points df_bus_tram)));
      [apply map_ext; now intros [[[? ?] ?] ?]|].
    rewrite mobility_counts_map, compute_area_km2_rows. cbn [rows].
    rewrite map_map. apply map_ext. intros r. reflexivity. }
  assert (Hsum : forall pts,
             fold_right Nat.add 0%nat
               (map (fun r => length (List.filter (fun p => within p (geometry r)) pts))
                    (rows gdf_nei))
             = length (List.filter
                         (fun p => existsb (fun r => within p (geometry r)) (rows gdf_nei))
                         pts)).
  { intros pts. rewrite (double_count (fun p r => within p (geometry r)) pts (rows gdf_nei)).
    rewrite <- sum_indicator. f_equal. apply map_ext. intros p.
    apply filter_at_most_one. intros i j r r' Hi Hj Hr Hr'.
    now apply (Hdisj p i j r r'). }
  assert (HU : fold_right Z.add 0%Z (map ubahn_stations out)
               = Z.of_nat (length (List.filter
                                     (fun p => existsb (fun r => within p (geometry r))
                                                       (rows gdf_nei))
                                     (points df_ubahn)))).
  { transitivity (fold_right Z.add 0%Z
                    (map fst (map (fun m => (ubahn_stations m, bus_tram_stops m)) out)));
      [now rewrite map_map|].
    rewrite Hub, map_map. cbn [fst].
    now rewrite (sum_of_nat (fun r => length (List.filter (fun p => within p (geometry r))
                                                (points df_ubahn)))), Hsum. }
  split; [exact HU|]. split.
  - transitivity (fold_right Z.add 0%Z
                    (map snd (map (fun m => (ubahn_stations m, bus_tram_stops m)) out)));
      [now rewrite map_map|].
    rewrite Hub, map_map. cbn [snd].
    now rewrite (sum_of_nat (fun r => length (List.filter (fun p => within p (geometry r))
                                                (points df_bus_tram)))), Hsum.
  - rewrite HU. apply inj_le, filter_length_le.
Qed.

End counts.

Lemma stations_counted_once_witness :
  exists out,
    @compute_mobility_labels examples.grid examples.two_neighbourhoods
      examples.two_stations examples.one_stop = inr out
    /\ fold_right Z.add 0%Z (map ubahn_stations out) = 2%Z
    /\ fold_right Z.add 0%Z (map bus_tram_stops out) = 1%Z.
Proof.
  destruct (@stations_counted_once examples.grid examples.two_neighbourhoods
              examples.two_stations examples.one_stop)
    as (out & H1 & H2 & H3 & _).
  - vm_compute. reflexivity.
  - reflexivity.
  - reflexivity.
  - intros [x y] i j r r' Hi Hj Hr Hr'.
    destruct i as [|[|i]], j as [|[|j]]; cbn in Hi, Hj; try discriminate;
      try reflexivity; injection Hi as <-; injection Hj as <-; cbn in Hr, Hr'; lia.
  - exists out. split; [exact H1|]. split; [exact H2|exact H3].
Defined.

Lemma compute_mobility_labels_row_witness :
  exists out row,
    @compute_mobility_labels examples.grid examples.two_neighbourhoods
      examples.two_stations examples.one_stop = inr out
    /\ out !! 0%nat = Some row
    /\ ubahn_stations row = 2%Z
    /\ bus_tram_stops row = 1%Z
    /\ total_stops row = 3%Z.
Proof.
  destruct (@compute_mobility_labels_row examples.grid examples.two_neighbourhoods
              examples.two_stations examples.one_stop 0%nat
              (@mkNeiRow examples.grid (IdInt 1) IdNaN (IdInt 101) (text.PyStr "Mitte")
                 EmptyString None None (0, 0, 10, 10)%Z))
    as (out & row & d & s & H1 & _ & H3 & _ & _ & H6 & H7 & H8 & _).
  - vm_compute. reflexivity.
  - reflexivity.
  - reflexivity.
  - reflexivity.
  - exists out, row. split; [exact H1|]. split; [exact H3|].
    split; [exact H6|]. split; [exact H7|exact H8].
Defined.

End count_facts.

(** ** Groups partition the rows: what the builders conserve *)

Module group_facts.
Import numeric pandas pandas_facts.
Open Scope Q_scope.

Section partition.
Context {R K : Type} `{EqDecision K}.
Variable key : R -> K.

Lemma filter_complement (p : R -> bool) (l : list R) :
  Permutation (List.filter p l ++ List.filter (fun x => negb (p x)) l) l.
Proof.
  induction l as [|x l IH]; [constructor|]. cbn [List.filter].
  destruct (p x); cbn [negb app].
  - now constructor.
  - rewrite <- Permutation_middle. now constructor.
Qed.

Lemma filter_other_key (k k' : K) (rs : list R) :
  k' <> k ->
  List.filter (fun r => bool_decide (key r = k'))
    (List.filter (fun r => negb (bool_decide (key r = k))) rs)
  = List.filter (fun r => bool_decide (key r = k')) rs.
Proof.
  intros Hne. induction rs as [|r rs IH]; [reflexivity|]. cbn [List.filter].
  destruct (bool_decide (key r = k)) eqn:Ek; cbn [negb List.filter].
  - apply bool_decide_eq_true in Ek.
    rewrite bool_decide_eq_false_2 by congruence. exact IH.
  - destruct (bool_decide (key r = k')); now rewrite IH.
Qed.

Lemma groups_of_keys (ks : list K) (rs : list R) :
  NoDup ks -> (forall r, r ∈ rs -> key r ∈ ks) ->
  Permutation (concat (map (fun k => List.filter (fun r => bool_decide (key r = k)) rs) ks)) rs.
Proof.
  intros Hnd. revert rs. induction Hnd as [|k ks Hk Hnd IH]; intros rs Hin.
  - destruct rs as [|r rs]; [constructor|].
    specialize (Hin r (list_elem_of_here _ _)). now apply elem_of_nil in Hin.
  - cbn [map concat].
    set (rest := List.filter (fun r => negb (bool_decide (key r = k))) rs).
    assert (Hrest : map (fun k' => List.filter (fun r => bool_decide (key r = k')) rs) ks
                    = map (fun k' => List.filter (fun r => bool_decide (key r = k')) rest) ks).
    { apply map_ext_in. intros k' Hk'. symmetry. apply filter_other_key.
      intros ->. apply Hk. now apply list_elem_of_In. }
    rewrite Hrest.
    rewrite (IH rest).
    + apply filter_complement.
    + intros r Hr. apply list_elem_of_In, filter_In in Hr as [Hr Hne].
      apply negb_true_iff, bool_decide_eq_false in Hne.
      apply list_elem_of_In, Hin, elem_of_cons in Hr as [E|Hr]; [contradiction|exact Hr].
Qed.

(** The groups of [groupby] hold every row exactly once. *)
Lemma groupby_partition (rs : list R) :
  Permutation (concat (map snd (groupby key rs))) rs.
Proof.
  unfold groupby. rewrite map_map. cbn [snd].
  apply groups_of_keys; [apply NoDup_remove_dups|].
  intros r Hr. rewrite elem_of_remove_dups.
  apply list_elem_of_In, in_map_iff. exists r. split; [reflexivity|now apply list_elem_of_In].
Qed.

Lemma groupby_total_length (rs : list R) :
  fold_right Nat.add 0%nat (map (fun kg => length (snd kg)) (groupby key rs)) = length rs.
Proof.
  rewrite <- (Permutation_length (groupby_partition rs)).
  induction (groupby key rs) as [|kg l IH]; [reflexivity|].
  cbn [map concat fold_right]. now rewrite length_app, IH.
Qed.

Lemma groupby_nonempty (rs : list R) (k : K) (g : list R) :
  (k, g) ∈ groupby key rs -> (0 < length g)%nat.
Proof.
  intros Hkg. apply groupby_elem in Hkg as [Hk ->].
  apply list_elem_of_In, in_map_iff in Hk as (r & Hr & Hin).
  destruct (List.filter _ rs) as [|x l] eqn:E; [|cbn; lia].
  assert (Hf : In r (List.filter (fun r0 => bool_decide (key r0 = k)) rs))
    by (apply filter_In; split; [exact Hin|now apply bool_decide_eq_true_2]).
  now rewrite E in Hf.
Qed.

End partition.

Lemma nansum_app (a b : Series) : nansum (a ++ b)%list == nansum a + nansum b.
Proof.
  induction a as [|x a IH].
  { change (nansum b == 0 + nansum b). ring. }
  change ((x :: a) ++ b)%list with (x :: (a ++ b)%list).
  rewrite !app_facts.nansum_cons, IH. ring.
Qed.

Lemma nansum_Permutation (a b : Series) : Permutation a b -> nansum a == nansum b.
Proof.
  induction 1 as [|x a b Hab IH|x y a|a b c Hab IH1 Hbc IH2].
  - reflexivity.
  - now rewrite !app_facts.nansum_cons, IH.
  - rewrite !app_facts.nansum_cons. ring.
  - now rewrite IH1.
Qed.

Lemma groupby_total_sum {R K : Type} `{EqDecision K} (key : R -> K) (f : R -> option Q)
    (rs : list R) :
  fold_right Qplus 0 (map (fun kg => nansum (map f (snd kg))) (groupby key rs))
  == nansum (map f rs).
Proof.
  rewrite <- (nansum_Permutation _ _ (Permutation_map f (groupby_partition key rs))).
  induction (groupby key rs) as [|kg l IH]; [reflexivity|].
  cbn [map concat fold_right]. now rewrite map_app, nansum_app, IH.
Qed.

Lemma filter_map_comm {A B : Type} (g : A -> B) (p : B -> bool) (l : list A) :
  List.filter p (map g l) = map g (List.filter (fun x => p (g x)) l).
Proof.
  induction l as [|x l IH]; [reflexivity|]. cbn [map List.filter].
  destruct (p (g x)); cbn [map]; now rewrite IH.
Qed.

Lemma no_missing (required : gset string) (cols : list string) :
  (forall c, c ∈ required -> c ∈ cols) ->
  bool_decide (required ∖ list_to_set cols = (∅ : gset string)) = true.
Proof.
  intros Hall. apply bool_decide_eq_true_2. apply set_eq. intros c.
  rewrite elem_of_difference, elem_of_list_to_set. split.
  - intros [Hr Hc]. exfalso. now apply Hc, Hall.
  - intros Hc. now apply not_elem_of_empty in Hc.
Qed.

Lemma map_group_keys {R W : Type} (key : R -> ident * string) (rs : list R)
    (F : ident * string * list R -> W) (k : W -> ident * string) :
  (forall kg, k (F kg) = fst kg) ->
  NoDup (map k (map F (groupby key rs))).
Proof.
  intros Hk. rewrite map_map.
  assert (E : map (fun kg => k (F kg)) (groupby key rs) = map fst (groupby key rs))
    by (apply map_ext; intros kg; apply Hk).
  rewrite E. apply groupby_NoDup.
Qed.

(** The three builders return at most one row per key. *)
Lemma distinct_keys {K : Type} `{EqDecision K} (l L : list K) :
  l = remove_dups L -> NoDup l /\ (forall k, k ∈ l <-> k ∈ L).
Proof.
  intros ->. split; [apply NoDup_remove_dups|]. intros k. apply elem_of_remove_dups.
Qed.

Lemma compute_parks_labels_keys (df_parks : Frame labels_parks.ParkRow) :
  (forall c, c ∈ labels_parks.required -> c ∈ columns df_parks) ->
  exists out,
    labels_parks.compute_parks_labels df_parks = inr out
    /\ NoDup (map (fun a => (labels_parks.pa_district_id a,
                              labels_parks.pa_neighborhood_canon a)) out).
Proof.
  intros Hcols. unfold labels_parks.compute_parks_labels. cbv zeta.
  rewrite (no_missing _ _ Hcols). cbn [negb].
  eexists. split; [reflexivity|].
  apply map_group_keys. now intros [[? ?] ?].
Qed.

Lemma compute_playgrounds_labels_keys
    (df_playgrounds : Frame labels_playgrounds.PlaygroundRow) :
  (forall c, c ∈ labels_playgrounds.required -> c ∈ columns df_playgrounds) ->
  exists out,
    labels_playgrounds.compute_playgrounds_labels df_playgrounds = inr out
    /\ NoDup (map (fun a => (labels_playgrounds.ga_district_id a,
                              labels_playgrounds.ga_neighborhood_canon a)) out).
Proof.
  intros Hcols. unfold labels_playgrounds.compute_playgrounds_labels. cbv zeta.
  rewrite (no_missing _ _ Hcols). cbn [negb].
  eexists. split; [reflexivity|].
  apply map_group_keys. now intros [[? ?] ?].
Qed.

Lemma compute_venues_features_keys (df_venues : Frame labels_venues.VenueRow) :
  (forall c, c ∈ labels_venues.required -> c ∈ columns df_venues) ->
  exists out,
    labels_venues.compute_venues_features df_venues = inr out
    /\ NoDup (map labels_venues.features_key out).
Proof.
  intros Hcols. unfold labels_venues.compute_venues_features. cbv zeta.
  rewrite (no_missing _ _ Hcols). cbn [negb].
  eexists. split; [reflexivity|].
  apply map_group_keys. now intros [[? ?] ?].
Qed.

(** X15. [compute_parks_labels] conserves the green area: on a table
    with the required columns it returns one row per distinct key
    (district, canonical name), null districts included; the green area
    of a row is the sum of [size_sqm / 1e6] over the parks of its key,
    nulls skipped; and the green areas of all rows add up to that sum
    over all parks. *)
Theorem compute_parks_labels_conserves (df_parks : Frame labels_parks.ParkRow) :
  (forall c, c ∈ labels_parks.required -> c ∈ columns df_parks) ->
  let key r := (labels_parks.p_district_id r, text.canon_nh (labels_parks.p_neighborhood r)) in
  let km2 r := fdiv (labels_parks.size_sqm r) (Some 1000000) in
  exists out,
    labels_parks.compute_parks_labels df_parks = inr out
    /\ (let keys :=
          map (fun a => (labels_parks.pa_district_id a, labels_parks.pa_neighborhood_canon a))
              out in
        NoDup keys /\ (forall k, k ∈ keys <-> k ∈ map key (rows df_parks)))
    /\ (forall a, a ∈ out ->
          labels_parks.green_area_km2 a
          = nansum (map km2
                      (List.filter
                         (fun r => bool_decide
                                     (key r = (labels_parks.pa_district_id a,
                                               labels_parks.pa_neighborhood_canon a)))
                         (rows df_parks))))
    /\ fold_right Qplus 0 (map labels_parks.green_area_km2 out)
       == nansum (map km2 (rows df_parks)).
Proof.
  intros Hcols. cbv zeta. unfold labels_parks.compute_parks_labels. cbv zeta.
  rewrite (no_missing _ _ Hcols). cbn [negb].
  set (key := fun r => (labels_parks.p_district_id r,
                        text.canon_nh (labels_parks.p_neighborhood r))).
  set (km2 := fun r => fdiv (labels_parks.size_sqm r) (Some 1000000)).
  set (parks := map (fun r => (labels_parks.p_district_id r,
                               text.canon_nh (labels_parks.p_neighborhood r),
                               fdiv (labels_parks.size_sqm r) (Some 1000000)))
                    (rows df_parks)).
  assert (Hkeys : map fst parks = map key (rows df_parks))
    by (unfold parks; now rewrite map_map).
  assert (Hgroup : forall k,
             map snd (List.filter (fun x => bool_decide (fst x = k)) parks)
             = map km2 (List.filter (fun r => bool_decide (key r = k)) (rows df_parks))).
  { intros k. unfold parks. now rewrite filter_map_comm, map_map. }
  eexists. split; [reflexivity|].
  split; [|split].
  - cbv zeta. apply distinct_keys.
    rewrite map_map. cbn [labels_parks.pa_district_id labels_parks.pa_neighborhood_canon].
    rewrite <- Hkeys, <- (groupby_keys fst parks).
    apply map_ext. now intros [[? ?] ?].
  - intros a Ha. apply list_elem_of_In, in_map_iff in Ha as ([k g] & <- & Hg).
    cbn [labels_parks.green_area_km2 labels_parks.pa_district_id
         labels_parks.pa_neighborhood_canon fst snd].
    apply list_elem_of_In, (groupby_elem fst) in Hg as [_ ->].
    rewrite Hgroup. now destruct k.
  - rewrite map_map. cbn [labels_parks.green_area_km2].
    rewrite (groupby_total_sum fst snd parks).
    unfold parks. now rewrite map_map.
Qed.

Lemma compute_parks_labels_conserves_witness :
  exists out,
    labels_parks.compute_parks_labels examples.three_parks = inr out
    /\ NoDup (map (fun a => (labels_parks.pa_district_id a,
                              labels_parks.pa_neighborhood_canon a)) out)
    /\ fold_right Qplus 0 (map labels_parks.green_area_km2 out)
       == nansum (map (fun r => fdiv (labels_parks.size_sqm r) (Some 1000000))
                      (rows examples.three_parks)).
Proof.
  destruct (compute_parks_labels_conserves examples.three_parks)
    as (out & H1 & H2 & _ & H4).
  - intros c Hc. unfold labels_parks.required in Hc.
    apply elem_of_union in Hc as [Hc|Hc];
      [apply elem_of_union in Hc as [Hc|Hc]|];
      apply elem_of_singleton in Hc; subst c; cbn;
      repeat (apply list_elem_of_here || apply list_elem_of_further).
  - exists out. split; [exact H1|]. split; [exact (proj1 H2)|exact H4].
Defined.

Lemma vocab_size : size text.national_cuisine_vocab = 55%nat.
Proof. vm_compute. reflexivity. Qed.

Lemma nationals_in_vocab (sets : list (gset string)) :
  (forall s, s ∈ sets -> exists c, s = text.nationals_set c) ->
  (size (⋃ sets) <= 55)%nat.
Proof.
  intros Hsets. rewrite <- vocab_size. apply subseteq_size.
  intros t Ht. apply elem_of_union_list in Ht as (s & Hs & Hts).
  destruct (Hsets s Hs) as [c ->].
  unfold text.nationals_set in Hts. apply elem_of_list_to_set in Hts.
  now apply (text_facts.tokenize_cuisines_sound c).
Qed.

(** X16. [compute_venues_features] counts every venue once: on a table
    with the required columns it returns one row per distinct key
    (district, canonical name), null districts included; the venue counts
    add up to the number of rows of the table; every row counts at least
    one venue; and a row never has more cuisine types than the vocabulary
    has words (55). *)
Theorem compute_venues_features_counts (df_venues : Frame labels_venues.VenueRow) :
  (forall c, c ∈ labels_venues.required -> c ∈ columns df_venues) ->
  let key r := (labels_venues.v_district_id r, text.canon_nh (labels_venues.v_neighborhood r)) in
  exists out,
    labels_venues.compute_venues_features df_venues = inr out
    /\ (NoDup (map labels_venues.features_key out)
        /\ (forall k, k ∈ map labels_venues.features_key out <-> k ∈ map key (rows df_venues)))
    /\ fold_right Nat.add 0%nat (map labels_venues.n_venues out) = length (rows df_venues)
    /\ (forall f, f ∈ out ->
          (1 <= labels_venues.n_venues f)%nat
          /\ labels_venues.n_venues f
             = length (List.filter
                         (fun r => bool_decide (key r = labels_venues.features_key f))
                         (rows df_venues))
          /\ (labels_venues.n_cuisine_types f <= 55)%nat).
Proof.
  intros Hcols. cbv zeta. unfold labels_venues.compute_venues_features. cbv zeta.
  rewrite (no_missing _ _ Hcols). cbn [negb].
  set (df := map (fun r => (labels_venues.v_district_id r,
                            text.canon_nh (labels_venues.v_neighborhood r),
                            text.nationals_set (labels_venues.cuisine r)))
                 (rows df_venues)).
  eexists. split; [reflexivity|].
  split; [|split].
  - apply distinct_keys.
    rewrite map_map. unfold labels_venues.features_key.
    cbn [labels_venues.vf_district_id labels_venues.vf_neighborhood_canon].
    transitivity (map fst (groupby fst df)); [apply map_ext; now intros [[? ?] ?]|].
    rewrite (groupby_keys fst df). unfold df. now rewrite map_map.
  - rewrite map_map. cbn [labels_venues.n_venues].
    rewrite (groupby_total_length fst df). unfold df. apply length_map.
  - intros f Hf. apply list_elem_of_In, in_map_iff in Hf as ([k g] & <- & Hg).
    cbn [labels_venues.n_venues labels_venues.n_cuisine_types fst snd].
    apply list_elem_of_In in Hg. split; [|split].
    + apply (groupby_nonempty fst df k g Hg).
    + apply (groupby_elem fst) in Hg as [_ ->].
      unfold df. rewrite filter_map_comm, length_map.
      unfold labels_venues.features_key.
      cbn [labels_venues.vf_district_id labels_venues.vf_neighborhood_canon fst snd].
      now destruct k.
    + apply nationals_in_vocab. intros s Hs.
      apply list_elem_of_In, in_map_iff in Hs as ([k' s'] & <- & Hin).
      apply (groupby_elem fst) in Hg as [_ ->].
      apply filter_In in Hin as [Hin _]. unfold df in Hin.
      apply in_map_iff in Hin as (r & Hr & _). injection Hr as _ <-. eauto.
Qed.

Lemma compute_venues_features_counts_witness :
  exists out,
    labels_venues.compute_venues_features examples.three_venues = inr out
    /\ NoDup (map labels_venues.features_key out)
    /\ fold_right Nat.add 0%nat (map labels_venues.n_venues out) = 3%nat.
Proof.
  destruct (compute_venues_features_counts examples.three_venues)
    as (out & H1 & H2 & H3 & _).
  - intros c Hc. unfold labels_venues.required in Hc.
    apply elem_of_union in Hc as [Hc|Hc];
      [apply elem_of_union in Hc as [Hc|Hc]|];
      apply elem_of_singleton in Hc; subst c; cbn;
      repeat (apply list_elem_of_here || apply list_elem_of_further).
  - exists out. split; [exact H1|]. split; [exact (proj1 H2)|exact H3].
Defined.

(** X17. [compute_playgrounds_labels] counts the rows whose type holds
    "spielplatz" in any case and whose district is not null: on a table
    with the required columns the counts of the returned rows add up to
    the number of such rows; every returned row has a district and counts
    at least one playground, so a neighbourhood without a playground has
    no row rather than a row with 0. *)
Theorem compute_playgrounds_labels_counts
    (df_playgrounds : Frame labels_playgrounds.PlaygroundRow) :
  (forall c, c ∈ labels_playgrounds.required -> c ∈ columns df_playgrounds) ->
  let counted r :=
    labels_playgrounds.is_playground (labels_playgrounds.green_area_type r)
    && negb (bool_decide (labels_playgrounds.g_district_id r = IdNaN)) in
  exists out,
    labels_playgrounds.compute_playgrounds_labels df_playgrounds = inr out
    /\ NoDup (map (fun a => (labels_playgrounds.ga_district_id a,
                              labels_playgrounds.ga_neighborhood_canon a)) out)
    /\ fold_right Nat.add 0%nat (map labels_playgrounds.n_playgrounds out)
       = length (List.filter counted (rows df_playgrounds))
    /\ (forall a, a ∈ out ->
          labels_playgrounds.ga_district_id a <> IdNaN
          /\ (1 <= labels_playgrounds.n_playgrounds a)%nat).
Proof.
  intros Hcols. cbv zeta. unfold labels_playgrounds.compute_playgrounds_labels. cbv zeta.
  rewrite (no_missing _ _ Hcols). cbn [negb].
  set (df := map (fun r => (labels_playgrounds.g_district_id r,
                            text.canon_nh (labels_playgrounds.g_neighborhood r),
                            labels_playgrounds.green_area_type r))
                 (rows df_playgrounds)).
  set (keyed := List.filter (fun x : ident * string * text.pyobj =>
                               negb (bool_decide (fst (fst x) = IdNaN)))
                  (List.filter (fun x => labels_playgrounds.is_playground (snd x)) df)).
  eexists. split; [reflexivity|].
  split; [|split].
  - rewrite map_map.
    cbn [labels_playgrounds.ga_district_id labels_playgrounds.ga_neighborhood_canon].
    assert (E : map (fun x : ident * string * list (ident * string * text.pyobj) =>
                       (fst (fst x), snd (fst x))) (groupby fst keyed)
                = map fst (groupby fst keyed))
      by (apply map_ext; now intros [[? ?] ?]).
    rewrite E. apply groupby_NoDup.
  - rewrite map_map. cbn [labels_playgrounds.n_playgrounds].
    rewrite (groupby_total_length fst keyed). unfold keyed, df.
    rewrite !filter_map_comm, !length_map. cbn [fst snd].
    clear. induction (rows df_playgrounds) as [|r rs IH]; [reflexivity|].
    cbn [List.filter].
    destruct (labels_playgrounds.is_playground (labels_playgrounds.green_area_type r));
      cbn [andb List.filter]; [|exact IH].
    destruct (negb (bool_decide (labels_playgrounds.g_district_id r = IdNaN)));
      cbn [length]; now rewrite IH.
  - intros a Ha. apply list_elem_of_In, in_map_iff in Ha as ([k g] & <- & Hg).
    cbn [labels_playgrounds.ga_district_id labels_playgrounds.n_playgrounds fst snd].
    apply list_elem_of_In in Hg. split; [|apply (groupby_nonempty fst keyed k g Hg)].
    apply (groupby_elem fst) in Hg as [Hk _].
    apply list_elem_of_In, in_map_iff in Hk as (x & <- & Hx).
    unfold keyed in Hx. apply filter_In in Hx as [_ Hx].
    now apply negb_true_iff, bool_decide_eq_false in Hx.
Qed.

Lemma compute_playgrounds_labels_counts_witness :
  exists out,
    labels_playgrounds.compute_playgrounds_labels examples.three_playgrounds = inr out
    /\ fold_right Nat.add 0%nat (map labels_playgrounds.n_playgrounds out) = 1%nat.
Proof.
  destruct (compute_playgrounds_labels_counts examples.three_playgrounds)
    as (out & H1 & _ & H3 & _).
  - intros c Hc. unfold labels_playgrounds.required in Hc.
    apply elem_of_union in Hc as [Hc|Hc];
      [apply elem_of_union in Hc as [Hc|Hc]|];
      apply elem_of_singleton in Hc; subst c; cbn;
      repeat (apply list_elem_of_here || apply list_elem_of_further).
  - exists out. split; [exact H1|exact H3].
Defined.

End group_facts.

(** ** Labels by the band around the median *)

Module band_facts.
Import numeric bands pandas scoring_facts order_facts.
Open Scope Q_scope.

(** The median is the mean of two entries of the series (the same entry
    twice when their number is odd). *)
Lemma nanmedian_interp (s : Series) (m : Q) :
  nanmedian s = Some m ->
  exists a b, Some a ∈ s /\ Some b ∈ s /\ a <= b /\ m == (a + b) / 2.
Proof.
  unfold nanmedian. intros Hm.
  pose proof (sort_sorted (nonnull s)) as Hs.
  assert (Hall : Forall (fun x => Some x ∈ s) (sort (nonnull s))).
  { apply sort_Forall. rewrite Forall_forall. intros x Hx. now apply nonnull_elem. }
  destruct (sort (nonnull s)) as [|a0 l] eqn:E; [discriminate Hm|].
  cbv zeta in Hm. set (sorted := a0 :: l) in *.
  assert (Hlen : (0 < length sorted)%nat) by (unfold sorted; simpl; lia).
  assert (Hidx : (length sorted / 2 < length sorted)%nat)
    by (apply Nat.div_lt; lia).
  rewrite Forall_forall in Hall.
  destruct (Nat.even (length sorted));
    match type of Hm with Some ?X = Some _ => assert (Em : m = X) by congruence end;
    rewrite Em; clear Hm Em.
  - exists (nth (length sorted / 2 - 1) sorted a0), (nth (length sorted / 2) sorted a0).
    split; [apply Hall, list_elem_of_In, nth_In; lia|].
    split; [apply Hall, list_elem_of_In, nth_In; exact Hidx|].
    split; [apply sorted_nth_le; [exact Hs|lia|exact Hidx]|reflexivity].
  - exists (nth (length sorted / 2) sorted a0), (nth (length sorted / 2) sorted a0).
    split; [apply Hall, list_elem_of_In, nth_In; exact Hidx|].
    split; [apply Hall, list_elem_of_In, nth_In; exact Hidx|].
    split; [apply Qle_refl|].
    generalize (nth (length sorted / 2) sorted a0). intros x. field.
Qed.

Lemma nanmedian_le (s : Series) (m M : Q) :
  (forall x, Some x ∈ s -> x <= M) -> nanmedian s = Some m -> m <= M.
Proof.
  intros HM Hm. destruct (nanmedian_interp s m Hm) as (a & b & Ha & Hb & _ & ->).
  pose proof (HM a Ha). pose proof (HM b Hb).
  apply Qle_shift_div_r; lra.
Qed.

Lemma nanmedian_ge (s : Series) (m M : Q) :
  (forall x, Some x ∈ s -> M <= x) -> nanmedian s = Some m -> M <= m.
Proof.
  intros HM Hm. destruct (nanmedian_interp s m Hm) as (a & b & Ha & Hb & _ & ->).
  pose proof (HM a Ha). pose proof (HM b Hb).
  apply Qle_shift_div_l; lra.
Qed.

Lemma band_label_cases (m w x : Q) :
  0 <= w ->
  (x < m - w -> band_label (Some m) w (Some x) = "below average")
  /\ (m + w < x -> band_label (Some m) w (Some x) = "above average")
  /\ (m - w <= x -> x <= m + w -> band_label (Some m) w (Some x) = "average").
Proof.
  intros Hw. unfold band_label, flt, fgt, flt, fsub, fadd, fbin.
  split; [|split].
  - intros Hx. apply Qle_bool_false in Hx. now rewrite Hx.
  - intros Hx. assert (Hlo : Qle_bool (m - w) x = true) by (apply Qle_bool_iff; lra).
    apply Qle_bool_false in Hx. now rewrite Hlo, Hx.
  - intros H1 H2. apply Qle_bool_iff in H1, H2. now rewrite H1, H2.
Qed.

Lemma band_label_nomed (w : Q) (v : option Q) : band_label None w v = "average".
Proof. now destruct v. Qed.

Lemma band_label_range (med : option Q) (w : Q) (v : option Q) :
  band_label med w v ∈ ["below average"; "average"; "above average"].
Proof.
  unfold band_label. destruct v; [|set_solver].
  destruct (flt _ _); [set_solver|]. destruct (fgt _ _); set_solver.
Qed.

Lemma band_label_mono (med : option Q) (w x x' : Q) :
  x <= x' ->
  (band_label med w (Some x') = "below average" ->
   band_label med w (Some x) = "below average")
  /\ (band_label med w (Some x) = "above average" ->
      band_label med w (Some x') = "above average").
Proof.
  intros Hx. destruct med as [m|]; [|rewrite !band_label_nomed; split; discriminate].
  unfold band_label, flt, fgt, flt, fsub, fadd, fbin. split.
  - destruct (Qle_bool (m - w) x') eqn:E1; cbn [negb].
    + destruct (negb (Qle_bool x' (m + w))); discriminate.
    + intros _. apply Qle_bool_false in E1.
      assert (E : Qle_bool (m - w) x = false) by (apply Qle_bool_false; lra).
      now rewrite E.
  - destruct (Qle_bool (m - w) x) eqn:E1; cbn [negb]; [|discriminate].
    destruct (Qle_bool x (m + w)) eqn:E2; cbn [negb]; [discriminate|]. intros _.
    apply Qle_bool_iff in E1. apply Qle_bool_false in E2.
    assert (F1 : Qle_bool (m - w) x' = true) by (apply Qle_bool_iff; lra).
    assert (F2 : Qle_bool x' (m + w) = false) by (apply Qle_bool_false; lra).
    now rewrite F1, F2.
Qed.

(** The largest number is never below the band and the smallest never
    above it. *)
Lemma band_label_extremes (s : Series) (w x : Q) :
  0 <= w ->
  ((forall y, Some y ∈ s -> y <= x) ->
   band_label (nanmedian s) w (Some x) <> "below average")
  /\ ((forall y, Some y ∈ s -> x <= y) ->
      band_label (nanmedian s) w (Some x) <> "above average").
Proof.
  intros Hw. destruct (nanmedian s) as [m|] eqn:Hm;
    [|rewrite !band_label_nomed; split; discriminate].
  unfold band_label, flt, fgt, flt, fsub, fadd, fbin. split; intros Hx.
  - pose proof (nanmedian_le s m x Hx Hm).
    assert (E : Qle_bool (m - w) x = true) by (apply Qle_bool_iff; lra).
    rewrite E. cbn [negb]. destruct (negb _); discriminate.
  - pose proof (nanmedian_ge s m x Hx Hm).
    assert (E : Qle_bool x (m + w) = true) by (apply Qle_bool_iff; lra).
    rewrite E. cbn [negb]. destruct (negb _); discriminate.
Qed.

(** All that the two labelling functions need: the label of a value
    within a series, by the band of half-width [w] around the median. *)
Lemma band_label_spec (s : Series) (w : Q) (v : option Q) :
  0 <= w ->
  (v = None -> band_label (nanmedian s) w v = "average")
  /\ (forall x m, v = Some x -> nanmedian s = Some m ->
        (x < m - w -> band_label (nanmedian s) w v = "below average")
        /\ (m + w < x -> band_label (nanmedian s) w v = "above average")
        /\ (m - w <= x -> x <= m + w -> band_label (nanmedian s) w v = "average"))
  /\ (forall x, v = Some x -> (forall y, Some y ∈ s -> y <= x) ->
        band_label (nanmedian s) w v <> "below average")
  /\ (forall x, v = Some x -> (forall y, Some y ∈ s -> x <= y) ->
        band_label (nanmedian s) w v <> "above average")
  /\ (forall x x', v = Some x -> x <= x' ->
        (band_label (nanmedian s) w (Some x') = "below average" ->
         band_label (nanmedian s) w v = "below average")
        /\ (band_label (nanmedian s) w v = "above average" ->
            band_label (nanmedian s) w (Some x') = "above average")).
Proof.
  intros Hw. split; [now intros ->|].
  split; [intros x m -> ->; now apply band_label_cases|].
  split; [intros x ->; apply (band_label_extremes s w x Hw)|].
  split; [intros x ->; apply (band_label_extremes s w x Hw)|].
  intros x x' -> Hx. now apply band_label_mono.
Qed.

Lemma fdiv_null_area (x : option Q) (a : option Q) :
  a = None \/ (exists y, a = Some y /\ y == 0) -> fdiv x a = None.
Proof.
  intros [->|(y & -> & Hy)]; [now destruct x|].
  destruct x as [x|]; [|reflexivity]. unfold fdiv.
  apply Qeq_bool_iff in Hy. now rewrite Hy.
Qed.

Lemma label_green_share_rows (df : Frame labels_parks.GreenRow) :
  has_column df "green_area_km2" = true -> has_column df "area_km2" = true ->
  labels_parks.label_green_share df
  = inr (let share :=
           map (fun r => fdiv (labels_parks.gr_green_area_km2 r) (labels_parks.gr_area_km2 r))
               (rows df) in
         zip_with (fun r v => labels_parks.mkGreenShareRow r v
                                (band_label (nanmedian share) 0.03 v))
                  (rows df) share).
Proof.
  intros H1 H2. unfold labels_parks.label_green_share. rewrite H1, H2.
  cbn [negb orb]. cbv zeta. now destruct (rows df).
Qed.

Lemma label_playgrounds_density_rows (df : Frame labels_playgrounds.PlayRow) :
  has_column df "n_playgrounds" = true -> has_column df "area_eff_km2" = true ->
  labels_playgrounds.label_playgrounds_density df
  = inr (let per_km2 :=
           map (fun r => fdiv (labels_playgrounds.pr_n_playgrounds r)
                              (labels_playgrounds.pr_area_eff_km2 r))
               (rows df) in
         zip_with (fun r v => labels_playgrounds.mkPlayDensityRow r v
                                (band_label (nanmedian per_km2) 0.30 v))
                  (rows df) per_km2).
Proof.
  intros H1 H2. unfold labels_playgrounds.label_playgrounds_density. rewrite H1, H2.
  cbn [negb orb]. cbv zeta. now destruct (rows df).
Qed.

Lemma lookup_zip_with_map {A B C : Type} (f : A -> B -> C) (g : A -> B) (l : list A) (i : nat) :
  zip_with f l (map g l) !! i = (fun x => f x (g x)) <$> l !! i.
Proof.
  rewrite lookup_zip_with, lookup_map. now destruct (l !! i).
Qed.

(** The label of a value that is off the edges of the band by the
    margin [0.000001]. *)
Lemma band_label_away (s : Series) (w x m : Q) :
  0 <= w -> nanmedian s = Some m ->
  (x < m - w - 0.000001 -> band_label (nanmedian s) w (Some x) = "below average")
  /\ (m + w + 0.000001 < x -> band_label (nanmedian s) w (Some x) = "above average")
  /\ (m - w + 0.000001 <= x -> x <= m + w - 0.000001 ->
      band_label (nanmedian s) w (Some x) = "average").
Proof.
  intros Hw Hm. rewrite Hm.
  destruct (band_label_cases m w x Hw) as (C1 & C2 & C3).
  split; [intros Hx; apply C1; lra|].
  split; [intros Hx; apply C2; lra|].
  intros H1 H2. apply C3; lra.
Qed.

(** X18. [label_green_share] on a table with its two columns whose
    shares are at most 10^6 in magnitude: the row of a park key keeps
    its cells, its [green_share] is [green_area_km2 / area_km2], null
    when the area is null or 0, and a null share is labelled "average";
    the label is one of the three band labels; with [med] the median of
    the shares, a share more than 0.000001 below [med - 0.03] is "below
    average", one more than 0.000001 above [med + 0.03] is "above
    average" and one inside the band and at least 0.000001 off its edges
    is "average" (nearer to an edge the rounding of the float
    subtraction [med - 0.03] decides, and nothing is stated); the
    largest share is never "below average" and the smallest never "above
    average". *)
Theorem label_green_share_bands
    (df : Frame labels_parks.GreenRow) (i : nat) (r : labels_parks.GreenRow) :
  has_column df "green_area_km2" = true -> has_column df "area_km2" = true ->
  rows df !! i = Some r ->
  let share r := fdiv (labels_parks.gr_green_area_km2 r) (labels_parks.gr_area_km2 r) in
  let shares := map share (rows df) in
  (forall y, Some y ∈ shares -> Qabs y <= 1000000) ->
  exists out l,
    labels_parks.label_green_share df = inr out
    /\ length out = length (rows df)
    /\ out !! i = Some (labels_parks.mkGreenShareRow r (share r) l)
    /\ (labels_parks.gr_area_km2 r = None
        \/ (exists a, labels_parks.gr_area_km2 r = Some a /\ a == 0) ->
        share r = None)
    /\ (share r = None -> l = "average")
    /\ l ∈ ["below average"; "average"; "above average"]
    /\ (forall x m, share r = Some x -> nanmedian shares = Some m ->
          (x < m - 0.03 - 0.000001 -> l = "below average")
          /\ (m + 0.03 + 0.000001 < x -> l = "above average")
          /\ (m - 0.03 + 0.000001 <= x -> x <= m + 0.03 - 0.000001 -> l = "average"))
    /\ (forall x, share r = Some x -> (forall y, Some y ∈ shares -> y <= x) ->
          l <> "below average")
    /\ (forall x, share r = Some x -> (forall y, Some y ∈ shares -> x <= y) ->
          l <> "above average").
Proof.
  intros H1 H2 Hi. cbv zeta. intros _.
  set (share := fun r => fdiv (labels_parks.gr_green_area_km2 r) (labels_parks.gr_area_km2 r)).
  set (shares := map share (rows df)).
  assert (Hw : 0 <= 0.03) by lra.
  destruct (band_label_spec shares 0.03 (share r) Hw) as (B1 & _ & B3 & B4 & _).
  eexists. exists (band_label (nanmedian shares) 0.03 (share r)).
  split; [apply (label_green_share_rows df H1 H2)|]. cbv zeta. fold share shares.
  split; [unfold shares; rewrite length_zip_with, length_map; lia|].
  split; [unfold shares; now rewrite lookup_zip_with_map, Hi|].
  split; [apply fdiv_null_area|].
  split; [exact B1|]. split; [apply band_label_range|].
  split; [|split; [exact B3|exact B4]].
  intros x m Hx Hm. rewrite Hx. now apply band_label_away.
Qed.

Lemma label_green_share_bands_witness :
  exists out,
    labels_parks.label_green_share examples.five_green_rows = inr out
    /\ map labels_parks.green_share_label out
       = ["below average"; "average"; "above average"; "average"; "average"].
Proof.
  destruct (label_green_share_bands examples.five_green_rows 0
              (labels_parks.mkGreenRow (IdInt 1) "a" (Some 1) (Some 10))
              eq_refl eq_refl eq_refl)
    as (out & l & H1 & _).
  - intros y Hy. apply list_elem_of_In in Hy. vm_compute in Hy.
    destruct Hy as [Hy|[Hy|[Hy|[Hy|[Hy|[]]]]]]; try discriminate Hy;
      injection Hy as <-; apply Qle_bool_iff; vm_compute; reflexivity.
  - exists out. split; [exact H1|].
    assert (E : labels_parks.label_green_share examples.five_green_rows
                = inr out) by exact H1.
    vm_compute in E. injection E as <-. reflexivity.
Defined.

(** X19. [label_playgrounds_density] on a table with its two columns
    whose densities are at most 10^6 in magnitude: the density of a row
    is [n_playgrounds / area_eff_km2], null when the area is null or 0,
    and a null density is labelled "average"; the label is one of the
    three band labels; with [med] the median of the densities, a density
    more than 0.000001 below [med - 0.30] is "below average", one more
    than 0.000001 above [med + 0.30] is "above average" and one inside
    the band and at least 0.000001 off its edges is "average" (nearer to
    an edge the rounding of the float subtraction [med - 0.30] decides,
    and nothing is stated); the largest density is never "below average"
    and the smallest never "above average". *)
Theorem label_playgrounds_density_bands
    (df : Frame labels_playgrounds.PlayRow) (i : nat) (r : labels_playgrounds.PlayRow) :
  has_column df "n_playgrounds" = true -> has_column df "area_eff_km2" = true ->
  rows df !! i = Some r ->
  let density r := fdiv (labels_playgrounds.pr_n_playgrounds r)
                        (labels_playgrounds.pr_area_eff_km2 r) in
  let densities := map density (rows df) in
  (forall y, Some y ∈ densities -> Qabs y <= 1000000) ->
  exists out l,
    labels_playgrounds.label_playgrounds_density df = inr out
    /\ length out = length (rows df)
    /\ out !! i = Some (labels_playgrounds.mkPlayDensityRow r (density r) l)
    /\ (labels_playgrounds.pr_area_eff_km2 r = None
        \/ (exists a, labels_playgrounds.pr_area_eff_km2 r = Some a /\ a == 0) ->
        density r = None)
    /\ (density r = None -> l = "average")
    /\ l ∈ ["below average"; "average"; "above average"]
    /\ (forall x m, density r = Some x -> nanmedian densities = Some m ->
          (x < m - 0.30 - 0.000001 -> l = "below average")
          /\ (m + 0.30 + 0.000001 < x -> l = "above average")
          /\ (m - 0.30 + 0.000001 <= x -> x <= m + 0.30 - 0.000001 -> l = "average"))
    /\ (forall x, density r = Some x -> (forall y, Some y ∈ densities -> y <= x) ->
          l <> "below average")
    /\ (forall x, density r = Some x -> (forall y, Some y ∈ densities -> x <= y) ->
          l <> "above average").
Proof.
  intros H1 H2 Hi. cbv zeta. intros _.
  set (density := fun r => fdiv (labels_playgrounds.pr_n_playgrounds r)
                                (labels_playgrounds.pr_area_eff_km2 r)).
  set (densities := map density (rows df)).
  assert (Hw : 0 <= 0.30) by lra.
  destruct (band_label_spec densities 0.30 (density r) Hw) as (B1 & _ & B3 & B4 & _).
  eexists. exists (band_label (nanmedian densities) 0.30 (density r)).
  split; [apply (label_playgrounds_density_rows df H1 H2)|]. cbv zeta.
  fold density densities.
  split; [unfold densities; rewrite length_zip_with, length_map; lia|].
  split; [unfold densities; now rewrite lookup_zip_with_map, Hi|].
  split; [apply fdiv_null_area|].
  split; [exact B1|]. split; [apply band_label_range|].
  split; [|split; [exact B3|exact B4]].
  intros x m Hx Hm. rewrite Hx. now apply band_label_away.
Qed.

Lemma label_playgrounds_density_bands_witness :
  exists out,
    labels_playgrounds.label_playgrounds_density examples.three_play_rows = inr out
    /\ map labels_playgrounds.playgrounds_density_label out
       = ["below average"; "average"; "above average"].
Proof.
  destruct (label_playgrounds_density_bands examples.three_play_rows 0
              (labels_playgrounds.mkPlayRow (IdInt 1) "a" (Some 2) (Some 2))
              eq_refl eq_refl eq_refl)
    as (out & l & H1 & _).
  - intros y Hy. apply list_elem_of_In in Hy. vm_compute in Hy.
    destruct Hy as [Hy|[Hy|[Hy|[]]]];
      injection Hy as <-; apply Qle_bool_iff; vm_compute; reflexivity.
  - exists out. split; [exact H1|].
    assert (E : labels_playgrounds.label_playgrounds_density examples.three_play_rows
                = inr out) by exact H1.
    vm_compute in E. injection E as <-. reflexivity.
Defined.

End band_facts.

(** ** Vibrancy scores *)

Module vibrancy_facts.
Import numeric pandas geo labels_venues pandas_facts scoring_facts mobility_facts order_facts.
Open Scope Q_scope.



(** With unique area keys the rows of [df_features] come back one by
    one. *)
Lemma compute_vibrancy_scores_features
    (df_features : Frame VenuesFeatures) (df_nei_area : Frame NeiArea) :
  issubset req1 (columns df_features) = true ->
  issubset req2 (columns df_nei_area) = true ->
  NoDup (map area_key (rows df_nei_area)) ->
  exists out,
    compute_vibrancy_scores df_features df_nei_area = inr out
    /\ map vb_features out = rows df_features.
Proof.
  intros Hr1 Hr2 Hnd. unfold compute_vibrancy_scores. rewrite Hr1, Hr2. cbn [negb]. cbv zeta.
  rewrite (merge_left_unique _ _ _ _ Hnd).
  eexists. split; [reflexivity|].
  rewrite (zip_with_proj_l _ vb_features
             (fun xd : VenuesFeatures * option NeiArea * option Q => fst (fst xd))).
  - rewrite (zip_with_proj_l pair (fun xd => fst (fst xd)) fst);
      [now rewrite map_map, map_id|reflexivity|now rewrite !length_map].
  - now intros [[? ?] ?] [[[? ?] ?] ?].
  - change percentile_score with labels_mobility.percentile_score.
    change tercile_labels with labels_mobility.tercile_labels.
    rewrite !length_zip_with, tercile_labels_length, !length_zip_with,
      !percentile_score_length, !length_map. lia.
Qed.



End vibrancy_facts.

(** ** The whole preprocessing run *)

Module run_facts.
Import numeric pandas geo labels_mobility pipeline.
Import pandas_facts scoring_facts mobility_facts pipeline_facts.
Import count_facts group_facts band_facts vibrancy_facts.
Open Scope Q_scope.

Lemma issubset_true (req cols : list string) :
  issubset req cols = true <-> forall c, c ∈ req -> c ∈ cols.
Proof.
  unfold issubset. rewrite forallb_forall. split.
  - intros Hall c Hc. apply list_elem_of_In in Hc.
    specialize (Hall c Hc). now apply bool_decide_eq_true in Hall.
  - intros Hall c Hc. apply bool_decide_eq_true_2, Hall. now apply list_elem_of_In.
Qed.

Lemma NoDup_map_compose {A B C : Type} (f : A -> B) (g : B -> C) (l : list A) :
  NoDup (map (fun x => g (f x)) l) -> NoDup (map f l).
Proof.
  intros Hnd. apply (NoDup_fmap_1 g). change (g <$> map f l) with (map g (map f l)).
  now rewrite map_map.
Qed.

Section with_geolib.
Context `{GeoLib}.

(** The polygons as [run_all_preprocessing] prepares them: the areas
    computed and the canonical names set. *)
Lemma prepared_rows (neighborhoods : Frame NeiRow) :
  map (fun r => set_neighborhood_canon r (text.canon_nh (neighborhood r)))
      (rows (compute_area_km2 neighborhoods))
  = map (fun r =>
           let a := if has_column neighborhoods "area_km2"
                    then fillna (area_km2 r) (planar_area_km2 (geometry r))
                    else Some (planar_area_km2 (geometry r)) in
           mkNeiRow (district_id r) (district r) (neighborhood_id r) (neighborhood r)
                    (text.canon_nh (neighborhood r)) a (fclip_lower a 0.20) (geometry r))
        (rows neighborhoods).
Proof.
  rewrite compute_area_km2_rows. cbn [rows]. rewrite map_map.
  apply map_ext. intros r. reflexivity.
Qed.

(** X21. [run_all_preprocessing] returns one row per polygon, for
    tables whose cells have the types of their columns ([size_sqm] a
    number or null).  When the polygons carry [district_id],
    [neighborhood_id] and [neighborhood] and no two of them share
    district and canonical name, when the two point tables can be
    located, the three raw tables have their required columns and the
    district ids of the polygons and of the raw tables are numbers or
    null (so that every merge joins key columns of numeric dtype), the
    run succeeds; the polygons it returns are the given ones with their
    areas and the canonical names [canon_nh(neighborhood)]; the minimal
    and the merged table hold the base rows of the polygons, each once
    and in order, so no key is repeated; and every row has its mobility
    columns, the mobility table having a row for every polygon. *)
Theorem run_all_preprocessing_rows
    (neighborhoods : Frame NeiRow) (df_ubahn df_bus : PointTable)
    (parks_raw : Frame labels_parks.ParkRow)
    (plays_raw : Frame labels_playgrounds.PlaygroundRow)
    (venues_raw : Frame labels_venues.VenueRow) :
  issubset ["district_id"; "neighborhood_id"; "neighborhood"] (columns neighborhoods) = true ->
  located df_ubahn = true ->
  located df_bus = true ->
  (forall c, c ∈ labels_parks.required -> c ∈ columns parks_raw) ->
  (forall c, c ∈ labels_playgrounds.required -> c ∈ columns plays_raw) ->
  (forall c, c ∈ labels_venues.required -> c ∈ columns venues_raw) ->
  NoDup (map (fun r => (district_id r, text.canon_nh (neighborhood r))) (rows neighborhoods)) ->
  (forall k, k ∈ map district_id (rows neighborhoods) -> is_number k = true) ->
  (forall k, k ∈ map labels_parks.p_district_id (rows parks_raw) -> is_number k = true) ->
  (forall k, k ∈ map labels_playgrounds.g_district_id (rows plays_raw) ->
             is_number k = true) ->
  (forall k, k ∈ map labels_venues.v_district_id (rows venues_raw) -> is_number k = true) ->
  exists mini full gdf,
    run_all_preprocessing neighborhoods df_ubahn df_bus parks_raw plays_raw venues_raw
    = inr (mini, full, gdf)
    /\ map (fun r => (district_id r, neighborhood_id r, neighborhood r, geometry r))
           (rows gdf)
       = map (fun r => (district_id r, neighborhood_id r, neighborhood r, geometry r))
             (rows neighborhoods)
    /\ map neighborhood_canon (rows gdf)
       = map (fun r => text.canon_nh (neighborhood r)) (rows neighborhoods)
    /\ map minimal_base mini = base_of gdf
    /\ map merged_base full = base_of gdf
    /\ length mini = length (rows neighborhoods)
    /\ length full = length (rows neighborhoods)
    /\ NoDup (map (fun r => base_key2 (minimal_base r)) mini)
    /\ NoDup (map (fun r => base_key2 (merged_base r)) full)
    /\ (forall b m p l, (b, m, p, l) ∈ mini ->
          exists row, m = Some row /\ mob_key4 row = base_key4 b).
Proof.
  intros Hcols Hu Hb Hparks Hplays Hvenues Hnd _ _ _ _.
  unfold run_all_preprocessing, ensure_wgs84.
  set (g1 := compute_area_km2 neighborhoods).
  assert (Hsub : forall c, c ∈ columns neighborhoods -> c ∈ columns g1).
  { intros c Hc. unfold g1. rewrite compute_area_km2_rows. cbn [columns].
    apply elem_of_add_column. left. apply elem_of_add_column. now left. }
  assert (Hin : forall c, c ∈ ["district_id"; "neighborhood_id"; "neighborhood"] ->
                          c ∈ columns neighborhoods)
    by now apply issubset_true.
  assert (Hn : has_column g1 "neighborhood" = true).
  { apply bool_decide_eq_true_2, Hsub, Hin. set_solver. }
  rewrite Hn. cbn [negb]. cbv zeta.
  set (gdf := mkFrame (add_column (columns g1) "neighborhood_canon")
                (map (fun r => set_neighborhood_canon r (text.canon_nh (neighborhood r)))
                     (rows g1))).
  assert (Hrows : rows gdf
                  = map (fun r =>
                           let a := if has_column neighborhoods "area_km2"
                                    then fillna (area_km2 r) (planar_area_km2 (geometry r))
                                    else Some (planar_area_km2 (geometry r)) in
                           mkNeiRow (district_id r) (district r) (neighborhood_id r)
                                    (neighborhood r) (text.canon_nh (neighborhood r))
                                    a (fclip_lower a 0.20) (geometry r))
                        (rows neighborhoods))
    by (unfold gdf, g1; cbn [rows]; apply prepared_rows).
  assert (Hgcols : issubset ["district_id"; "neighborhood_id"; "neighborhood"]
                            (columns gdf) = true).
  { apply issubset_true. intros c Hc. unfold gdf. cbn [columns].
    apply elem_of_add_column. left. now apply Hsub, Hin. }
  (* mobility *)
  destruct (compute_mobility_labels_keys gdf df_ubahn df_bus Hgcols Hu Hb)
    as (mob & Hmob & Hmkeys).
  rewrite Hmob.
  (* the keys of the polygons *)
  set (area := map area_keys (rows gdf)).
  assert (Hakeys : map labels_venues.area_key area
                   = map (fun r => (district_id r, text.canon_nh (neighborhood r)))
                         (rows neighborhoods)).
  { unfold area. rewrite Hrows, !map_map. apply map_ext. intros r. reflexivity. }
  assert (Hand : NoDup (map labels_venues.area_key area)) by now rewrite Hakeys.
  (* parks *)
  destruct (compute_parks_labels_keys parks_raw Hparks) as (parks_agg & Hpa & Hpnd).
  rewrite Hpa.
  rewrite label_green_share_rows by reflexivity.
  (* playgrounds *)
  destruct (compute_playgrounds_labels_keys plays_raw Hplays) as (plays_cnt & Hpc & Hcnd).
  rewrite Hpc.
  rewrite label_playgrounds_density_rows by reflexivity.
  (* venues *)
  destruct (compute_venues_features_keys venues_raw Hvenues) as (venF & HvF & Hfnd).
  rewrite HvF.
  destruct (compute_vibrancy_scores_features
              (mkFrame ["district_id"; "neighborhood_canon"; "n_venues"; "n_cuisine_types"] venF)
              (mkFrame ["district_id"; "neighborhood_canon"; "area_eff_km2"] area)
              eq_refl eq_refl Hand)
    as (venV & HvV & HvVf).
  rewrite HvV. cbn [columns rows] in HvVf.
  cbv beta iota zeta.
  (* the theme tables have one row per key *)
  set (parks := map parks_columns _).
  set (plays := map plays_columns _).
  set (venVr := map venV_columns venV).
  assert (Hpk : NoDup (map parks_key2 parks)).
  { unfold parks. cbn [rows]. rewrite (merge_left_unique _ _ _ _ Hand), !map_map.
    rewrite (zip_with_proj_l _ (fun p => parks_key2 (parks_columns p))
               (fun r => (labels_parks.gr_district_id r, labels_parks.gr_neighborhood_canon r)));
      [|reflexivity|now rewrite !length_map].
    now rewrite !map_map. }
  assert (Hpl : NoDup (map plays_key2 plays)).
  { unfold plays. cbn [rows]. rewrite (merge_left_unique _ _ _ _ Hand), !map_map.
    rewrite (zip_with_proj_l _ (fun p => plays_key2 (plays_columns p))
               (fun r => (labels_playgrounds.pr_district_id r,
                          labels_playgrounds.pr_neighborhood_canon r)));
      [|reflexivity|now rewrite !length_map].
    now rewrite !map_map. }
  assert (Hvv : NoDup (map venV_key2 venVr)).
  { unfold venVr. rewrite map_map.
    change (map (fun x => venV_key2 (venV_columns x)) venV)
      with (map (fun x => labels_venues.features_key (labels_venues.vb_features x)) venV).
    rewrite <- (map_map labels_venues.vb_features labels_venues.features_key), HvVf.
    exact Hfnd. }
  assert (Hmk : NoDup (map mob_key4 mob)).
  { rewrite Hmkeys, Hrows, map_map. cbn [district_id neighborhood_id neighborhood].
    apply (NoDup_map_compose _ (fun k : key4 => (fst (fst (fst k)), snd k))).
    exact Hnd. }
  assert (Hbase : base_of gdf
                  = map (fun r => mkBaseRow (district_id r)
                                    (if has_column gdf "district" then district r
                                     else district_id r)
                                    (neighborhood_id r) (neighborhood r)
                                    (neighborhood_canon r) (area_km2 r))
                        (rows gdf)) by reflexivity.
  assert (Hlen : length (base_of gdf) = length (rows neighborhoods))
    by (rewrite Hbase, Hrows, !length_map; reflexivity).
  assert (Hbk : NoDup (map base_key2 (base_of gdf))).
  { rewrite Hbase, Hrows, !map_map. exact Hnd. }
  exists (minimal (base_of gdf) mob parks plays),
         (merged (base_of gdf) mob parks plays venF venVr), gdf.
  split; [reflexivity|].
  rewrite (merged_rows _ _ _ _ _ _ Hmk Hpk Hpl Hfnd Hvv), (minimal_rows _ _ _ _ Hmk Hpk Hpl).
  rewrite !map_map, !length_map. unfold merged_base, minimal_base. cbn [fst snd].
  rewrite map_id.
  split; [rewrite Hrows, map_map; reflexivity|].
  split; [rewrite Hrows, map_map; reflexivity|].
  split; [reflexivity|]. split; [reflexivity|].
  split; [exact Hlen|]. split; [exact Hlen|].
  split; [exact Hbk|]. split; [exact Hbk|].
  intros b m p l Hrow.
  apply list_elem_of_In, in_map_iff in Hrow as (b' & [= <- <- <- <-] & Hb').
  assert (Hk : base_key4 b' ∈ map mob_key4 mob).
  { rewrite Hmkeys. apply list_elem_of_In. rewrite Hbase in Hb'.
    apply in_map_iff in Hb' as (r & <- & Hr). apply in_map_iff. exists r.
    split; [|exact Hr]. unfold base_key4.
    cbn [b_district_id b_neighborhood_id b_neighborhood b_neighborhood_canon].
    rewrite Hrows in Hr. apply in_map_iff in Hr as (r0 & <- & _). reflexivity. }
  apply list_elem_of_In, in_map_iff in Hk as (row & Hrk & Hrin).
  destruct (match_of_is_some mob_key4 mob _ row (proj2 (list_elem_of_In _ _) Hrin) Hrk)
    as [y Hy].
  exists y. split; [exact Hy|]. now apply match_of_some in Hy as [_ Hy].
Qed.

End with_geolib.

(** The district ids of a sample table are numbers or null. *)
Ltac sample_ids :=
  let k := fresh "k" in
  let Hk := fresh "Hk" in
  intros k Hk; apply list_elem_of_In in Hk; cbn in Hk;
  repeat (destruct Hk as [<-|Hk]; [reflexivity|]); destruct Hk.

Lemma run_all_preprocessing_rows_witness :
  exists mini full gdf,
    @run_all_preprocessing examples.grid examples.two_neighbourhoods
      examples.two_stations examples.one_stop
      examples.three_parks examples.three_playgrounds examples.three_venues
    = inr (mini, full, gdf)
    /\ length mini = 2%nat /\ length full = 2%nat.
Proof.
  destruct (@run_all_preprocessing_rows examples.grid examples.two_neighbourhoods
              examples.two_stations examples.one_stop
              examples.three_parks examples.three_playgrounds examples.three_venues)
    as (mini & full & gdf & H1 & _ & _ & _ & _ & H6 & H7 & _).
  - vm_compute. reflexivity.
  - reflexivity.
  - reflexivity.
  - intros c Hc. unfold labels_parks.required in Hc.
    apply elem_of_union in Hc as [Hc|Hc];
      [apply elem_of_union in Hc as [Hc|Hc]|];
      apply elem_of_singleton in Hc; subst c; cbn;
      repeat (apply list_elem_of_here || apply list_elem_of_further).
  - intros c Hc. unfold labels_playgrounds.required in Hc.
    apply elem_of_union in Hc as [Hc|Hc];
      [apply elem_of_union in Hc as [Hc|Hc]|];
      apply elem_of_singleton in Hc; subst c; cbn;
      repeat (apply list_elem_of_here || apply list_elem_of_further).
  - intros c Hc. unfold labels_venues.required in Hc.
    apply elem_of_union in Hc as [Hc|Hc];
      [apply elem_of_union in Hc as [Hc|Hc]|];
      apply elem_of_singleton in Hc; subst c; cbn;
      repeat (apply list_elem_of_here || apply list_elem_of_further).
  - apply (bool_decide_unpack _). vm_compute. exact I.
  - sample_ids.
  - sample_ids.
  - sample_ids.
  - sample_ids.
  - exists mini, full, gdf. split; [exact H1|]. split; [exact H6|exact H7].
Defined.

End run_facts.

(** ** District aggregation of parks and playgrounds *)

Module district_facts.
Import numeric bands pandas geo aggregate.
Import pandas_facts scoring_facts mobility_facts aggregate_facts group_facts band_facts
  vibrancy_facts run_facts.
Open Scope Q_scope.

Section with_geolib.
Context `{GeoLib}.

Lemma select_columns_present {R : Type} (df : Frame R) (wanted : list string) :
  (forall c, c ∈ wanted -> c ∈ columns df) ->
  select_columns df wanted = inr (mkFrame wanted (rows df)).
Proof.
  intros Hall. unfold select_columns.
  assert (E : List.filter (fun c => negb (has_column df c)) wanted = []).
  { induction wanted as [|c l IH]; [reflexivity|]. cbn [List.filter].
    unfold has_column at 1.
    rewrite (bool_decide_eq_true_2 _ (Hall c (list_elem_of_here _ _))). cbn [negb].
    apply IH. intros c' Hc'. apply Hall. now apply list_elem_of_further. }
  now rewrite E.
Qed.

Lemma zip_with_map {A B C : Type} (f : A -> B -> C) (g : A -> B) (l : list A) :
  zip_with f l (map g l) = map (fun x => f x (g x)) l.
Proof. induction l as [|x l IH]; [reflexivity|]. cbn. now rewrite IH. Qed.

Lemma sum_floor_le (l : list (option Q)) :
  nonnull l <> [] ->
  Qmax (nansum l) 0.20 <= nansum (map (fun a => fclip_lower a 0.20) l).
Proof.
  induction l as [|[x|] l IH]; intros Hne.
  - now contradiction Hne.
  - cbn [map fclip_lower]. rewrite !app_facts.nansum_cons. cbn [default]. unfold id.
    pose proof (Q.le_max_l x 0.20). pose proof (Q.le_max_r x 0.20).
    destruct (nonnull l) as [|y l'] eqn:E.
    + assert (E1 : nansum l == 0) by (unfold nansum; now rewrite E).
      assert (E2 : nansum (map (fun a => fclip_lower a 0.20) l) == 0).
      { unfold nansum.
        assert (En : nonnull (map (fun a => fclip_lower a 0.20) l) = []).
        { clear -E. induction l as [|[z|] l IHl]; [reflexivity|discriminate E|].
          cbn in *. now apply IHl. }
        now rewrite En. }
      rewrite E1, E2. apply Q.max_lub; lra.
    + assert (Hl : Qmax (nansum l) 0.20 <= nansum (map (fun a => fclip_lower a 0.20) l))
        by (apply IH; discriminate).
      pose proof (Q.le_max_l (nansum l) 0.20). pose proof (Q.le_max_r (nansum l) 0.20).
      apply Q.max_lub; lra.
  - cbn [map fclip_lower]. rewrite !app_facts.nansum_cons. cbn [default]. unfold id.
    assert (Hl : Qmax (nansum l) 0.20 <= nansum (map (fun a => fclip_lower a 0.20) l))
      by (apply IH; exact Hne).
    assert (E : 0 + nansum l == nansum l) by ring. rewrite E. lra.
Qed.

(** X22. [_sum_area] without a [district_id] and without a [district]
    column raises "No group keys passed!".  With [district_id] and one
    name per district it returns one row per district of the polygons;
    the area of a district is the sum of the areas of its polygons; its
    effective area is the sum of their effective areas when the polygons
    carry that column, and otherwise the summed area raised to at least
    0.20, which is at least 0.20 and at most the sum of the polygons'
    areas each raised to 0.20. *)
Theorem sum_area_effective (gdf : Frame NeiRow) :
  (("district_id" ∉ columns gdf) -> ("district" ∉ columns gdf) ->
   _sum_area gdf = inl (ValueError "No group keys passed!"))
  /\ ("district_id" ∈ columns gdf -> district_by_id gdf ->
      exists area,
        _sum_area gdf = inr area
        /\ NoDup (map a_district_id (rows area))
        /\ (forall k, polygons_of (rows gdf) k <> [] <-> k ∈ map a_district_id (rows area))
        /\ (forall x, x ∈ rows area ->
              let pol := polygons_of (rows gdf) (a_district_id x) in
              a_area_km2 x = nansum (map area_km2 pol)
              /\ ("area_eff_km2" ∈ columns gdf ->
                  a_area_eff_km2 x = nansum (map area_eff_km2 pol))
              /\ (("area_eff_km2" ∉ columns gdf) ->
                  a_area_eff_km2 x = Qmax (nansum (map area_km2 pol)) 0.20
                  /\ 0.20 <= a_area_eff_km2 x
                  /\ (nonnull (map area_km2 pol) <> [] ->
                      a_area_eff_km2 x
                      <= nansum (map (fun r => fclip_lower (area_km2 r) 0.20) pol))))).
Proof.
  split.
  - intros Hid Hd. unfold _sum_area.
    assert (E : present ["district_id"; "district"]
                  (present ["district_id"; "district"; "area_km2"; "area_eff_km2"]
                     (columns gdf)) = []).
    { destruct (present _ (present _ _)) as [|c l] eqn:E; [reflexivity|].
      assert (Hc : c ∈ present ["district_id"; "district"]
                         (present ["district_id"; "district"; "area_km2"; "area_eff_km2"]
                            (columns gdf)))
        by (rewrite E; apply list_elem_of_here).
      apply elem_of_present in Hc as [Hc Hc']. apply elem_of_present in Hc' as [_ Hc'].
      apply elem_of_cons in Hc as [->|Hc]; [contradiction|].
      apply list_elem_of_singleton in Hc. subst c. contradiction. }
    now rewrite E.
  - intros Hid Hfd.
    destruct (sum_area_table gdf Hid Hfd) as (area & Ha & _ & _ & _ & Hnd & Hrows & Hex).
    exists area. split; [exact Ha|]. split; [exact Hnd|]. split.
    + intros k. split.
      * intros Hk. destruct (Hex k Hk) as (x & Hx & <-).
        apply list_elem_of_In, in_map_iff. exists x. split; [reflexivity|now apply list_elem_of_In].
      * intros Hk. apply list_elem_of_In, in_map_iff in Hk as (x & <- & Hx).
        apply list_elem_of_In in Hx. now destruct (Hrows x Hx) as [Hne _].
    + intros x Hx. cbv zeta. destruct (Hrows x Hx) as (_ & H1 & H2).
      split; [exact H1|]. split.
      * intros He. now rewrite (bool_decide_eq_true_2 _ He) in H2.
      * intros He. rewrite (bool_decide_eq_false_2 _ He) in H2.
        split; [exact H2|]. rewrite H2. split; [apply Q.le_max_r|].
        intros Hne. rewrite <- (map_map area_km2 (fun a => fclip_lower a 0.20)).
        now apply sum_floor_le.
Qed.

(** X23. [aggregate_parks_to_district], for a table with its two columns
    and polygons that carry [district_id] and [area_km2] (one name per
    district), the district ids of both being numbers or null, returns
    one row per district of the table; the green area of a district is
    the sum over its rows, so the total green area is conserved; its
    [green_share] is that sum divided by the summed area of the
    district's polygons (a ratio of sums), null for a district without
    polygons or of area 0, which is then labelled "average"; the label is
    one of the three band labels; and when the district shares are at
    most 10^6 in magnitude, with [med] their median, a share more than
    0.000001 below [med - 0.03] is "below average", one more than
    0.000001 above [med + 0.03] is "above average" and one inside the
    band and at least 0.000001 off its edges is "average" (nearer to an
    edge the rounding of the float subtraction decides, and nothing is
    stated). *)
Theorem aggregate_parks_ratio (parks_nei : Frame ParksNeiRow) (gdf_nei : Frame NeiRow) :
  issubset ["district_id"; "green_area_km2"] (columns parks_nei) = true ->
  "district_id" ∈ columns gdf_nei ->
  "area_km2" ∈ columns gdf_nei ->
  district_by_id gdf_nei ->
  (forall k, k ∈ map pn_district_id (rows parks_nei) -> is_number k = true) ->
  (forall k, k ∈ map district_id (rows gdf_nei) -> is_number k = true) ->
  exists out,
    aggregate_parks_to_district parks_nei gdf_nei = inr out
    /\ (NoDup (map dp_district_id out)
        /\ (forall k, k ∈ map dp_district_id out <-> k ∈ map pn_district_id (rows parks_nei)))
    /\ fold_right Qplus 0 (map dp_green_area_km2 out)
       == nansum (map pn_green_area_km2 (rows parks_nei))
    /\ (forall row, row ∈ out ->
          let k := dp_district_id row in
          let G := nansum (map pn_green_area_km2
                             (List.filter (fun r => bool_decide (pn_district_id r = k))
                                          (rows parks_nei))) in
          let pol := polygons_of (rows gdf_nei) k in
          let A := nansum (map area_km2 pol) in
          dp_green_area_km2 row = G
          /\ (pol <> [] -> ~ A == 0 ->
              exists s, dp_green_share row = Some s /\ s == G / A)
          /\ (pol = [] \/ A == 0 ->
              dp_green_share row = None /\ dp_green_share_label row = "average")
          /\ dp_green_share_label row ∈ ["below average"; "average"; "above average"]
          /\ ((forall y, Some y ∈ map dp_green_share out -> Qabs y <= 1000000) ->
              forall s m,
                dp_green_share row = Some s ->
                nanmedian (map dp_green_share out) = Some m ->
                (s < m - 0.03 - 0.000001 -> dp_green_share_label row = "below average")
                /\ (m + 0.03 + 0.000001 < s -> dp_green_share_label row = "above average")
                /\ (m - 0.03 + 0.000001 <= s -> s <= m + 0.03 - 0.000001 ->
                    dp_green_share_label row = "average"))).
Proof.
  intros Hreq Hid Harea Hfd _ _.
  destruct (sum_area_table gdf_nei Hid Hfd)
    as (area & Ha & Hc1 & Hc2 & _ & Hnd & Hrows & Hex).
  unfold aggregate_parks_to_district. rewrite Hreq, Ha. cbn [negb]. cbv zeta.
  rewrite (select_columns_present area ["district_id"; "area_km2"]).
  2:{ intros c Hc. apply elem_of_cons in Hc as [->|Hc]; [exact Hc1|].
      apply list_elem_of_singleton in Hc. subst c. now apply Hc2. }
  cbn [rows]. rewrite (merge_left_unique _ a_district_id _ _ Hnd), zip_with_map.
  set (agg := map (fun kg => (fst kg, nansum (map pn_green_area_km2 (snd kg))))
                  (groupby pn_district_id (rows parks_nei))).
  set (out0 := map (fun l : ident * Q => (l, match_of a_district_id (rows area) (fst l))) agg).
  set (share := map (fun x : ident * Q * option AreaRow =>
                       fdiv (Some (snd (fst x))) (option_map a_area_km2 (snd x))) out0).
  assert (Hmed : match out0 with [] => None | _ :: _ => nanmedian share end = nanmedian share)
    by (unfold share; now destruct out0).
  rewrite Hmed. fold (band_label (nanmedian share) 0.03).
  set (F := fun x : ident * Q * option AreaRow =>
              mkDistrictParksRow (fst (fst x)) (snd (fst x)) (option_map a_area_km2 (snd x))
                (fdiv (Some (snd (fst x))) (option_map a_area_km2 (snd x)))
                (band_label (nanmedian share) 0.03
                   (fdiv (Some (snd (fst x))) (option_map a_area_km2 (snd x))))).
  assert (Hshares : map dp_green_share (map F out0) = share)
    by (unfold share; rewrite map_map; reflexivity).
  exists (map F out0). split; [reflexivity|].
  split; [apply distinct_keys; unfold out0, agg; rewrite !map_map; cbn [F dp_district_id fst];
          apply (groupby_keys pn_district_id)|].
  split.
  { unfold out0, agg. rewrite !map_map. cbn [F dp_green_area_km2 fst snd].
    apply (groupby_total_sum pn_district_id pn_green_area_km2). }
  intros row Hrow. cbv zeta. rewrite Hshares.
  apply list_elem_of_In, in_map_iff in Hrow as (x & <- & Hx).
  unfold out0 in Hx. apply in_map_iff in Hx as (l & <- & Hl).
  unfold agg in Hl. apply in_map_iff in Hl as ([k g] & <- & Hg).
  apply list_elem_of_In, (groupby_elem pn_district_id) in Hg as [_ ->].
  cbn [F dp_district_id dp_green_area_km2 dp_green_share dp_green_share_label fst snd].
  set (G := nansum (map pn_green_area_km2
                      (List.filter (fun r => bool_decide (pn_district_id r = k))
                                   (rows parks_nei)))).
  split; [reflexivity|]. split; [|split; [|split; [apply band_label_range|]]].
  3:{ intros _ s m Hs Hm. rewrite Hs. apply band_label_away; [lra|exact Hm]. }
  - intros Hpol HA. destruct (Hex k Hpol) as (x & Hx & Hk).
    destruct (match_of_is_some a_district_id _ k x Hx Hk) as [y Hy].
    rewrite Hy. cbn [option_map].
    apply match_of_some in Hy as [Hyin Hyk].
    destruct (Hrows y Hyin) as (_ & Hyarea & _). rewrite Hyk in Hyarea. rewrite Hyarea.
    eexists. split; [now apply fdiv_some|reflexivity].
  - intros Hcase.
    assert (E : fdiv (Some G) (option_map a_area_km2 (match_of a_district_id (rows area) k))
                = None).
    { apply fdiv_null_area.
      destruct (match_of a_district_id (rows area) k) as [y|] eqn:Hy; [|now left].
      right. cbn [option_map]. exists (a_area_km2 y). split; [reflexivity|].
      apply match_of_some in Hy as [Hyin Hyk].
      destruct (Hrows y Hyin) as (Hne & Hyarea & _). rewrite Hyk in Hyarea, Hne.
      rewrite Hyarea. destruct Hcase as [Hp|HA]; [contradiction|exact HA]. }
    rewrite E. split; reflexivity.
Qed.

(** X24. [aggregate_playgrounds_to_district], for a table with its two
    columns and polygons that carry [district_id] and [area_eff_km2]
    (one name per district), the district ids of both being numbers or
    null, returns one row per district of the table; the count of a
    district is the sum over its rows, so the total is conserved; its
    density is that sum divided by the summed effective area of the
    district's polygons, null for a district without polygons or of
    effective area 0, which is then labelled "average"; the label is one
    of the three band labels; and when the district densities are at
    most 10^6 in magnitude, with [med] their median, a density more than
    0.000001 below [med - 0.30] is "below average", one more than
    0.000001 above [med + 0.30] is "above average" and one inside the
    band and at least 0.000001 off its edges is "average" (nearer to an
    edge the rounding of the float subtraction decides, and nothing is
    stated). *)
Theorem aggregate_playgrounds_ratio (play_nei : Frame PlayNeiRow) (gdf_nei : Frame NeiRow) :
  issubset ["district_id"; "n_playgrounds"] (columns play_nei) = true ->
  "district_id" ∈ columns gdf_nei ->
  "area_eff_km2" ∈ columns gdf_nei ->
  district_by_id gdf_nei ->
  (forall k, k ∈ map yn_district_id (rows play_nei) -> is_number k = true) ->
  (forall k, k ∈ map district_id (rows gdf_nei) -> is_number k = true) ->
  exists out,
    aggregate_playgrounds_to_district play_nei gdf_nei = inr out
    /\ (NoDup (map dy_district_id out)
        /\ (forall k, k ∈ map dy_district_id out <-> k ∈ map yn_district_id (rows play_nei)))
    /\ fold_right Qplus 0 (map dy_n_playgrounds out)
       == nansum (map yn_n_playgrounds (rows play_nei))
    /\ (forall row, row ∈ out ->
          let k := dy_district_id row in
          let N := nansum (map yn_n_playgrounds
                             (List.filter (fun r => bool_decide (yn_district_id r = k))
                                          (rows play_nei))) in
          let pol := polygons_of (rows gdf_nei) k in
          let A := nansum (map area_eff_km2 pol) in
          dy_n_playgrounds row = N
          /\ (pol <> [] -> ~ A == 0 ->
              exists d, dy_playgrounds_per_km2 row = Some d /\ d == N / A)
          /\ (pol = [] \/ A == 0 ->
              dy_playgrounds_per_km2 row = None
              /\ dy_playgrounds_density_label row = "average")
          /\ dy_playgrounds_density_label row
             ∈ ["below average"; "average"; "above average"]
          /\ ((forall y, Some y ∈ map dy_playgrounds_per_km2 out -> Qabs y <= 1000000) ->
              forall d m,
                dy_playgrounds_per_km2 row = Some d ->
                nanmedian (map dy_playgrounds_per_km2 out) = Some m ->
                (d < m - 0.30 - 0.000001 ->
                 dy_playgrounds_density_label row = "below average")
                /\ (m + 0.30 + 0.000001 < d ->
                    dy_playgrounds_density_label row = "above average")
                /\ (m - 0.30 + 0.000001 <= d -> d <= m + 0.30 - 0.000001 ->
                    dy_playgrounds_density_label row = "average"))).
Proof.
  intros Hreq Hid Harea Hfd _ _.
  destruct (sum_area_table gdf_nei Hid Hfd)
    as (area & Ha & Hc1 & _ & Hc3 & Hnd & Hrows & Hex).
  unfold aggregate_playgrounds_to_district. rewrite Hreq, Ha. cbn [negb]. cbv zeta.
  rewrite (select_columns_present area ["district_id"; "area_eff_km2"]).
  2:{ intros c Hc. apply elem_of_cons in Hc as [->|Hc]; [exact Hc1|].
      apply list_elem_of_singleton in Hc. subst c. apply Hc3. now left. }
  cbn [rows]. rewrite (merge_left_unique _ a_district_id _ _ Hnd), zip_with_map.
  set (agg := map (fun kg => (fst kg, nansum (map yn_n_playgrounds (snd kg))))
                  (groupby yn_district_id (rows play_nei))).
  set (out0 := map (fun l : ident * Q => (l, match_of a_district_id (rows area) (fst l))) agg).
  set (per := map (fun x : ident * Q * option AreaRow =>
                     fdiv (Some (snd (fst x))) (option_map a_area_eff_km2 (snd x))) out0).
  assert (Hmed : match out0 with [] => None | _ :: _ => nanmedian per end = nanmedian per)
    by (unfold per; now destruct out0).
  rewrite Hmed. fold (band_label (nanmedian per) 0.30).
  set (F := fun x : ident * Q * option AreaRow =>
              mkDistrictPlayRow (fst (fst x)) (snd (fst x)) (option_map a_area_eff_km2 (snd x))
                (fdiv (Some (snd (fst x))) (option_map a_area_eff_km2 (snd x)))
                (band_label (nanmedian per) 0.30
                   (fdiv (Some (snd (fst x))) (option_map a_area_eff_km2 (snd x))))).
  assert (Hpers : map dy_playgrounds_per_km2 (map F out0) = per)
    by (unfold per; rewrite map_map; reflexivity).
  exists (map F out0). split; [reflexivity|].
  split; [apply distinct_keys; unfold out0, agg; rewrite !map_map; cbn [F dy_district_id fst];
          apply (groupby_keys yn_district_id)|].
  split.
  { unfold out0, agg. rewrite !map_map. cbn [F dy_n_playgrounds fst snd].
    apply (groupby_total_sum yn_district_id yn_n_playgrounds). }
  intros row Hrow. cbv zeta. rewrite Hpers.
  apply list_elem_of_In, in_map_iff in Hrow as (x & <- & Hx).
  unfold out0 in Hx. apply in_map_iff in Hx as (l & <- & Hl).
  unfold agg in Hl. apply in_map_iff in Hl as ([k g] & <- & Hg).
  apply list_elem_of_In, (groupby_elem yn_district_id) in Hg as [_ ->].
  cbn [F dy_district_id dy_n_playgrounds dy_playgrounds_per_km2
       dy_playgrounds_density_label fst snd].
  set (N := nansum (map yn_n_playgrounds
                      (List.filter (fun r => bool_decide (yn_district_id r = k))
                                   (rows play_nei)))).
  assert (Heff : forall y, y ∈ rows area -> a_district_id y = k ->
                   a_area_eff_km2 y = nansum (map area_eff_km2 (polygons_of (rows gdf_nei) k))
                   /\ polygons_of (rows gdf_nei) k <> []).
  { intros y Hyin Hyk. destruct (Hrows y Hyin) as (Hne & _ & Hyeff).
    rewrite (bool_decide_eq_true_2 _ Harea), Hyk in Hyeff. rewrite Hyk in Hne.
    now split. }
  split; [reflexivity|]. split; [|split; [|split; [apply band_label_range|]]].
  3:{ intros _ d m Hd Hm. rewrite Hd. apply band_label_away; [lra|exact Hm]. }
  - intros Hpol HA. destruct (Hex k Hpol) as (x & Hx & Hk).
    destruct (match_of_is_some a_district_id _ k x Hx Hk) as [y Hy].
    rewrite Hy. cbn [option_map].
    apply match_of_some in Hy as [Hyin Hyk].
    destruct (Heff y Hyin Hyk) as [-> _].
    eexists. split; [now apply fdiv_some|reflexivity].
  - intros Hcase.
    assert (E : fdiv (Some N) (option_map a_area_eff_km2
                                 (match_of a_district_id (rows area) k))
                = None).
    { apply fdiv_null_area.
      destruct (match_of a_district_id (rows area) k) as [y|] eqn:Hy; [|now left].
      right. cbn [option_map]. exists (a_area_eff_km2 y). split; [reflexivity|].
      apply match_of_some in Hy as [Hyin Hyk].
      destruct (Heff y Hyin Hyk) as [-> Hne].
      destruct Hcase as [Hp|HA]; [contradiction|exact HA]. }
    rewrite E. split; reflexivity.
Qed.

End with_geolib.

Lemma aggregate_parks_ratio_witness :
  exists out,
    @aggregate_parks_to_district examples.grid examples.three_parks_nei examples.two_areas
    = inr out
    /\ NoDup (map dp_district_id out).
Proof.
  destruct (@aggregate_parks_ratio examples.grid examples.three_parks_nei examples.two_areas)
    as (out & H1 & H2 & _).
  - reflexivity.
  - cbn. apply list_elem_of_here.
  - cbn. do 4 apply list_elem_of_further. apply list_elem_of_here.
  - intros r r' Hr Hr' _. apply list_elem_of_In in Hr, Hr'. cbn in Hr, Hr'.
    destruct Hr as [<-|[<-|[]]], Hr' as [<-|[<-|[]]]; reflexivity.
  - sample_ids.
  - sample_ids.
  - exists out. split; [exact H1|exact (proj1 H2)].
Defined.

Lemma aggregate_playgrounds_ratio_witness :
  exists out,
    @aggregate_playgrounds_to_district examples.grid examples.three_play_nei examples.two_areas
    = inr out
    /\ NoDup (map dy_district_id out).
Proof.
  destruct (@aggregate_playgrounds_ratio examples.grid examples.three_play_nei
              examples.two_areas)
    as (out & H1 & H2 & _).
  - reflexivity.
  - cbn. apply list_elem_of_here.
  - cbn. do 5 apply list_elem_of_further. apply list_elem_of_here.
  - intros r r' Hr Hr' _. apply list_elem_of_In in Hr, Hr'. cbn in Hr, Hr'.
    destruct Hr as [<-|[<-|[]]], Hr' as [<-|[<-|[]]]; reflexivity.
  - sample_ids.
  - sample_ids.
  - exists out. split; [exact H1|exact (proj1 H2)].
Defined.

Lemma sum_area_effective_witness :
  exists area,
    @_sum_area examples.grid examples.two_areas = inr area
    /\ NoDup (map a_district_id (rows area)).
Proof.
  destruct (proj2 (@sum_area_effective examples.grid examples.two_areas))
    as (area & H1 & H2 & _).
  - cbn. apply list_elem_of_here.
  - intros r r' Hr Hr' _. apply list_elem_of_In in Hr, Hr'. cbn in Hr, Hr'.
    destruct Hr as [<-|[<-|[]]], Hr' as [<-|[<-|[]]]; reflexivity.
  - exists area. split; [exact H1|exact H2].
Defined.

End district_facts.

(** ** The scale of the composite and the colours of the maps *)

Module display_facts.
Import numeric bands app.
Import scoring_facts order_facts band_facts app_facts.
Open Scope Q_scope.









(** X26. The colour scale of [render_map] always has [vmin < vmax]: the
    5th and the 95th percentile when they differ (the 95th being the
    larger), the 5th percentile and [1e-9] more when they coincide, and 0
    and 1 for a column without a number. *)
Theorem color_range_increasing (s : Series) :
  exists lo hi,
    color_range s = (Some lo, Some hi) /\ lo < hi
    /\ ((forall x, x ∈ s -> x = None) -> lo = 0 /\ hi = 1)
    /\ (forall p5 p95, nanpercentile s 5 = Some p5 -> nanpercentile s 95 = Some p95 ->
          p5 <= p95 /\ lo = p5
          /\ (p5 < p95 -> hi = p95) /\ (p5 == p95 -> hi = p5 + epsilon)).
Proof.
  unfold color_range.
  destruct (existsb (fun x => bool_decide (x <> None)) s) eqn:Hex.
  - apply existsb_exists in Hex as (x & Hx & Hn). apply bool_decide_eq_true in Hn.
    destruct x as [x|]; [|congruence]. apply list_elem_of_In, list_elem_of_lookup in Hx as [i Hi].
    pose proof (nonnull_lookup _ _ _ Hi) as Hnn.
    destruct (nanpercentile_some s 5 Hnn) as [p5 H5].
    destruct (nanpercentile_some s 95 Hnn) as [p95 H95].
    assert (Hle : p5 <= p95)
      by (apply (nanpercentile_mono s 5 95 p5 p95); try assumption; lra).
    cbv zeta. rewrite H5, H95. cbn [fle fadd fbin].
    destruct (Qle_bool p95 p5) eqn:E.
    + apply Qle_bool_iff in E. exists p5, (p5 + epsilon).
      split; [reflexivity|]. split; [unfold epsilon; lra|]. split.
      * intros Hall. specialize (Hall (Some x) (list_elem_of_lookup_2 _ _ _ Hi)). discriminate.
      * intros q5 q95 [= <-] [= <-]. split; [exact Hle|]. split; [reflexivity|].
        split; [intros Hlt; lra|reflexivity].
    + apply Qle_bool_false in E. exists p5, p95.
      split; [reflexivity|]. split; [exact E|]. split.
      * intros Hall. specialize (Hall (Some x) (list_elem_of_lookup_2 _ _ _ Hi)). discriminate.
      * intros q5 q95 [= <-] [= <-]. split; [exact Hle|]. split; [reflexivity|].
        split; [reflexivity|intros Heq; lra].
  - exists 0, 1. split; [reflexivity|]. split; [lra|]. split; [now split|].
    intros p5 p95 H5 _.
    assert (Hn : nanpercentile s 5 = None).
    { apply nanpercentile_none, nonnull_all_null. intros x Hx.
      destruct x as [x|]; [|reflexivity].
      assert (Hex' : existsb (fun x => bool_decide (x <> None)) s = true).
      { apply existsb_exists. exists (Some x).
        split; [now apply list_elem_of_In|now apply bool_decide_eq_true_2]. }
      congruence. }
    congruence.
Qed.

(** X27. Every label that the builders can give has a colour of its own
    in the palette of the category maps: the labels of [tercile_labels]
    for mobility and for vibrancy and the three labels of the median band
    are never drawn in the fallback grey, which is the colour of a null
    cell. *)
Theorem labels_have_colors :
  (forall values i l,
     labels_mobility.tercile_labels values labels_mobility.mobility_labels !! i = Some l ->
     viz.fill_color (text.PyStr l) <> "#cccccc")
  /\ (forall values i l,
        labels_venues.tercile_labels values labels_venues.vibrancy_labels !! i = Some l ->
        viz.fill_color (text.PyStr l) <> "#cccccc")
  /\ (forall med w v, viz.fill_color (text.PyStr (band_label med w v)) <> "#cccccc")
  /\ viz.fill_color text.PyNone = "#cccccc"
  /\ viz.fill_color (text.PyOther "nan") = "#cccccc".
Proof.
  assert (Hthree : forall (a b c l : string),
             l ∈ [a; b; c] ->
             viz.fill_color (text.PyStr a) <> "#cccccc" ->
             viz.fill_color (text.PyStr b) <> "#cccccc" ->
             viz.fill_color (text.PyStr c) <> "#cccccc" ->
             viz.fill_color (text.PyStr l) <> "#cccccc").
  { intros a b c l Hl Ha Hb Hc.
    apply elem_of_cons in Hl as [->|Hl]; [exact Ha|].
    apply elem_of_cons in Hl as [->|Hl]; [exact Hb|].
    apply list_elem_of_singleton in Hl. now subst l. }
  split; [|split; [|split; [|split; reflexivity]]].
  - intros values i l Hl. apply tercile_labels_range in Hl.
    apply (Hthree _ _ _ l Hl); vm_compute; discriminate.
  - intros values i l Hl.
    change labels_venues.tercile_labels with labels_mobility.tercile_labels in Hl.
    apply tercile_labels_range in Hl.
    apply (Hthree _ _ _ l Hl); vm_compute; discriminate.
  - intros med w v. pose proof (band_label_range med w v) as Hl.
    apply (Hthree _ _ _ _ Hl); vm_compute; discriminate.
Qed.

End display_facts.

(** ** Column names: coordinates and readable labels *)

Module columns_facts.
Import pandas geo pipeline.

(** The first element that a filter keeps, with what precedes it. *)
Lemma filter_head {A : Type} (p : A -> bool) (l : list A) (x : A) (t : list A) :
  List.filter p l = x :: t ->
  p x = true
  /\ exists before after,
       l = (before ++ x :: after)%list /\ forall y, y ∈ before -> p y = false.
Proof.
  induction l as [|a l IH]; [discriminate|]. cbn [List.filter].
  destruct (p a) eqn:Ea.
  - intros [= -> _]. split; [exact Ea|]. exists [], l. split; [reflexivity|].
    intros y Hy. now apply elem_of_nil in Hy.
  - intros Hf. destruct (IH Hf) as (Hx & before & after & -> & Hb).
    split; [exact Hx|]. exists (a :: before), after. split; [reflexivity|].
    intros y Hy. apply elem_of_cons in Hy as [->|Hy]; [exact Ea|now apply Hb].
Qed.

Lemma filter_nil {A : Type} (p : A -> bool) (l : list A) :
  List.filter p l = [] -> forall y, y ∈ l -> p y = false.
Proof.
  intros Hf y Hy. destruct (p y) eqn:Ey; [|reflexivity].
  assert (Hin : In y (List.filter p l))
    by (apply filter_In; split; [now apply list_elem_of_In|exact Ey]).
  now rewrite Hf in Hin.
Qed.

Lemma lat_not_lon (s : string) : s ∈ lat_names -> s ∉ lon_names.
Proof.
  intros Hs Hs'. apply list_elem_of_In in Hs, Hs'. cbn in Hs, Hs'.
  repeat match goal with
         | H : _ \/ _ |- _ => destruct H as [H|H]
         | H : False |- _ => destruct H
         end; subst; discriminate.
Qed.

(** X28. [_infer_lat_lon_columns] returns the first column whose
    lower-cased name is one of "lat", "latitude", "y" and the first one
    whose lower-cased name is one of "lon", "lng", "long", "longitude",
    "x": both are columns of the table, no column before either of them
    qualifies, and they are two different columns.  It returns nothing
    exactly when one of the two kinds is missing from the table. *)
Theorem infer_lat_lon_columns_first (columns : list string) :
  match _infer_lat_lon_columns columns with
  | Some (lat, lon) =>
      lower_name lat ∈ lat_names /\ lower_name lon ∈ lon_names /\ lat <> lon
      /\ (exists before after,
            columns = (before ++ lat :: after)%list
            /\ forall c, c ∈ before -> lower_name c ∉ lat_names)
      /\ (exists before after,
            columns = (before ++ lon :: after)%list
            /\ forall c, c ∈ before -> lower_name c ∉ lon_names)
  | None =>
      (forall c, c ∈ columns -> lower_name c ∉ lat_names)
      \/ (forall c, c ∈ columns -> lower_name c ∉ lon_names)
  end.
Proof.
  unfold _infer_lat_lon_columns. cbv zeta.
  destruct (List.filter (fun c => bool_decide (lower_name c ∈ lat_names)) columns)
    as [|lat t] eqn:Elat.
  - left. intros c Hc. apply (filter_nil _ _ Elat) in Hc.
    now apply bool_decide_eq_false in Hc.
  - destruct (List.filter (fun c => bool_decide (lower_name c ∈ lon_names)) columns)
      as [|lon t'] eqn:Elon.
    + right. intros c Hc. apply (filter_nil _ _ Elon) in Hc.
      now apply bool_decide_eq_false in Hc.
    + apply filter_head in Elat as (Hlat & b1 & a1 & E1 & Hb1).
      apply filter_head in Elon as (Hlon & b2 & a2 & E2 & Hb2).
      apply bool_decide_eq_true in Hlat, Hlon.
      split; [exact Hlat|]. split; [exact Hlon|]. split.
      { intros ->. exact (lat_not_lon _ Hlat Hlon). }
      split.
      * exists b1, a1. split; [exact E1|]. intros c Hc.
        specialize (Hb1 c Hc). now apply bool_decide_eq_false in Hb1.
      * exists b2, a2. split; [exact E2|]. intros c Hc.
        specialize (Hb2 c Hc). now apply bool_decide_eq_false in Hb2.
Qed.

(** A name that [READABLE_RENAMES] gives is not renamed again. *)
Lemma readable_fixed (v : string) : v ∈ map snd READABLE_RENAMES -> readable v = v.
Proof.
  revert v. apply Forall_forall.
  unfold READABLE_RENAMES. cbn [map snd].
  repeat (apply Forall_cons; split; [vm_compute; reflexivity|]). apply Forall_nil_2.
Qed.

Lemma readable_idem (c : string) : readable (readable c) = readable c.
Proof.
  unfold readable at 2 3.
  destruct (List.find (fun kv => bool_decide (fst kv = c)) READABLE_RENAMES) as [kv|] eqn:E.
  - apply find_some in E as [Hin _]. apply readable_fixed.
    apply list_elem_of_In, in_map. exact Hin.
  - unfold readable. now rewrite E.
Qed.

Lemma readable_unknown (c : string) : c ∉ map fst READABLE_RENAMES -> readable c = c.
Proof.
  intros Hc. unfold readable.
  destruct (List.find (fun kv => bool_decide (fst kv = c)) READABLE_RENAMES) as [kv|] eqn:E;
    [|reflexivity].
  apply find_some in E as [Hin Hk]. apply bool_decide_eq_true in Hk. subst c.
  contradict Hc. apply list_elem_of_In, in_map. exact Hin.
Qed.

Lemma NoDup_List_filter {A : Type} (p : A -> bool) (l : list A) :
  NoDup l -> NoDup (List.filter p l).
Proof.
  induction 1 as [|x l Hx Hnd IH]; [apply NoDup_nil_2|]. cbn [List.filter].
  destruct (p x); [|exact IH]. apply NoDup_cons_2; [|exact IH].
  intros Hin. apply Hx. apply list_elem_of_In, filter_In in Hin as [Hin _].
  now apply list_elem_of_In.
Qed.

Lemma elem_of_List_filter {A : Type} (p : A -> bool) (l : list A) (x : A) :
  x ∈ List.filter p l <-> x ∈ l /\ p x = true.
Proof. rewrite !list_elem_of_In. apply filter_In. Qed.

(** In a table with distinct labels a label selects its own column. *)
Lemma filter_label (cols : list string) (l : string) :
  NoDup cols -> l ∈ cols -> List.filter (fun c => bool_decide (c = l)) cols = [l].
Proof.
  induction 1 as [|x cols Hx Hnd IH]; intros Hl; [now apply elem_of_nil in Hl|].
  cbn [List.filter]. destruct (decide (x = l)) as [->|Hne].
  - rewrite bool_decide_eq_true_2 by reflexivity. f_equal.
    clear -Hx. induction cols as [|y cols IH]; [reflexivity|]. cbn [List.filter].
    apply not_elem_of_cons in Hx as [Hy Hx].
    rewrite bool_decide_eq_false_2 by congruence. now apply IH.
  - rewrite bool_decide_eq_false_2 by exact Hne. apply IH.
    apply elem_of_cons in Hl as [->|Hl]; [contradiction|exact Hl].
Qed.

Lemma select_labels_distinct (cols labels : list string) :
  NoDup cols -> (forall l, l ∈ labels -> l ∈ cols) -> select_labels cols labels = labels.
Proof.
  intros Hnd. unfold select_labels.
  induction labels as [|l labels IH]; intros Hall; [reflexivity|]. cbn [flat_map].
  rewrite (filter_label cols l Hnd) by (apply Hall, list_elem_of_here).
  cbn [app]. f_equal. apply IH. intros l' Hl'. now apply Hall, list_elem_of_further.
Qed.

(** The key labels first, then the rest: the new order of distinct
    labels [r]. *)
Lemma keys_first (K r : list string) :
  NoDup K -> NoDup r ->
  let cols := List.filter (fun c => bool_decide (c ∈ r)) K in
  let other := List.filter (fun c => negb (bool_decide (c ∈ cols))) r in
  NoDup (cols ++ other)%list /\ (forall x, x ∈ (cols ++ other)%list <-> x ∈ r).
Proof.
  intros HK Hr. cbv zeta.
  set (cols := List.filter (fun c => bool_decide (c ∈ r)) K).
  set (other := List.filter (fun c => negb (bool_decide (c ∈ cols))) r).
  split.
  - apply NoDup_app. split; [now apply NoDup_List_filter|].
    split; [|now apply NoDup_List_filter].
    intros x Hx Hx'. apply elem_of_List_filter in Hx' as [_ Hx'].
    apply negb_true_iff, bool_decide_eq_false in Hx'. contradiction.
  - intros x. rewrite elem_of_app. split.
    + intros [Hx|Hx].
      * apply elem_of_List_filter in Hx as [_ Hx]. now apply bool_decide_eq_true in Hx.
      * now apply elem_of_List_filter in Hx as [Hx _].
    + intros Hx. destruct (decide (x ∈ cols)) as [Hc|Hc]; [now left|right].
      apply elem_of_List_filter. split; [exact Hx|].
      now apply negb_true_iff, bool_decide_eq_false.
Qed.

Lemma filter_filter_same {A : Type} (p : A -> bool) (l : list A) :
  List.filter p (List.filter p l) = List.filter p l.
Proof.
  induction l as [|x l IH]; [reflexivity|]. cbn [List.filter].
  destruct (p x) eqn:E; [|exact IH]. cbn [List.filter]. now rewrite E, IH.
Qed.

Lemma filter_none_kept {A : Type} (p : A -> bool) (l : list A) :
  (forall x, x ∈ l -> p x = false) -> List.filter p l = [].
Proof.
  induction l as [|x l IH]; intros Hall; [reflexivity|]. cbn [List.filter].
  rewrite (Hall x (list_elem_of_here _ _)). apply IH.
  intros y Hy. now apply Hall, list_elem_of_further.
Qed.

Lemma key_labels :
  [ readable "district_id"; readable "district"; readable "neighborhood_id";
    readable "neighborhood"; readable "area_km2" ]
  = ["District ID"; "District"; "Neighborhood ID"; "Neighborhood"; "Area (km²)"].
Proof. vm_compute. reflexivity. Qed.

Lemma make_readable_columns_order (columns : list string) :
  NoDup (map readable columns) ->
  let renamed := map readable columns in
  let keys :=
    List.filter (fun c => bool_decide (c ∈ renamed))
      ["District ID"; "District"; "Neighborhood ID"; "Neighborhood"; "Area (km²)"] in
  make_readable_columns columns
  = (keys ++ List.filter (fun c => negb (bool_decide (c ∈ keys))) renamed)%list.
Proof.
  intros Hnd. cbv zeta. unfold make_readable_columns. cbv zeta. rewrite key_labels.
  apply select_labels_distinct; [exact Hnd|].
  assert (HK : NoDup ["District ID"; "District"; "Neighborhood ID"; "Neighborhood";
                      "Area (km²)"])
    by (apply (bool_decide_unpack _); vm_compute; exact I).
  intros l Hl. now apply (keys_first _ (map readable columns) HK Hnd).
Qed.

(** X29. [make_readable_columns] on a table whose labels stay distinct
    when renamed only renames and reorders: the labels of the result are
    the renamed labels, each once; the five key labels ("District ID",
    "District", "Neighborhood ID", "Neighborhood", "Area (km²)") that
    occur come first, in this order, and the others follow in the order
    of the table; a label that [READABLE_RENAMES] does not know is kept;
    and a second call changes nothing. *)
Theorem make_readable_columns_reorders (columns : list string) :
  NoDup (map readable columns) ->
  let renamed := map readable columns in
  let keys :=
    List.filter (fun c => bool_decide (c ∈ renamed))
      ["District ID"; "District"; "Neighborhood ID"; "Neighborhood"; "Area (km²)"] in
  make_readable_columns columns
  = (keys ++ List.filter (fun c => negb (bool_decide (c ∈ keys))) renamed)%list
  /\ Permutation (make_readable_columns columns) renamed
  /\ (forall c, c ∈ columns -> c ∉ map fst READABLE_RENAMES ->
        c ∈ make_readable_columns columns)
  /\ make_readable_columns (make_readable_columns columns) = make_readable_columns columns.
Proof.
  intros Hnd. cbv zeta.
  set (K := ["District ID"; "District"; "Neighborhood ID"; "Neighborhood"; "Area (km²)"]).
  assert (HK : NoDup K) by (apply (bool_decide_unpack _); vm_compute; exact I).
  pose proof (make_readable_columns_order columns Hnd) as Eq. cbv zeta in Eq. fold K in Eq.
  destruct (keys_first K (map readable columns) HK Hnd) as [Hnd' Hel].
  rewrite <- Eq in Hnd', Hel.
  assert (Hperm : Permutation (make_readable_columns columns) (map readable columns))
    by (apply NoDup_Permutation; assumption).
  split; [exact Eq|]. split; [exact Hperm|]. split.
  - intros c Hc Hun. apply Hel. rewrite <- (readable_unknown c Hun).
    apply list_elem_of_In, in_map. now apply list_elem_of_In.
  - set (m := make_readable_columns columns) in *.
    assert (Hfix : map readable m = m).
    { rewrite <- (map_id m) at 2. apply map_ext_in. intros x Hx.
      apply list_elem_of_In, Hel, list_elem_of_In, in_map_iff in Hx as (c & <- & _).
      apply readable_idem. }
    assert (Hnd2 : NoDup (map readable m)) by now rewrite Hfix.
    rewrite (make_readable_columns_order m Hnd2). cbv zeta. fold K. rewrite Hfix.
    assert (Ek : List.filter (fun c => bool_decide (c ∈ m)) K
                 = List.filter (fun c => bool_decide (c ∈ map readable columns)) K).
    { apply filter_ext. intros x. apply bool_decide_ext, Hel. }
    rewrite Ek. set (keys := List.filter (fun c => bool_decide (c ∈ map readable columns)) K).
    fold keys in Eq. rewrite Eq at 1. rewrite List.filter_app, filter_filter_same.
    rewrite (filter_none_kept _ keys); [cbn [app]; symmetry; exact Eq|].
    intros x Hx. now apply negb_false_iff, bool_decide_eq_true.
Qed.

Lemma make_readable_columns_reorders_witness :
  make_readable_columns examples.label_columns
  = ["District ID"; "Neighborhood"; "Green share (0–1)"; "comment"].
Proof.
  destruct (make_readable_columns_reorders examples.label_columns) as [H _].
  - apply (bool_decide_unpack _). vm_compute. exact I.
  - rewrite H. vm_compute. reflexivity.
Defined.

End columns_facts.

(** ** Venues of a district *)

Module district_venues_facts.
Import numeric pandas geo aggregate.
Import pandas_facts scoring_facts mobility_facts aggregate_facts.
Import order_facts group_facts band_facts vibrancy_facts district_facts.
Open Scope Q_scope.


Section with_geolib.
Context `{GeoLib}.


End with_geolib.


End district_venues_facts.
